(** * Polymer invoice-batch relayer: a shallow embedding of
      [config/chains.js] and [scripts/relayerV2.js]

    The relayer is a single-threaded, event-loop program.  Every [async]
    function is embedded as the sequence of its synchronous segments (the
    code between two [await]s); a segment is a total function on the state
    it touches, and the event loop is a step function that runs one
    segment at a time.  What the outside world answers (environment
    variables, RPC nodes, the proof service, target-chain transactions) is
    an explicit argument of the segment that consumes the answer.  Calls
    to the outside and the console lines that report a skip, an error or
    the results are recorded as events; the other console lines are left
    out.  Numbers are integers that JavaScript prints in decimal. *)

From stdpp Require Import gmap strings list fin_maps pretty.
From Stdlib Require Import ZArith Lia Ascii.
From Stdlib Require Strings.Byte.

Open Scope string_scope.
Open Scope list_scope.
Open Scope Z_scope.

(** ** JavaScript values the program handles *)

(** A thrown [Error]: only its [message] is ever read. *)
Record Error := mkError { message : string }.

Global Instance Error_eq_dec : EqDecision Error.
Proof. solve_decision. Defined.

(** The outcome of a call that may throw (or of a promise that may
    reject). *)
Inductive Outcome (A : Type) :=
| Returns (a : A)
| Throws (e : Error).
Arguments Returns {A} a.
Arguments Throws {A} e.

(** [process.env]: a variable is either unset ([undefined]) or a string. *)
Abbreviation Env := (gmap string string).

(** JavaScript truthiness of [string | undefined]: [undefined] and the
    empty string are falsy. *)
Definition truthy (v : option string) : bool :=
  match v with
  | Some s => negb (String.eqb s "")
  | None => false
  end.

(** A value interpolated in a template literal. *)
Definition tpl (v : option string) : string := default "undefined" v.

(** [String.prototype.split] with a one-character separator. *)
Fixpoint split_go (sep : ascii) (cur : string) (s : string) : list string :=
  match s with
  | EmptyString => [String.rev cur]
  | String c s' =>
      if Ascii.eqb c sep then String.rev cur :: split_go sep "" s'
      else split_go sep (String c cur) s'
  end.
Definition split (sep : ascii) (s : string) : list string := split_go sep "" s.

(** [s.includes(sub)], as a proposition. *)
Definition includes (s sub : string) : Prop :=
  ∃ pre post, s = pre +:+ sub +:+ post.

(** ** config/chains.js *)

Module Config.

(** One entry of the [CHAINS] table.  The five entries that carry no
    [envPrefix], [rpc] or [proverAddress] property have [None] there. *)
Record Chain := mkChain {
  name : string;
  chainId : Z;
  envPrefix : option string;
  invoiceBatcherAddress : option string;
  rpc : option string;
  proverAddress : option string
}.

Global Instance Chain_eq_dec : EqDecision Chain.
Proof. solve_decision. Defined.

Definition CHAINS_entries (env : Env) : list (string * Chain) :=
  [ ("optimism-sepolia",
     mkChain "Optimism Sepolia" 11155420 (Some "OPTIMISM_SEPOLIA")
       (env !! "OPTIMISM_SEPOLIA_INVOICE_BATCHER_ADDRESS")
       (env !! "OPTIMISM_SEPOLIA_RPC")
       (env !! "POLYMER_PROVER_OPTIMISM_TESTNET_CONTRACT_ADDRESS"));
    ("arbitrum-sepolia",
     mkChain "Arbitrum Sepolia" 421614 (Some "ARBITRUM_SEPOLIA")
       (env !! "ARBITRUM_SEPOLIA_INVOICE_BATCHER_ADDRESS")
       (env !! "ARBITRUM_SEPOLIA_RPC")
       (env !! "POLYMER_PROVER_ARBITRUM_TESTNET_CONTRACT_ADDRESS"));
    ("base-sepolia",
     mkChain "Base Sepolia" 84532 (Some "BASE_SEPOLIA")
       (env !! "BASE_SEPOLIA_INVOICE_BATCHER_ADDRESS")
       (env !! "BASE_SEPOLIA_RPC")
       (env !! "POLYMER_PROVER_BASE_TESTNET_CONTRACT_ADDRESS"));
    ("mode-sepolia",
     mkChain "Mode Sepolia" 919 None
       (env !! "MODE_SEPOLIA_INVOICE_BATCHER_ADDRESS") None None);
    ("bob-sepolia",
     mkChain "Bob Sepolia" 808813 None
       (env !! "BOB_SEPOLIA_INVOICE_BATCHER_ADDRESS") None None);
    ("ink-sepolia",
     mkChain "Ink Sepolia" 763373 None
       (env !! "INK_SEPOLIA_INVOICE_BATCHER_ADDRESS") None None);
    ("unichain-sepolia",
     mkChain "UniChain Sepolia" 1301 None
       (env !! "UNICHAIN_SEPOLIA_INVOICE_BATCHER_ADDRESS") None None);
    ("mantle-sepolia",
     mkChain "Mantle Sepolia" 5003 None
       (env !! "MANTLE_SEPOLIA_INVOICE_BATCHER_ADDRESS") None None) ].

(** The [CHAINS] object.  A key inherited from [Object.prototype] reads a
    value without [rpc], which [getEnabledChains] filters out exactly as
    it does a missing key. *)
Definition CHAINS (env : Env) : gmap string Chain :=
  list_to_map (CHAINS_entries env).

(** [process.env.ACTIVATED_CHAINS?.split(',') || []] *)
Definition activatedChains (env : Env) : list string :=
  match env !! "ACTIVATED_CHAINS" with
  | Some s => split "," s
  | None => []
  end.

(** [chain => chain && chain.rpc && chain.proverAddress] *)
Definition enabled (oc : option Chain) : bool :=
  match oc with
  | Some c => truthy (rpc c) && truthy (proverAddress c)
  | None => false
  end.

Definition getEnabledChains (env : Env) : list Chain :=
  omap id (List.filter enabled ((λ chainKey, CHAINS env !! chainKey) <$> activatedChains env)).

End Config.
Export Config.

(** ** Records shared by the listener and the relayer *)

(** The fields of [event.log] that the handler reads. *)
Module Log.
Record t := mk {
  blockHash : string;
  transactionHash : string;
  index : Z;
  blockNumber : Z
}.
End Log.

(** A transaction receipt: its position in the block and, for every log,
    the list of its topics. *)
Module Receipt.
Record t := mk {
  index : Z;
  logs : list (list string)
}.
End Receipt.

(** [eventData], the record a listener hands to its callback.
    [positionInBlock] is assigned after the receipt lookup. *)
Module EventData.
Record t := mk {
  chain : Chain;
  sender : string;
  invoices : list string;
  blockNumber : Z;
  transactionHash : string;
  logIndex : Z;
  positionInBlock : option Z
}.
Definition set_positionInBlock (ed : t) (p : Z) : t :=
  mk (chain ed) (sender ed) (invoices ed) (blockNumber ed)
     (transactionHash ed) (logIndex ed) (Some p).
End EventData.

(** Reading property [prop] of [null] or [undefined]. *)
Definition TypeError (value prop : string) : Error :=
  mkError ("Cannot read properties of " +:+ value +:+ " (reading '" +:+ prop +:+ "')").

(** ** class ChainListener *)

Module ChainListener.

(** The object's fields.  [provider] and [contract] are ethers objects:
    of the contract the model keeps its [target] address and the number of
    handlers registered on it for "InvoiceBatch". *)
Record t := mk {
  chain : Chain;
  contract : string;
  handlers : nat;
  isListening : bool;
  processedEvents : gset string
}.

Definition rpcEnvKey (chain : Chain) : string :=
  tpl (envPrefix chain) +:+ "_RPC".
Definition contractEnvKey (chain : Chain) : string :=
  tpl (envPrefix chain) +:+ "_INVOICEBATCHER_ADDRESS".

(** [constructor(chain, eventCallback)] *)
Definition new (env : Env) (chain : Chain) : Outcome t :=
  let rpc := env !! rpcEnvKey chain in
  if negb (truthy rpc) then
    Throws (mkError ("No RPC found in environment for chain " +:+ name chain
                     +:+ " (" +:+ rpcEnvKey chain +:+ ")"))
  else
    let contractAddress := env !! contractEnvKey chain in
    if negb (truthy contractAddress) then
      Throws (mkError ("No invoice batcher address found in environment for chain "
                       +:+ name chain +:+ " (" +:+ contractEnvKey chain +:+ ")"))
    else
      Returns (mk chain (tpl contractAddress) 0 false ∅).

(** What the listener does to the outside, in program order. *)
Inductive Event :=
| GetBlockNumber
| Subscribed
| RemoveAllListeners
| GetTransactionReceipt (transactionHash : string)
| Callback (eventData : EventData.t)
| LogError (e : Error)
| StartRejected (e : Error)
| StopRejected (e : Error).

(** A suspended [async] call: where it awaits and the locals it holds. *)
Inductive Pending :=
| StartAwaitsBlockNumber
| StopAwaitsRemoval
| HandlerAwaitsReceipt (eventId : string) (eventData : EventData.t)
| HandlerAwaitsCallback (eventId : string) (eventData : EventData.t).

(** What an awaited promise settles with. *)
Inductive Answer :=
| BlockNumber (a : Outcome Z)
| Removed (a : Outcome unit)
| ReceiptFound (a : Outcome (option Receipt.t))
| CallbackDone (a : Outcome unit).

(** The event loop's next job: a fresh call, or the resumption of a
    suspended one. *)
Inductive Input :=
| CallStart
| CallStop
| Emit (sender : string) (invoices : list string) (log : Log.t)
| Resume (tid : nat) (a : Answer).

Record Sys := mkSys {
  self : t;
  pending : gmap nat Pending;
  next : nat;
  trace : list Event
}.

(** [`${event.log.blockHash}-${event.log.transactionHash}-${event.log.index}`] *)
Definition eventId (log : Log.t) : string :=
  Log.blockHash log +:+ "-" +:+ Log.transactionHash log +:+ "-" +:+ pretty (Log.index log).

Definition suspend (s : Sys) (l : t) (p : Pending) (evs : list Event) : Sys :=
  mkSys l (<[next s := p]> (pending s)) (S (next s)) (trace s ++ evs).

Definition finish (s : Sys) (tid : nat) (l : t) (evs : list Event) : Sys :=
  mkSys l (delete tid (pending s)) (next s) (trace s ++ evs).

Definition continue (s : Sys) (tid : nat) (p : Pending) (evs : list Event) : Sys :=
  mkSys (self s) (<[tid := p]> (pending s)) (next s) (trace s ++ evs).

(** [start()] up to [await this.provider.getBlockNumber()]. *)
Definition start_call (s : Sys) : Sys :=
  if isListening (self s) then s
  else suspend s (self s) StartAwaitsBlockNumber [GetBlockNumber].

(** [start()] from the block number on: [this.contract.on(...)] and
    [this.isListening = true]. *)
Definition start_resume (s : Sys) (tid : nat) (a : Outcome Z) : Sys :=
  match a with
  | Throws e => finish s tid (self s) [StartRejected e]
  | Returns latestBlock =>
      let l := self s in
      finish s tid
        (mk (chain l) (contract l) (S (handlers l)) true (processedEvents l))
        [Subscribed]
  end.

(** [stop()] up to [await this.contract.removeAllListeners()]. *)
Definition stop_call (s : Sys) : Sys :=
  if negb (isListening (self s)) then s
  else suspend s (self s) StopAwaitsRemoval [RemoveAllListeners].

(** [stop()] after the removal: [this.isListening = false]. *)
Definition stop_resume (s : Sys) (tid : nat) (a : Outcome unit) : Sys :=
  match a with
  | Throws e => finish s tid (self s) [StopRejected e]
  | Returns _ =>
      let l := self s in
      finish s tid (mk (chain l) (contract l) 0 false (processedEvents l)) []
  end.

(** The "InvoiceBatch" handler up to
    [await event.log.getTransactionReceipt()]. *)
Definition handler_call (s : Sys) (sender : string) (invoices : list string)
    (log : Log.t) : Sys :=
  let eventId := eventId log in
  if decide (eventId ∈ processedEvents (self s)) then s
  else
    let eventData :=
      EventData.mk (chain (self s)) sender invoices (Log.blockNumber log)
        (Log.transactionHash log) (Log.index log) None in
    suspend s (self s) (HandlerAwaitsReceipt eventId eventData)
      [GetTransactionReceipt (Log.transactionHash log)].

(** The handler from the receipt to [await this.eventCallback(eventData)];
    an exception lands in the handler's [catch]. *)
Definition handler_receipt (s : Sys) (tid : nat) (eventId : string)
    (eventData : EventData.t) (a : Outcome (option Receipt.t)) : Sys :=
  match a with
  | Throws e => finish s tid (self s) [LogError e]
  | Returns None => finish s tid (self s) [LogError (TypeError "null" "index")]
  | Returns (Some receipt) =>
      let eventData := EventData.set_positionInBlock eventData (Receipt.index receipt) in
      continue s tid (HandlerAwaitsCallback eventId eventData) [Callback eventData]
  end.

(** The handler after the callback: [this.processedEvents.add(eventId)],
    or the [catch]. *)
Definition handler_done (s : Sys) (tid : nat) (eventId : string)
    (a : Outcome unit) : Sys :=
  match a with
  | Throws e => finish s tid (self s) [LogError e]
  | Returns _ =>
      let l := self s in
      finish s tid
        (mk (chain l) (contract l) (handlers l) (isListening l)
            ({[eventId]} ∪ processedEvents l))
        []
  end.

(** One job of the event loop.  [None]: the job cannot occur (an event is
    emitted to a contract without handler, or a promise settles that
    nothing awaits). *)
Definition step (s : Sys) (i : Input) : option Sys :=
  match i with
  | CallStart => Some (start_call s)
  | CallStop => Some (stop_call s)
  | Emit sender invoices log =>
      if decide (handlers (self s) = 0%nat) then None
      else Some (handler_call s sender invoices log)
  | Resume tid a =>
      match pending s !! tid, a with
      | Some StartAwaitsBlockNumber, BlockNumber a => Some (start_resume s tid a)
      | Some StopAwaitsRemoval, Removed a => Some (stop_resume s tid a)
      | Some (HandlerAwaitsReceipt eventId eventData), ReceiptFound a =>
          Some (handler_receipt s tid eventId eventData a)
      | Some (HandlerAwaitsCallback eventId eventData), CallbackDone a =>
          Some (handler_done s tid eventId a)
      | _, _ => None
      end
  end.

Fixpoint run (s : Sys) (inputs : list Input) : option Sys :=
  match inputs with
  | [] => Some s
  | i :: inputs => match step s i with Some s' => run s' inputs | None => None end
  end.

(** A freshly constructed listener, nothing suspended. *)
Definition boot (l : t) : Sys := mkSys l ∅ 0 [].

(** The callback invocations of a trace. *)
Definition callbacks (tr : list Event) : list EventData.t :=
  omap (λ e, match e with Callback ed => Some ed | _ => None end) tr.

End ChainListener.

(** ** class Relayer *)

Module Relayer.

(** The object's fields.  [wallet] is only handed to ethers and is left
    out; whether [new ethers.Wallet(process.env.PRIVATE_KEY)] returns or
    throws is an input of [main]. *)
Record t := mk {
  enabledChains : list Chain;
  chains : gmap Z Chain;
  listeners : gmap Z ChainListener.t;
  processingEvents : gmap string bool
}.

Definition set_listeners (r : t) (ls : gmap Z ChainListener.t) : t :=
  mk (enabledChains r) (chains r) ls (processingEvents r).
Definition set_processingEvents (r : t) (m : gmap string bool) : t :=
  mk (enabledChains r) (chains r) (listeners r) m.

(** The body of the constructor's [map] callback: it assigns two fields of
    the chain object, which [this.enabledChains] shares. *)
Definition configure (env : Env) (chain : Chain) : Chain :=
  mkChain (name chain) (chainId chain) (envPrefix chain)
    (env !! ChainListener.contractEnvKey chain)
    (env !! ChainListener.rpcEnvKey chain)
    (proverAddress chain).

(** [Object.fromEntries]: a later entry replaces an earlier one. *)
Definition fromEntries (entries : list (Z * Chain)) : gmap Z Chain :=
  foldl (λ m kv, <[kv.1 := kv.2]> m) ∅ entries.

(** [constructor()]: the object it builds, when the wallet is built. *)
Definition new (env : Env) : t :=
  let enabledChains := configure env <$> getEnabledChains env in
  mk enabledChains
     (fromEntries ((λ chain, (chainId chain, chain)) <$> enabledChains))
     ∅ ∅.

(** Lines written to the console during start-up. *)
Inductive Console :=
| Skipping (name : string) (contractEnvKey : string)
| ContractLine (name : string) (address : string)
| ErrorLine (e : Error).

(** The [for] loop of [init()]. *)
Fixpoint init_loop (env : Env) (todo : list Chain)
    (listeners : gmap Z ChainListener.t)
  : Outcome (gmap Z ChainListener.t) * list Console :=
  match todo with
  | [] => (Returns listeners, [])
  | chain :: todo =>
      let contractEnvKey := ChainListener.contractEnvKey chain in
      if negb (truthy (env !! contractEnvKey)) then
        let '(r, out) := init_loop env todo listeners in
        (r, Skipping (name chain) contractEnvKey :: out)
      else
        let line := ContractLine (name chain) (tpl (env !! contractEnvKey)) in
        match ChainListener.new env chain with
        | Throws e => (Throws e, [line])
        | Returns listener =>
            let '(r, out) := init_loop env todo (<[chainId chain := listener]> listeners) in
            (r, line :: out)
        end
  end.

(** [init()] *)
Definition init (env : Env) (r : t) : Outcome t * list Console :=
  match init_loop env (enabledChains r) (listeners r) with
  | (Throws e, out) => (Throws e, out)
  | (Returns listeners, out) =>
      if decide (size listeners = 0%nat) then
        (Throws (mkError "No chains configured with valid invoice batcher addresses"), out)
      else (Returns (set_listeners r listeners), out)
  end.

(** How the process ends up after [main()]. *)
Inductive Process :=
| Exited (code : Z)
| Watching (r : t).

(** [main()], preceded by the start-up check of [config/chains.js] and
    followed by the handler installed on its promise.  [wallet] is the
    outcome of [new ethers.Wallet(process.env.PRIVATE_KEY)] in the
    constructor, [start] that of [relayer.start()]. *)
Definition main (env : Env) (wallet : Outcome unit) (start : t → Outcome unit)
  : Process * list Console :=
  if negb (truthy (env !! "ACTIVATED_CHAINS")) then (Exited 1, [])
  else
    match wallet with
    | Throws error => (Exited 1, [ErrorLine error])
    | Returns _ =>
        let relayer := new env in
        match init env relayer with
        | (Throws error, out) => (Exited 1, out ++ [ErrorLine error])
        | (Returns relayer, out) =>
            match start relayer with
            | Throws error => (Exited 1, out ++ [ErrorLine error])
            | Returns _ => (Watching relayer, out)
            end
        end
    end.

(** *** Proof acquisition *)

(** The proof string ["0x" + hex of the base64-decoded transport form];
    the relayer never looks inside. *)
Record Proof := hexOfBase64 { transport : string }.

(** What the source chain's node and the proof service answer to one
    call of [getPolymerProof]: the receipt lookup, the proof request
    (status and [data.result]), the [k]-th proof query ([data.result], and
    in it [proof]), and the seconds elapsed when the [k]-th query
    answers. *)
Record ProofService := mkProofService {
  receipt : Outcome (option Receipt.t);
  request : Outcome (Z * option string);
  query : nat → Outcome (option (option string));
  elapsed : nat → string
}.

(** What handling an event does to the outside, in program order. *)
Inductive Event :=
| LogNewBatch (eventData : EventData.t)
| GetTransactionReceipt (rpc : option string) (transactionHash : string)
| RequestProof (sourceChainId blockNumber transactionIndex localLogIndex : Z)
| QueryProof (jobId : option string)
| Sleep (ms : Z)
| LogProofError (msg : string)
| LogUpdating (name : string)
| Submit (targetChain : Chain) (proof : Proof)
| Settled (index : nat) (result : Outcome Receipt.t)
| LogResults (lines : list (string * Outcome Receipt.t)) (proofTime : string)
| LogProcessingError (e : Error).

(** A computation that emits events and returns or throws. *)
Definition Act (A : Type) : Type := list Event * Outcome A.

Definition ret {A} (a : A) : Act A := ([], Returns a).
Definition throw {A} (e : Error) : Act A := ([], Throws e).
Definition bind {A B} (m : Act A) (k : A → Act B) : Act B :=
  match m with
  | (evs, Returns a) => let '(evs', b) := k a in (evs ++ evs', b)
  | (evs, Throws e) => (evs, Throws e)
  end.
(** [await] of a call that shows as [ev] and settles with [a]. *)
Definition await {A} (ev : Event) (a : Outcome A) : Act A := ([ev], a).

Notation "'let*' x ':=' m 'in' k" := (bind m (λ x, k))
  (at level 10, x name, m at level 100, k at level 200, only parsing).

(** [Array.prototype.findIndex] *)
Fixpoint findIndex_from {A} (p : A → bool) (l : list A) (i : Z) : Z :=
  match l with
  | [] => -1
  | x :: l => if p x then i else findIndex_from p l (i + 1)
  end.
Definition findIndex {A} (p : A → bool) (l : list A) : Z := findIndex_from p l 0.

Definition invoiceBatchEventSignature : string := "InvoiceBatch(address,bytes32[])".

Section WithEthers.

(** [ethers.id]: the Keccak-256 hash of a string, in hex. *)
Variable ethers_id : string → string.

(** [new ethers.Contract(target, CONTRACT_ABI, signer)] checks its first
    argument before anything else: a target that is not a string, such as
    the [undefined] batcher address of a chain, is refused with a
    [TypeError] of the library's own, whose text depends on the version of
    ethers; a string is accepted. *)
Variable invalidTarget : Error.

(** The [while (attempts < 120)] loop.  [None]: out of fuel. *)
Fixpoint pollLoop (fuel : nat) (w : ProofService) (jobId : option string)
    (attempts : nat) : option (Act (Proof * string)) :=
  match fuel with
  | O => None
  | S fuel =>
      if decide (attempts < 120)%nat then
        match query w attempts with
        | Throws e => Some (await (QueryProof jobId) (Throws e))
        | Returns None => Some ([QueryProof jobId], Throws (TypeError "undefined" "proof"))
        | Returns (Some proof) =>
            if truthy proof then
              Some ([QueryProof jobId],
                    Returns (hexOfBase64 (tpl proof), elapsed w attempts))
            else
              match pollLoop fuel w jobId (S attempts) with
              | None => None
              | Some (evs, r) => Some ([QueryProof jobId; Sleep 500] ++ evs, r)
              end
        end
      else Some (throw (mkError "Timeout waiting for proof"))
  end.

(** [getPolymerProof] up to the poll loop: the job id. *)
Definition requestProof (r : t) (w : ProofService) (sourceChainId blockNumber : Z)
    (transactionHash : string) (logIndex : Z) : Act (option string) :=
  let* sourceChain := match chains r !! sourceChainId with
                       | Some c => ret c
                       | None => throw (TypeError "undefined" "rpc")
                       end in
  let* txReceipt := await (GetTransactionReceipt (rpc sourceChain) transactionHash)
                          (receipt w) in
  match txReceipt with
  | None => throw (mkError "Transaction receipt not found")
  | Some txReceipt =>
      let invoiceBatchTopic := ethers_id invoiceBatchEventSignature in
      let localLogIndex :=
        findIndex (λ topics, bool_decide (topics !! 0%nat = Some invoiceBatchTopic))
          (Receipt.logs txReceipt) in
      if localLogIndex =? -1 then
        throw (mkError "InvoiceBatch event not found in transaction logs")
      else
        let* proofRequest := await (RequestProof sourceChainId blockNumber
                                      (Receipt.index txReceipt) localLogIndex)
                                   (request w) in
        if negb (proofRequest.1 =? 200) then
          throw (mkError ("Failed to get proof from Polymer API. Status code: "
                          +:+ pretty proofRequest.1))
        else ret proofRequest.2
  end.

(** The [catch] of [getPolymerProof]: log the message and rethrow. *)
Definition logAndRethrow {A} (m : Act A) : Act A :=
  match m with
  | (evs, Throws error) => (evs ++ [LogProofError (message error)], Throws error)
  | _ => m
  end.

Definition getPolymerProof (fuel : nat) (r : t) (w : ProofService)
    (sourceChainId blockNumber : Z) (transactionHash : string) (logIndex : Z)
  : option (Act (Proof * string)) :=
  match requestProof r w sourceChainId blockNumber transactionHash logIndex with
  | (evs, Throws e) => Some (logAndRethrow (evs, Throws e))
  | (evs, Returns jobId) =>
      match pollLoop fuel w jobId 0 with
      | None => None
      | Some (evs', res) => Some (logAndRethrow (evs ++ evs', res))
      end
  end.

(** One more than the attempt ceiling: the last iteration is the one that
    finds [attempts < 120] false. *)
Definition poll_fuel : nat := 121.

(** *** Fan-out *)

(** What the target chain answers to one [updateChain]: the send throws,
    the send returns a transaction whose [wait()] throws, or the
    transaction is mined. *)
Inductive SubmitAnswer :=
| SendFails (error : Error)
| WaitFails (hash : string) (error : Error)
| Confirmed (hash : string) (receipt : Receipt.t).

(** Whether [new ethers.Contract] accepts the batcher address of a
    chain. *)
Definition addressable (chain : Chain) : bool :=
  match invoiceBatcherAddress chain with
  | Some _ => true
  | None => false
  end.

(** [updateChain(targetChain, proof)] up to its first [await], as the
    [map] of the fan-out runs it: provider, signer and contract are
    constructed before the [try], then the call is sent and its promise is
    pending ([None]); where the contract constructor throws, nothing is
    sent and the promise is rejected on the spot. *)
Definition updateChain_call (targetChain : Chain) (proof : Proof)
  : list Event * option (Outcome Receipt.t) :=
  if addressable targetChain then
    ([LogUpdating (name targetChain); Submit targetChain proof], None)
  else ([LogUpdating (name targetChain)], Some (Throws invalidTarget)).

(** [updateChain(targetChain, proof)]: what its promise settles with;
    [a] is consulted only when the call was sent. *)
Definition updateChain (targetChain : Chain) (proof : Proof) (a : SubmitAnswer)
  : Outcome Receipt.t :=
  if addressable targetChain then
    match a with
    | Confirmed _ receipt => Returns receipt
    | SendFails error | WaitFails _ error =>
        Throws (mkError ("Failed to update " +:+ name targetChain +:+ ": "
                         +:+ message error))
    end
  else Throws invalidTarget.

(** *** handleEvent and the event loop

    [handleEvent] suspends twice: on the proof and on
    [Promise.allSettled].  The awaits inside [getPolymerProof] and
    [updateChain] touch no field of the relayer, so the event loop below
    runs a whole proof acquisition as one job, and the two awaits of an
    [updateChain] whose call was sent as one job per target. *)

(** [`${sourceChain.chainId}-${transactionHash}`] *)
Definition eventId (eventData : EventData.t) : string :=
  pretty (chainId (EventData.chain eventData)) +:+ "-"
  +:+ EventData.transactionHash eventData.

(** A suspended [handleEvent]: awaiting the proof, or awaiting
    [Promise.allSettled(updatePromises)], with the locals it holds; a
    promise not yet settled is [None].  The local [eventId] is
    [eventId eventData] throughout. *)
Inductive Pending :=
| AwaitsProof (eventData : EventData.t)
| AwaitsAllSettled (eventData : EventData.t) (proof : Proof) (proofTime : string)
    (targetChains : list Chain)
    (updatePromises : list (option (Outcome Receipt.t))).

(** The event loop's next job: a listener calls back, the proof
    acquisition of a call settles, one of its update promises settles, or
    the call resumes after all of them have. *)
Inductive Input :=
| HandleEvent (eventData : EventData.t)
| ProofSettles (tid : nat) (w : ProofService)
| UpdateSettles (tid : nat) (index : nat) (a : SubmitAnswer)
| AllSettled (tid : nat).

(** The relayer, its suspended [handleEvent] calls, and what each call has
    done so far. *)
Record Sys := mkSys {
  self : t;
  pending : gmap nat Pending;
  next : nat;
  trace : list (nat * Event)
}.

Definition tag (tid : nat) (evs : list Event) : list (nat * Event) :=
  (λ ev, (tid, ev)) <$> evs.

(** [handleEvent] up to [await this.getPolymerProof(...)]. *)
Definition handleEvent_call (s : Sys) (eventData : EventData.t) : Sys :=
  let eventId := eventId eventData in
  if decide (is_Some (processingEvents (self s) !! eventId)) then s
  else
    mkSys (set_processingEvents (self s) (<[eventId := true]> (processingEvents (self s))))
          (<[next s := AwaitsProof eventData]> (pending s))
          (S (next s))
          (trace s ++ [(next s, LogNewBatch eventData)]).

(** The [finally] block, at the end of the call. *)
Definition finally (s : Sys) (tid : nat) (eventId : string) (evs : list Event) : Sys :=
  mkSys (set_processingEvents (self s) (delete eventId (processingEvents (self s))))
        (delete tid (pending s))
        (next s)
        (trace s ++ tag tid evs).

(** [handleEvent] from the proof to [await Promise.allSettled(...)]; a
    rejected proof acquisition goes to [catch] and [finally]. *)
Definition handleEvent_proof (s : Sys) (tid : nat) (eventData : EventData.t)
    (got : Act (Proof * string)) : Sys :=
  match got with
  | (evs, Throws error) =>
      finally s tid (eventId eventData) (evs ++ [LogProcessingError error])
  | (evs, Returns (proof, proofTime)) =>
      let sourceChain := EventData.chain eventData in
      let targetChains :=
        List.filter (λ chain, negb (chainId chain =? chainId sourceChain))
          (enabledChains (self s)) in
      let calls := (λ targetChain, updateChain_call targetChain proof) <$> targetChains in
      let updatePromises := snd <$> calls in
      mkSys (self s)
            (<[tid := AwaitsAllSettled eventData proof proofTime targetChains
                        updatePromises]> (pending s))
            (next s)
            (trace s ++ tag tid (evs ++ concat (fst <$> calls)))
  end.

(** One pending update promise settles. *)
Definition update_settles (s : Sys) (tid : nat) (eventData : EventData.t)
    (proof : Proof) (proofTime : string) (targetChains : list Chain)
    (updatePromises : list (option (Outcome Receipt.t)))
    (index : nat) (a : SubmitAnswer) : option Sys :=
  match targetChains !! index, updatePromises !! index with
  | Some targetChain, Some None =>
      let result := updateChain targetChain proof a in
      Some (mkSys (self s)
              (<[tid := AwaitsAllSettled eventData proof proofTime targetChains
                          (<[index := Some result]> updatePromises)]> (pending s))
              (next s)
              (trace s ++ [(tid, Settled index result)]))
  | _, _ => None
  end.

(** [Promise.allSettled]: the results, once every promise has settled. *)
Definition allSettled (updatePromises : list (option (Outcome Receipt.t)))
  : option (list (Outcome Receipt.t)) :=
  mapM id updatePromises.

(** [handleEvent] after [Promise.allSettled]: the report and [finally]. *)
Definition handleEvent_results (s : Sys) (tid : nat) (eventData : EventData.t)
    (proofTime : string) (targetChains : list Chain)
    (results : list (Outcome Receipt.t)) : Sys :=
  finally s tid (eventId eventData)
    [LogResults (zip (name <$> targetChains) results) proofTime].

(** One job of the event loop.  [None]: the job cannot occur. *)
Definition step (s : Sys) (i : Input) : option Sys :=
  match i with
  | HandleEvent eventData => Some (handleEvent_call s eventData)
  | ProofSettles tid w =>
      match pending s !! tid with
      | Some (AwaitsProof eventData) =>
          got ← getPolymerProof poll_fuel (self s) w
                  (chainId (EventData.chain eventData))
                  (EventData.blockNumber eventData)
                  (EventData.transactionHash eventData)
                  (EventData.logIndex eventData);
          Some (handleEvent_proof s tid eventData got)
      | _ => None
      end
  | UpdateSettles tid index a =>
      match pending s !! tid with
      | Some (AwaitsAllSettled eventData proof proofTime targetChains updatePromises) =>
          update_settles s tid eventData proof proofTime targetChains updatePromises index a
      | _ => None
      end
  | AllSettled tid =>
      match pending s !! tid with
      | Some (AwaitsAllSettled eventData proof proofTime targetChains updatePromises) =>
          results ← allSettled updatePromises;
          Some (handleEvent_results s tid eventData proofTime targetChains results)
      | _ => None
      end
  end.

Fixpoint run (s : Sys) (inputs : list Input) : option Sys :=
  match inputs with
  | [] => Some s
  | i :: inputs => match step s i with Some s' => run s' inputs | None => None end
  end.

End WithEthers.

(** A relayer with no call in flight. *)
Definition boot (r : t) : Sys := mkSys r ∅ 0 [].

(** The event identity of the spec: source chain and transaction hash. *)
Definition identity (eventData : EventData.t) : Z * string :=
  (chainId (EventData.chain eventData), EventData.transactionHash eventData).

(** The event a suspended call works on. *)
Definition event (p : Pending) : EventData.t :=
  match p with
  | AwaitsProof eventData => eventData
  | AwaitsAllSettled eventData _ _ _ _ => eventData
  end.

(** In-flight exclusivity: every suspended call was numbered by the
    event loop and holds the ticket of its event, every ticket is held by
    a suspended call, and no two suspended calls hold the same one. *)
Definition exclusive (s : Sys) : Prop :=
  (∀ tid p, pending s !! tid = Some p →
     (tid < next s)%nat ∧ is_Some (processingEvents (self s) !! eventId (event p)))
  ∧ (∀ k, is_Some (processingEvents (self s) !! k) →
       ∃ tid p, pending s !! tid = Some p ∧ eventId (event p) = k)
  ∧ (∀ t1 t2 p1 p2, pending s !! t1 = Some p1 → pending s !! t2 = Some p2 →
       eventId (event p1) = eventId (event p2) → t1 = t2).





(** The positions of the targets whose call was sent. *)
Definition sent (targetChains : list Chain) : list nat :=
  List.filter (λ index, bool_decide (addressable <$> targetChains !! index = Some true))
    (seq 0 (length targetChains)).


(** [hasRpc] and [hasContract]: the two environment variables a listener
    needs are set. *)
Definition hasRpc (env : Env) (chain : Chain) : bool :=
  truthy (env !! ChainListener.rpcEnvKey chain).
Definition hasContract (env : Env) (chain : Chain) : bool :=
  truthy (env !! ChainListener.contractEnvKey chain).

(** A query answer that sends the poll loop round again: [data.result]
    is there and its [proof] is falsy. *)
Definition notReady (a : Outcome (option (option string))) : bool :=
  match a with
  | Returns (Some proof) => negb (truthy proof)
  | _ => false
  end.

(** [n] rounds of the poll loop that found nothing. *)
Definition rounds (jobId : option string) (n : nat) : list Event :=
  mjoin (replicate n [QueryProof jobId; Sleep 500]).

(** The number of proof queries among some events. *)
Definition polls (evs : list Event) : nat :=
  length (List.filter (λ ev, match ev with QueryProof _ => true | _ => false end) evs).

(** *** start() and stop() *)

(** [await listener.start()]: the two segments of the listener's
    [start], run to the end on the block number the node answers; the
    listener after, what the call settles with, and what it did. *)
Definition listener_start (l : ChainListener.t) (a : Outcome Z)
  : ChainListener.t * Outcome unit * list ChainListener.Event :=
  let s := ChainListener.start_call (ChainListener.boot l) in
  match ChainListener.pending s !! 0%nat with
  | None => (ChainListener.self s, Returns (), ChainListener.trace s)
  | Some _ =>
      let s' := ChainListener.start_resume s 0 a in
      (ChainListener.self s',
       match a with Throws e => Throws e | Returns _ => Returns () end,
       ChainListener.trace s')
  end.

(** [await listener.stop()], likewise. *)
Definition listener_stop (l : ChainListener.t) (a : Outcome unit)
  : ChainListener.t * Outcome unit * list ChainListener.Event :=
  let s := ChainListener.stop_call (ChainListener.boot l) in
  match ChainListener.pending s !! 0%nat with
  | None => (ChainListener.self s, Returns (), ChainListener.trace s)
  | Some _ =>
      let s' := ChainListener.stop_resume s 0 a in
      (ChainListener.self s', a, ChainListener.trace s')
  end.

(** [for (const listener of this.listeners.values()) await
    listener.f()], where [order] lists the keys of [this.listeners] as the
    Map iterates them and [answer] is what the chain of each listener
    answers; a rejection ends the loop. *)
Fixpoint each_listener {A} (f : ChainListener.t → A →
                                ChainListener.t * Outcome unit * list ChainListener.Event)
    (order : list Z) (listeners : gmap Z ChainListener.t) (answer : Z → A)
  : gmap Z ChainListener.t * Outcome unit * list (Z * ChainListener.Event) :=
  match order with
  | [] => (listeners, Returns (), [])
  | k :: order =>
      match listeners !! k with
      | None => each_listener f order listeners answer
      | Some listener =>
          let '(listener', settled, evs) := f listener (answer k) in
          let listeners := <[k := listener']> listeners in
          match settled with
          | Throws e => (listeners, Throws e, (λ ev, (k, ev)) <$> evs)
          | Returns _ =>
              let '(listeners, settled, evs') := each_listener f order listeners answer in
              (listeners, settled, ((λ ev, (k, ev)) <$> evs) ++ evs')
          end
      end
  end.

(** [start()] *)
Definition start (r : t) (order : list Z) (blockNumber : Z → Outcome Z)
  : t * Outcome unit * list (Z * ChainListener.Event) :=
  let '(listeners, settled, evs) :=
    each_listener listener_start order (listeners r) blockNumber in
  (set_listeners r listeners, settled, evs).

(** [stop()] *)
Definition stop (r : t) (order : list Z) (removed : Z → Outcome unit)
  : t * Outcome unit * list (Z * ChainListener.Event) :=
  let '(listeners, settled, evs) :=
    each_listener listener_stop order (listeners r) removed in
  (set_listeners r listeners, settled, evs).

(** [order] lists the keys of the listeners, each once. *)
Definition iterates (order : list Z) (r : t) : Prop :=
  NoDup order ∧ ∀ k, k ∈ order ↔ is_Some (listeners r !! k).


End Relayer.

(** ** contracts/invoiceIDBatcher.sol

    The contract every [updateChain] calls.  An address is the integer of
    its 160 bits, a [bytes32] the integer of its 256 bits; a transaction
    is a function from the state to the new state and the logs, or to a
    revert, which leaves the state as it was. *)

Module InvoiceIDBatcher.

Abbreviation bytes := (list Byte.byte).

(** The unsigned integer some bytes spell, most significant first. *)
Definition be (bs : bytes) : Z :=
  foldl (λ acc b, acc * 256 + Z.of_N (Byte.to_N b)) 0 bs.

(** [mload(p)], where memory holds [bs] from [p] on and zeroes after. *)
Definition mload (bs : bytes) : Z :=
  be (take 32 (bs ++ replicate 32 Byte.x00)).

(** [address(uint160(uint256(w)))] *)
Definition to_address (w : Z) : Z := w mod 2 ^ 160.

Record State := mkState {
  polymerProver : Z;
  admin : Z;
  pendingInvoices : list Z;
  usedProofHashes : gmap Z bool;
  trustedSourceContracts : gmap Z Z
}.

(** Reading the two mappings: an absent key reads the zero value. *)
Definition used (st : State) (proofHash : Z) : bool :=
  default false (usedProofHashes st !! proofHash).
Definition trusted (st : State) (chainId : Z) : Z :=
  default 0 (trustedSourceContracts st !! chainId).

Inductive Log :=
| NewInvoice (sender : Z) (invoiceHash : Z)
| InvoiceBatch (sender : Z) (invoices : list Z)
| InvoiceReceived (originalSender : Z) (invoiceHash : Z).

(** [reason] is the string of the failing [require], or the one a revert
    of the prover carries; [None] for a revert without one (a panic, a
    failed decoding). *)
Inductive Result :=
| Success (st : State) (logs : list Log)
| Reverted (reason : option string).

(** [constructor(_polymerProver)], sent by [sender]. *)
Definition constructor (_polymerProver : Z) (sender : Z) : State :=
  mkState _polymerProver sender [] ∅ ∅.

(** [setTrustedSourceContract(chainId, sourceContract)] on the chain
    [chainid], sent by [sender].  The decoder of the arguments reverts on
    a word that is no [uint32], or no [address], before the body runs. *)
Definition setTrustedSourceContract (chainid sender : Z) (st : State)
    (chainId sourceContract : Z) : Result :=
  if negb ((0 <=? chainId) && (chainId <? 2 ^ 32)
           && (0 <=? sourceContract) && (sourceContract <? 2 ^ 160)) then
    Reverted None
  else if negb (sender =? admin st) then
    Reverted (Some "Only admin can set trusted sources")
  else if negb (negb (chainId =? chainid)) then
    Reverted (Some "Cannot set source for current chain")
  else if negb (negb (sourceContract =? 0)) then
    Reverted (Some "Invalid source contract address")
  else
    Success (mkState (polymerProver st) (admin st) (pendingInvoices st)
               (usedProofHashes st)
               (<[chainId := sourceContract]> (trustedSourceContracts st)))
            [].

(** [newInvoice(invoiceHash)] *)
Definition newInvoice (sender : Z) (st : State) (invoiceHash : Z) : Result :=
  if negb (negb (invoiceHash =? 0)) then Reverted (Some "Invalid invoice hash")
  else
    Success (mkState (polymerProver st) (admin st)
               (pendingInvoices st ++ [invoiceHash])
               (usedProofHashes st) (trustedSourceContracts st))
            [NewInvoice sender invoiceHash].

(** The copy loop of [batchInvoices], over the indices still to do; an
    index out of range panics ([None]). *)
Fixpoint copy (pendingInvoices : list Z) (todo : list nat) (currentBatch : list Z)
  : option (list Z) :=
  match todo with
  | [] => Some currentBatch
  | i :: todo =>
      match pendingInvoices !! i with
      | Some invoice =>
          if decide (i < length currentBatch)%nat then
            copy pendingInvoices todo (<[i := invoice]> currentBatch)
          else None
      | None => None
      end
  end.

(** [batchInvoices()] *)
Definition batchInvoices (sender : Z) (st : State) : Result :=
  if negb (0 <? length (pendingInvoices st))%nat then
    Reverted (Some "No pending invoices")
  else
    match copy (pendingInvoices st) (seq 0 (length (pendingInvoices st)))
               (replicate (length (pendingInvoices st)) 0) with
    | None => Reverted None
    | Some currentBatch =>
        Success (mkState (polymerProver st) (admin st) []
                   (usedProofHashes st) (trustedSourceContracts st))
                [InvoiceBatch sender currentBatch]
    end.

(** [getPendingInvoicesCount()] *)
Definition getPendingInvoicesCount (st : State) : Z :=
  Z.of_nat (length (pendingInvoices st)).

(** What [polymerProver.validateEvent(proof)] answers: the call reverts,
    and its revert data is passed on, or it returns. *)
Record Validated := mkValidated {
  sourceChainId : Z;
  sourceContract : Z;
  topics : bytes;
  data : bytes
}.
Inductive ProverAnswer :=
| ProverReverts (reason : option string)
| Validates (v : Validated).

Section WithEVM.

(** [keccak256], and [abi.decode(data, (bytes32[]))], which reverts
    ([None]) on data that is no encoding of an array. *)
Variable keccak256 : bytes → Z.
Variable abi_decode : bytes → option (list Z).

(** [invoicesFromSource(proof)].  The decoder of the prover's answer
    reverts on a word that is no [uint32], or no [address].  The assembly
    block loads the word 32 bytes into the contents of [topics], wherever
    these end: [slack] is the memory that follows them, and where [topics]
    is shorter than 64 bytes the load runs into it. *)
Definition invoicesFromSource (chainid : Z) (st : State) (proof : bytes)
    (answer : ProverAnswer) (slack : bytes) : Result :=
  match answer with
  | ProverReverts reason => Reverted reason
  | Validates v =>
      if negb ((0 <=? sourceChainId v) && (sourceChainId v <? 2 ^ 32)
               && (0 <=? sourceContract v) && (sourceContract v <? 2 ^ 160)) then
        Reverted None
      else if negb (negb (sourceChainId v =? chainid)) then
        Reverted (Some "Cannot process events from same chain")
      else if negb (negb (trusted st (sourceChainId v) =? 0)) then
        Reverted (Some "Chain not trusted")
      else if negb (sourceContract v =? trusted st (sourceChainId v)) then
        Reverted (Some "Invalid source contract")
      else
        let proofHash := keccak256 proof in
        if negb (negb (used st proofHash)) then Reverted (Some "Proof already used")
        else
          match abi_decode (data v) with
          | None => Reverted None
          | Some invoices =>
              let topicsArray := <[0%nat := mload (drop 32 (topics v ++ slack))]> [0; 0] in
              let sender := to_address (default 0 (topicsArray !! 0%nat)) in
              Success (mkState (polymerProver st) (admin st) (pendingInvoices st)
                         (<[proofHash := true]> (usedProofHashes st))
                         (trustedSourceContracts st))
                      ((λ invoice, InvoiceReceived sender invoice) <$> invoices)
          end
  end.

(** A transaction to the contract. *)
Inductive Tx :=
| SetTrustedSourceContract (chainId : Z) (sourceContract : Z)
| NewInvoiceTx (invoiceHash : Z)
| BatchInvoices
| InvoicesFromSource (proof : bytes) (answer : ProverAnswer) (slack : bytes).

Definition exec (chainid : Z) (st : State) (sender : Z) (tx : Tx) : Result :=
  match tx with
  | SetTrustedSourceContract chainId sourceContract =>
      setTrustedSourceContract chainid sender st chainId sourceContract
  | NewInvoiceTx invoiceHash => newInvoice sender st invoiceHash
  | BatchInvoices => batchInvoices sender st
  | InvoicesFromSource proof answer slack =>
      invoicesFromSource chainid st proof answer slack
  end.

(** The chain's history: transactions in order, each with its sender; a
    reverted one changes nothing and logs nothing. *)
Fixpoint history (chainid : Z) (st : State) (txs : list (Z * Tx)) : State * list Log :=
  match txs with
  | [] => (st, [])
  | (sender, tx) :: txs =>
      match exec chainid st sender tx with
      | Success st' logs =>
          let '(st'', logs') := history chainid st' txs in (st'', logs ++ logs')
      | Reverted _ => history chainid st txs
      end
  end.

End WithEVM.

(** The hashes announced by [NewInvoice] logs, and the hashes carried by
    [InvoiceBatch] logs, in the order of the logs. *)
Definition announced (logs : list Log) : list Z :=
  omap (λ log, match log with NewInvoice _ h => Some h | _ => None end) logs.
Definition batched (logs : list Log) : list Z :=
  concat (omap (λ log, match log with InvoiceBatch _ hs => Some hs | _ => None end) logs).

End InvoiceIDBatcher.

(** ** scripts/deployV2.js

    The deployment script, a caller of [config/chains.js].  [updateEnvFile]
    rewrites the [.env] file; here it is the event [UpdateEnvFile] and the
    outcome of the write. *)

Module Deploy.

(** [toLowerCase] and [replace(' ', '-')] (the first occurrence only), on
    ASCII text: the script applies them to the names and prefixes of
    [CHAINS]. *)
Definition lower (c : ascii) : ascii :=
  let n := nat_of_ascii c in
  if ((65 <=? n) && (n <=? 90))%nat then ascii_of_nat (n + 32) else c.
Fixpoint toLowerCase (s : string) : string :=
  match s with
  | EmptyString => EmptyString
  | String c s => String (lower c) (toLowerCase s)
  end.
Fixpoint replace_first (a b : ascii) (s : string) : string :=
  match s with
  | EmptyString => EmptyString
  | String c s' => if Ascii.eqb c a then String b s' else String c (replace_first a b s')
  end.

(** The callback of [find] in [main()]; reading [toLowerCase] of a
    missing [envPrefix] throws. *)
Definition matches (networkName : string) (c : Chain) : Outcome bool :=
  if String.eqb (replace_first " " "-" (toLowerCase (name c))) networkName then
    Returns true
  else
    match envPrefix c with
    | None => Throws (TypeError "undefined" "toLowerCase")
    | Some envPrefix => Returns (String.eqb networkName (toLowerCase envPrefix))
    end.

(** [Array.prototype.find] with a callback that may throw. *)
Fixpoint find {A} (p : A → Outcome bool) (l : list A) : Outcome (option A) :=
  match l with
  | [] => Returns None
  | x :: l =>
      match p x with
      | Throws e => Throws e
      | Returns true => Returns (Some x)
      | Returns false => find p l
      end
  end.

(** [Object.values(CHAINS).find(...)] *)
Definition findChain (env : Env) (networkName : string) : Outcome (option Chain) :=
  find (matches networkName) (CHAINS_entries env).*2.

(** A mined transaction: whether [receipt.status] is truthy, and its
    block. *)
Record Mined := mkMined {
  status : bool;
  blockNumber : Z
}.

(** What hardhat, the network and the file system answer during one
    deployment: the contract factory, the deployment (the hash of its
    transaction, or [None] where [deploymentTransaction()] is null), the
    [i]-th receipt lookup, the block number, the deployed address, and
    the write of [.env]. *)
Record Network := mkNetwork {
  factory : Outcome unit;
  deployed : Outcome (option string);
  receiptAt : nat → Outcome (option Mined);
  currentBlock : Outcome Z;
  address : Outcome string;
  envWritten : Outcome unit
}.

Inductive Event :=
| GetContractFactory
| DeployContract (polymerProverAddress : string) (gasLimit : Z)
| GetTransactionReceipt (hash : string)
| Sleep (ms : Z)
| GetBlockNumber
| GetAddress
| UpdateEnvFile (key : string) (value : string)
| LogDeploymentError (msg : string)
| LogError (e : Error).

(** A computation that emits events and returns or throws. *)
Definition Act (A : Type) : Type := list Event * Outcome A.

Definition ret {A} (a : A) : Act A := ([], Returns a).
Definition throw {A} (e : Error) : Act A := ([], Throws e).
Definition bind {A B} (m : Act A) (k : A → Act B) : Act B :=
  match m with
  | (evs, Returns a) => let '(evs', b) := k a in (evs ++ evs', b)
  | (evs, Throws e) => (evs, Throws e)
  end.
Definition await {A} (ev : Event) (a : Outcome A) : Act A := ([ev], a).

Notation "'let*' x ':=' m 'in' k" := (bind m (λ x, k))
  (at level 10, x name, m at level 100, k at level 200, only parsing).

(** The [for (let i = 0; i < 30; i++)] loop of [deployToChain]: the
    receipt it leaves in [receipt].  [None]: out of fuel. *)
Fixpoint pollReceipt (fuel : nat) (w : Network) (hash : string) (i : nat)
  : option (Act (option Mined)) :=
  match fuel with
  | O => None
  | S fuel =>
      if decide (i < 30)%nat then
        match receiptAt w i with
        | Throws e => Some (await (GetTransactionReceipt hash) (Throws e))
        | Returns (Some receipt) =>
            Some ([GetTransactionReceipt hash], Returns (Some receipt))
        | Returns None =>
            match pollReceipt fuel w hash (S i) with
            | None => None
            | Some (evs, r) =>
                Some ([GetTransactionReceipt hash; Sleep 10000] ++ evs, r)
            end
        end
      else Some (ret None)
  end.

(** [deployToChain] up to its [try]: the hash of the deployment
    transaction. *)
Definition sendDeployment (polymerProverAddress : string) (w : Network) : Act string :=
  let* InvoiceBatcher := await GetContractFactory (factory w) in
  let* deploymentTx := await (DeployContract polymerProverAddress 3000000) (deployed w) in
  match deploymentTx with
  | None => throw (mkError "Deployment transaction failed to create")
  | Some hash => ret hash
  end.

(** The [try] block of [deployToChain] after the loop. *)
Definition confirmDeployment (chainConfig : Chain) (w : Network)
    (receipt : option Mined) : Act string :=
  match receipt with
  | None => throw (mkError "Failed to get transaction receipt after 5 minutes")
  | Some receipt =>
      let* currentBlock := await GetBlockNumber (currentBlock w) in
      if negb (status receipt) then throw (mkError "Transaction failed")
      else
        let* invoiceBatcherAddress := await GetAddress (address w) in
        let envKey := tpl (envPrefix chainConfig) +:+ "_INVOICEBATCHER_ADDRESS" in
        let* written := await (UpdateEnvFile envKey invoiceBatcherAddress) (envWritten w) in
        ret invoiceBatcherAddress
  end.

(** The [catch] of [deployToChain]: log the message and rethrow. *)
Definition logAndRethrow {A} (m : Act A) : Act A :=
  match m with
  | (evs, Throws error) => (evs ++ [LogDeploymentError (message error)], Throws error)
  | _ => m
  end.

(** [deployToChain(chainConfig, networkName)]: the deployed address. *)
Definition deployToChain (fuel : nat) (chainConfig : Chain) (w : Network)
  : option (Act string) :=
  let polymerProverAddress := proverAddress chainConfig in
  if negb (truthy polymerProverAddress) then
    Some (throw (mkError ("No Polymer Prover address found for " +:+ name chainConfig)))
  else
    match sendDeployment (tpl polymerProverAddress) w with
    | (evs, Throws e) => Some (evs, Throws e)
    | (evs, Returns hash) =>
        match pollReceipt fuel w hash 0 with
        | None => None
        | Some polled =>
            let '(evs', r) :=
              logAndRethrow (let* receipt := polled in
                             confirmDeployment chainConfig w receipt) in
            Some (evs ++ evs', r)
        end
    end.

(** One more than the number of attempts. *)
Definition poll_fuel : nat := 31.

(** [main()] and the two handlers installed on it, preceded by the
    start-up check of [config/chains.js]: the events of the script and
    the exit status of the process.  [setup] stands for
    [setupTrustedSources(deployments)] followed by
    [verifySetup(deployments)]. *)
Definition main (env : Env) (networkName : string) (w : Network)
    (setup : list (Chain * string) → Act unit) : option (list Event * Z) :=
  if negb (truthy (env !! "ACTIVATED_CHAINS")) then Some ([], 1)
  else
    match findChain env networkName with
    | Throws e => Some ([LogError e], 1)
    | Returns None =>
        Some ([LogError (mkError ("Network " +:+ networkName
                                  +:+ " not found in chain configurations"))], 1)
    | Returns (Some chain) =>
        match deployToChain poll_fuel chain w with
        | None => None
        | Some (evs, Throws e) => Some (evs ++ [LogError e], 1)
        | Some (evs, Returns address) =>
            let deployments := [] ++ [(chain, address)] in
            if decide (1 < length deployments)%nat then
              match setup deployments with
              | (evs', Throws e) => Some (evs ++ evs' ++ [LogError e], 1)
              | (evs', Returns _) => Some (evs ++ evs', 0)
              end
            else Some (evs, 0)
        end
    end.

(** The receipt lookups among some events, and whether an event reaches
    out of the process (hardhat, the network, the [.env] file). *)
Definition lookups (evs : list Event) : nat :=
  length (List.filter (λ ev, match ev with GetTransactionReceipt _ => true | _ => false end) evs).
Definition outward (ev : Event) : bool :=
  match ev with
  | LogDeploymentError _ | LogError _ => false
  | _ => true
  end.

End Deploy.

(** ** scripts/setupTrustedSources.js

    The script that makes every deployed contract trust the contracts of
    the other enabled chains.  The wallet, the reads of
    [trustedSourceContracts] and the transactions are answered from
    outside; a pair of deployments is named by its two positions in the
    list, since a chain listed twice is visited twice. *)

Module TrustSetup.

Record Deployment := mkDeployment {
  chainConfig : Chain;
  address : option string
}.

(** [getEnabledChains().map(chain => ({chainConfig, address}))] *)
Definition deployments (env : Env) : list Deployment :=
  (λ chain, mkDeployment chain (env !! ChainListener.contractEnvKey chain))
    <$> getEnabledChains env.

(** The loop that validates the addresses; it returns the deployments
    with their addresses, now known to be strings. *)
Fixpoint validate (ds : list Deployment) : Outcome (list (Chain * string)) :=
  match ds with
  | [] => Returns []
  | deployment :: ds =>
      if negb (truthy (address deployment)) then
        Throws (mkError ("Missing contract address for "
                         +:+ name (chainConfig deployment) +:+ " in .env"))
      else
        match validate ds with
        | Throws e => Throws e
        | Returns ds => Returns ((chainConfig deployment, tpl (address deployment)) :: ds)
        end
  end.

(** What [setTrustedSourceContract] followed by [tx.wait(1)] comes to:
    the send is rejected, the wait is rejected, or a receipt with a truthy
    or falsy [status]. *)
Inductive Submission :=
| SendFails (e : Error)
| WaitFails (e : Error)
| Mined (status : bool).

(** The answers from outside: the construction of provider, wallet and
    contract, the [k]-th read of the trusted source for the pair at
    positions [i] and [j], and the transaction for that pair. *)
Record Network := mkNetwork {
  wallet : Outcome unit;
  trusted : nat → nat → nat → Outcome string;
  submitted : nat → nat → Submission
}.

Inductive Event :=
| Connect (rpc : option string) (address : string)
| ReadTrusted (source : Z) (chainId : Z)
| SetTrusted (source : Z) (chainId : Z) (address : string)
| WaitConfirmation (source : Z) (chainId : Z)
| LogFailure (msg : string)
| LogError (e : Error).

(** A computation that emits events and returns or throws. *)
Definition Act (A : Type) : Type := list Event * Outcome A.

Definition ret {A} (a : A) : Act A := ([], Returns a).
Definition throw {A} (e : Error) : Act A := ([], Throws e).
Definition bind {A B} (m : Act A) (k : A → Act B) : Act B :=
  match m with
  | (evs, Returns a) => let '(evs', b) := k a in (evs ++ evs', b)
  | (evs, Throws e) => (evs, Throws e)
  end.
Definition await {A} (ev : Event) (a : Outcome A) : Act A := ([ev], a).

Notation "'let*' x ':=' m 'in' k" := (bind m (λ x, k))
  (at level 10, x name, m at level 100, k at level 200, only parsing).

(** The [catch] around one pair: log the message and rethrow. *)
Definition logAndRethrow {A} (m : Act A) : Act A :=
  match m with
  | (evs, Throws error) => (evs ++ [LogFailure (message error)], Throws error)
  | _ => m
  end.

Section WithStrings.

(** [String.prototype.toLowerCase] *)
Variable toLowerCase : string → string.

(** [a.toLowerCase() === b.toLowerCase()] *)
Definition sameAddress (a b : string) : bool :=
  String.eqb (toLowerCase a) (toLowerCase b).

(** The [try] block for the pair at positions [i] and [j]. *)
Definition trust (w : Network) (i j : nat) (source target : Chain * string) : Act unit :=
  logAndRethrow
    (let* currentTrusted :=
       await (ReadTrusted (chainId source.1) (chainId target.1)) (trusted w i j 0) in
     if sameAddress currentTrusted target.2 then ret tt
     else
       let* receipt :=
         match submitted w i j with
         | SendFails e =>
             await (SetTrusted (chainId source.1) (chainId target.1) target.2) (Throws e)
         | WaitFails e =>
             ([SetTrusted (chainId source.1) (chainId target.1) target.2;
               WaitConfirmation (chainId source.1) (chainId target.1)], Throws e)
         | Mined status =>
             ([SetTrusted (chainId source.1) (chainId target.1) target.2;
               WaitConfirmation (chainId source.1) (chainId target.1)], Returns status)
         end in
       if negb receipt then throw (mkError "Transaction failed")
       else
         let* newTrusted :=
           await (ReadTrusted (chainId source.1) (chainId target.1)) (trusted w i j 1) in
         if negb (sameAddress newTrusted target.2) then
           throw (mkError "Verification failed - new value doesn't match expected")
         else ret tt).

(** [for (const target of deployments)], from position [j] on. *)
Fixpoint targets (w : Network) (i : nat) (source : Chain * string) (j : nat)
    (ts : list (Chain * string)) : Act unit :=
  match ts with
  | [] => ret tt
  | target :: ts =>
      if decide (chainId source.1 = chainId target.1) then targets w i source (S j) ts
      else
        let* configured := trust w i j source target in
        targets w i source (S j) ts
  end.

(** [for (const source of deployments)], from position [i] on. *)
Fixpoint sources (w : Network) (all : list (Chain * string)) (i : nat)
    (ss : list (Chain * string)) : Act unit :=
  match ss with
  | [] => ret tt
  | source :: ss =>
      let* sourceContract := await (Connect (rpc source.1) source.2) (wallet w) in
      let* configured := targets w i source 0 all in
      sources w all (S i) ss
  end.

(** [setupTrustedSources()] *)
Definition setupTrustedSources (env : Env) (w : Network) : Act unit :=
  match validate (deployments env) with
  | Throws e => throw e
  | Returns ds => sources w ds 0 ds
  end.

(** The script: the start-up check of [config/chains.js], then
    [setupTrustedSources()] with the two handlers installed on it; the
    events and the exit status. *)
Definition script (env : Env) (w : Network) : list Event * Z :=
  if negb (truthy (env !! "ACTIVATED_CHAINS")) then ([], 1)
  else
    match setupTrustedSources env w with
    | (evs, Returns _) => (evs, 0)
    | (evs, Throws e) => (evs ++ [LogError e], 1)
    end.

End WithStrings.

(** No failure of a pair is logged among some events; and a computation
    that logs such a failure logs it last, once, and throws it. *)
Definition quiet (evs : list Event) : Prop := ∀ msg, LogFailure msg ∉ evs.
Definition halts {A} (m : Act A) : Prop :=
  match m with
  | (evs, Returns _) => quiet evs
  | (evs, Throws e) =>
      quiet evs ∨ ∃ evs', evs = evs' ++ [LogFailure (message e)] ∧ quiet evs'
  end.

End TrustSetup.

(** ** scripts/sendInvoices.js

    The script that sends invoices to one chain.  What the prompts
    resolve with is given: the chain chosen among the enabled ones, the
    invoice ids entered in the rounds of the first loop, and the two
    confirmations.  The provider and the contract object are built
    without a call to the chain; [Connect] marks the point where they
    exist. *)

Module SendInvoices.

Record Answers := mkAnswers {
  chain : Chain;
  invoiceIds : list string;
  autoBatch : bool;
  proceed : bool
}.

(** A transaction followed by [wait()]: the send is rejected, the wait is
    rejected, or a receipt. *)
Inductive Submission :=
| SendFails (e : Error)
| WaitFails (e : Error)
| Mined.

(** The answers from outside: the wallet built from [PRIVATE_KEY], the
    [k]-th call of [getPendingInvoicesCount], and for the invoice at
    position [i] the gas estimate and the transaction; then the batch
    transaction. *)
Record Network := mkNetwork {
  wallet : Outcome unit;
  pendingCount : nat → Outcome Z;
  estimatedGas : nat → Outcome Z;
  invoiceTx : nat → Submission;
  batchTx : Submission
}.

Inductive Event :=
| Connect (rpc : string) (contractAddress : string)
| GetPendingInvoicesCount
| EstimateGas (invoiceHash : string)
| NewInvoice (invoiceHash : string) (gasLimit : Z)
| BatchInvoices (gasLimit : Z)
| Wait
| Sleep (ms : Z)
| LogError (msg : string).

(** A computation that emits events and returns or throws. *)
Definition Act (A : Type) : Type := list Event * Outcome A.

Definition ret {A} (a : A) : Act A := ([], Returns a).
Definition throw {A} (e : Error) : Act A := ([], Throws e).
Definition bind {A B} (m : Act A) (k : A → Act B) : Act B :=
  match m with
  | (evs, Returns a) => let '(evs', b) := k a in (evs ++ evs', b)
  | (evs, Throws e) => (evs, Throws e)
  end.
Definition await {A} (ev : Event) (a : Outcome A) : Act A := ([ev], a).

Notation "'let*' x ':=' m 'in' k" := (bind m (λ x, k))
  (at level 10, x name, m at level 100, k at level 200, only parsing).

(** [const tx = await contract.f(...); await tx.wait()] *)
Definition submit (ev : Event) (s : Submission) : Act unit :=
  match s with
  | SendFails e => ([ev], Throws e)
  | WaitFails e => ([ev; Wait], Throws e)
  | Mined => ([ev; Wait], Returns tt)
  end.

(** [for (let i = 0; i < invoices.length; i++)], from position [i] on,
    over the hashes of the invoices left. *)
Fixpoint sendAll (w : Network) (i : nat) (invoices : list string) : Act unit :=
  match invoices with
  | [] => ret tt
  | hash :: invoices =>
      let* estimatedGas := await (EstimateGas hash) (estimatedGas w i) in
      let* receipt := submit (NewInvoice hash estimatedGas) (invoiceTx w i) in
      let* slept :=
        match invoices with
        | [] => ret tt
        | _ => await (Sleep 1000) (Returns tt)
        end in
      sendAll w (S i) invoices
  end.

Section WithEthers.

(** [id => ethers.keccak256(ethers.toUtf8Bytes(id))] *)
Variable hashOf : string → string.

(** The [try] block of [main()]. *)
Definition transact (env : Env) (answers : Answers) (w : Network) : Act unit :=
  let rpcEnvKey := tpl (envPrefix (chain answers)) +:+ "_RPC" in
  let rpc := env !! rpcEnvKey in
  if negb (truthy rpc) then
    throw (mkError ("No RPC found in environment for chain " +:+ name (chain answers)
                    +:+ " (" +:+ rpcEnvKey +:+ ")"))
  else
    let contractEnvKey := tpl (envPrefix (chain answers)) +:+ "_INVOICEBATCHER_ADDRESS" in
    let contractAddress := env !! contractEnvKey in
    if negb (truthy contractAddress) then
      throw (mkError ("No invoice batcher address found in environment for chain "
                      +:+ name (chain answers) +:+ " (" +:+ contractEnvKey +:+ ")"))
    else
      let* initialPendingCount :=
        ([Connect (tpl rpc) (tpl contractAddress); GetPendingInvoicesCount],
         pendingCount w 0) in
      let* sent := sendAll w 0 (hashOf <$> invoiceIds answers) in
      let* finalPendingCount := await GetPendingInvoicesCount (pendingCount w 1) in
      if autoBatch answers && (0 <? finalPendingCount) then
        let* batchReceipt := submit (BatchInvoices 500000) (batchTx w) in
        let* afterBatchCount := await GetPendingInvoicesCount (pendingCount w 2) in
        ret tt
      else ret tt.

(** [main()]: whether its promise resolves, and what it did. *)
Definition main (env : Env) (answers : Answers) (w : Network) : Act unit :=
  let* wallet := (([], wallet w) : Act unit) in
  if decide (getEnabledChains env = []) then ret tt
  else if negb (proceed answers) then ret tt
  else
    match transact env answers w with
    | (evs, Throws error) => (evs ++ [LogError (message error)], Returns tt)
    | (evs, Returns _) => (evs, Returns tt)
    end.

End WithEthers.

(** The hashes sent with [newInvoice], in order, and the pauses. *)
Definition sentHashes (evs : list Event) : list string :=
  omap (λ ev, match ev with NewInvoice invoiceHash _ => Some invoiceHash | _ => None end) evs.
Definition sleeps (evs : list Event) : nat :=
  length (List.filter (λ ev, match ev with Sleep _ => true | _ => false end) evs).

End SendInvoices.

(** ** A concrete deployment, for examples

    Three activated chains; Base Sepolia has no batcher address. *)

Module Fixture.

Definition env : Env :=
  list_to_map
    [ ("ACTIVATED_CHAINS", "optimism-sepolia,base-sepolia,arbitrum-sepolia");
      ("OPTIMISM_SEPOLIA_RPC", "https://optimism.example");
      ("ARBITRUM_SEPOLIA_RPC", "https://arbitrum.example");
      ("BASE_SEPOLIA_RPC", "https://base.example");
      ("POLYMER_PROVER_OPTIMISM_TESTNET_CONTRACT_ADDRESS", "0xp1");
      ("POLYMER_PROVER_ARBITRUM_TESTNET_CONTRACT_ADDRESS", "0xp2");
      ("POLYMER_PROVER_BASE_TESTNET_CONTRACT_ADDRESS", "0xp3");
      ("OPTIMISM_SEPOLIA_INVOICEBATCHER_ADDRESS", "0xb1");
      ("ARBITRUM_SEPOLIA_INVOICEBATCHER_ADDRESS", "0xb2") ].

Definition optimism : Chain :=
  mkChain "Optimism Sepolia" 11155420 (Some "OPTIMISM_SEPOLIA")
    (Some "0xb1") (Some "https://optimism.example") (Some "0xp1").
Definition base : Chain :=
  mkChain "Base Sepolia" 84532 (Some "BASE_SEPOLIA")
    None (Some "https://base.example") (Some "0xp3").
Definition arbitrum : Chain :=
  mkChain "Arbitrum Sepolia" 421614 (Some "ARBITRUM_SEPOLIA")
    (Some "0xb2") (Some "https://arbitrum.example") (Some "0xp2").


(** The Optimism listener, as constructed and once started. *)
Definition listener : ChainListener.t :=
  ChainListener.mk optimism "0xb1" 0 false ∅.
Definition listening : ChainListener.Sys :=
  ChainListener.mkSys (ChainListener.mk optimism "0xb1" 1 true ∅) ∅ 1
    [ChainListener.GetBlockNumber; ChainListener.Subscribed].

Definition log : Log.t := Log.mk "0xblock" "0xtx" 2 1000.
Definition eventData : EventData.t :=
  EventData.mk optimism "0xAA" ["h1"; "h2"] 1000 "0xtx" 2 (Some 5).
Definition txReceipt (topic : string) : Receipt.t :=
  Receipt.mk 5 [[]; [topic; "0xAA"]; [topic; "0xAA"]].

(** Stand-ins for [ethers.id] and for the error with which ethers refuses
    a contract target that is no string (the words its message starts
    with). *)
Definition id (signature : string) : string := "keccak256:" +:+ signature.
Definition invalidTarget : Error := mkError "invalid value for Contract target".

(** A proof service whose third query carries the proof. *)
Definition service : Relayer.ProofService :=
  Relayer.mkProofService
    (Returns (Some (txReceipt (id "InvoiceBatch(address,bytes32[])"))))
    (Returns (200, Some "job-1"))
    (λ k, Returns (Some (if decide (k = 2%nat) then Some "cHJvb2Y=" else None)))
    (λ k, "1.50").


(** A network on which the deployment is mined at the third lookup, and
    one on which it never is. *)
Definition network : Deploy.Network :=
  Deploy.mkNetwork (Returns tt) (Returns (Some "0xdeploy"))
    (λ i, if decide (i < 2)%nat then Returns None
          else Returns (Some (Deploy.mkMined true 7)))
    (Returns 8) (Returns "0xnew") (Returns tt).
Definition stalled : Deploy.Network :=
  Deploy.mkNetwork (Returns tt) (Returns (Some "0xdeploy"))
    (λ i, Returns None) (Returns 8) (Returns "0xnew") (Returns tt).

(** The environment once Base is deployed too, and two networks for the
    trusted-source script: one where no contract trusts anything yet and
    every transaction is mined, and one that rejects every transaction.
    The enabled chains are Optimism, Base and Arbitrum, in this order. *)
Definition deployed : Env :=
  <["BASE_SEPOLIA_INVOICEBATCHER_ADDRESS" := "0xb3"]> env.
Definition fresh : TrustSetup.Network :=
  TrustSetup.mkNetwork (Returns tt)
    (λ i j k, match k with
              | O => Returns "0x00"
              | _ => Returns (nth j ["0XB1"; "0XB3"; "0XB2"] "0x00")
              end)
    (λ i j, TrustSetup.Mined true).
Definition rejecting : TrustSetup.Network :=
  TrustSetup.mkNetwork (Returns tt)
    (λ i j k, Returns "0x00")
    (λ i j, TrustSetup.SendFails (mkError "nonce too low")).

(** Two invoices for Optimism, to be batched, and a chain that mines
    everything and counts two pending invoices after they are sent. *)
Definition answers : SendInvoices.Answers :=
  SendInvoices.mkAnswers optimism ["INV-1"; "INV-2"] true true.
Definition ledger : SendInvoices.Network :=
  SendInvoices.mkNetwork (Returns tt)
    (λ k, match k with 1%nat => Returns 2 | _ => Returns 0 end)
    (λ i, Returns 21000) (λ i, SendInvoices.Mined) SendInvoices.Mined.

End Fixture.

(** ** A deployed contract, for examples *)

Module Sample.
Import InvoiceIDBatcher.

(** Stand-ins for [keccak256] and [abi.decode]: the integer the bytes
    spell, and one invoice per byte. *)
Definition keccak256 (bs : bytes) : Z := be bs.
Definition abi_decode (bs : bytes) : option (list Z) :=
  Some ((λ b, Z.of_N (Byte.to_N b)) <$> bs).

(** A contract on chain 1, deployed by account 5 with prover 9, that
    trusts contract 777 on chain 10. *)
Definition chainid : Z := 1.
Definition configured : State :=
  (history keccak256 abi_decode chainid (constructor 9 5)
     [(5, SetTrustedSourceContract 10 777)]).1.

(** A relay of two invoices sent by account 42 on chain 10. *)
Definition topics64 : bytes :=
  replicate 32 Byte.x00 ++ replicate 31 Byte.x00 ++ [Byte.x2a].
Definition relay : Tx :=
  InvoicesFromSource [Byte.x01; Byte.x02]
    (Validates (mkValidated 10 777 topics64 [Byte.x07; Byte.x08])) [].

(** The relayer [init()] returns in the deployment of [Fixture]. *)
Definition initialized : Relayer.t :=
  Relayer.set_listeners (Relayer.new Fixture.env)
    (<[421614 := ChainListener.mk Fixture.arbitrum "0xb2" 0 false ∅]>
       (<[11155420 := ChainListener.mk Fixture.optimism "0xb1" 0 false ∅]> ∅)).

End Sample.

(** * Properties *)

(** ** Strings *)

(** Membership in a list that is written out: to prove, and to take
    apart. *)
Ltac member := repeat first [apply list_elem_of_here | apply list_elem_of_further].
Ltac members H :=
  repeat (apply elem_of_cons in H as [H|H]; [try discriminate|]);
  try (by apply elem_of_nil in H).

Lemma string_app_cons (x : ascii) (a b : string) :
  String x a +:+ b = String x (a +:+ b).
Proof. reflexivity. Qed.

Lemma string_app_assoc (a b c : string) : (a +:+ b) +:+ c = a +:+ b +:+ c.
Proof.
  induction a as [|x a IH]; [done|].
  by rewrite !string_app_cons, IH.
Qed.

Lemma string_app_nil_r (a : string) : a +:+ "" = a.
Proof.
  induction a as [|x a IH]; [done|].
  by rewrite string_app_cons, IH.
Qed.

Lemma includes_app_l (s sub post : string) :
  includes s sub → includes (s +:+ post) sub.
Proof.
  intros (pre & post' & ->). exists pre, (post' +:+ post).
  by rewrite !string_app_assoc.
Qed.

Lemma includes_app_r (pre s sub : string) :
  includes s sub → includes (pre +:+ s) sub.
Proof.
  intros (pre' & post & ->). exists (pre +:+ pre'), post.
  by rewrite !string_app_assoc.
Qed.



Lemma includes_refl (s : string) : includes s s.
Proof. exists "", "". simpl. by rewrite string_app_nil_r. Qed.

Create HintDb includes.
Global Hint Resolve includes_app_l includes_app_r includes_refl : includes.

(** ** ChainListener *)

Section ListenerFacts.
Import ChainListener.

Implicit Types (s : Sys) (l : t) (log : Log.t).

Lemma handler_call_known s sender invoices log :
  eventId log ∈ processedEvents (self s) →
  handler_call s sender invoices log = s.
Proof. intros Hin. unfold handler_call. by rewrite decide_True. Qed.

Lemma handler_call_new s sender invoices log :
  eventId log ∉ processedEvents (self s) →
  handler_call s sender invoices log
  = suspend s (self s)
      (HandlerAwaitsReceipt (eventId log)
         (EventData.mk (chain (self s)) sender invoices (Log.blockNumber log)
            (Log.transactionHash log) (Log.index log) None))
      [GetTransactionReceipt (Log.transactionHash log)].
Proof. intros Hin. unfold handler_call. by rewrite decide_False. Qed.

(** A job never removes an identity from the de-dup set. *)
Lemma step_processed_mono s i s' :
  step s i = Some s' → processedEvents (self s) ⊆ processedEvents (self s').
Proof.
  destruct i as [| |sender invoices log|tid a]; simpl.
  - intros [= <-]. unfold start_call. by destruct (isListening _).
  - intros [= <-]. unfold stop_call. by destruct (isListening _).
  - destruct (decide _); [done|]. intros [= <-].
    unfold handler_call. by destruct (decide _).
  - destruct (pending s !! tid) as [[]|], a as [[]|[]|[[]|]|[]]; intros [= <-];
      simpl; set_solver.
Qed.

Lemma run_processed_mono inputs : ∀ s s',
  run s inputs = Some s' → processedEvents (self s) ⊆ processedEvents (self s').
Proof.
  induction inputs as [|i inputs IH]; intros s s'; simpl.
  - by intros [= <-].
  - destruct (step s i) as [s1|] eqn:Hstep; [|done]. intros Hrun.
    etrans; [by eapply step_processed_mono|by eapply IH].
Qed.

End ListenerFacts.

Section ListenerClaims.
Import ChainListener.

Implicit Types (s : Sys) (l : t) (log : Log.t).

Example listener_boots :
  new Fixture.env Fixture.optimism = Returns Fixture.listener
  ∧ run (boot Fixture.listener) [CallStart; Resume 0 (BlockNumber (Returns 77))]
    = Some Fixture.listening.
Proof. split; vm_compute; reflexivity. Qed.

(** C9.  [start()] called on a listener that is listening changes nothing
    and registers no handler; [stop()] called on a listener that is not
    listening changes nothing; [stop()] called on a listening one issues
    [removeAllListeners()], after which no handler is registered and the
    listener is no longer listening. *)
Theorem listener_start_stop_idempotent s :
  (isListening (self s) = true → step s CallStart = Some s)
  ∧ (isListening (self s) = false → step s CallStop = Some s)
  ∧ (isListening (self s) = true →
     ∃ s1, step s CallStop = Some s1
       ∧ self s1 = self s
       ∧ trace s1 = trace s ++ [RemoveAllListeners]
       ∧ ∃ s2, step s1 (Resume (next s) (Removed (Returns ()))) = Some s2
           ∧ handlers (self s2) = 0%nat
           ∧ isListening (self s2) = false
           ∧ processedEvents (self s2) = processedEvents (self s)
           ∧ trace s2 = trace s1).
Proof.
  split_and!.
  - intros Hon. simpl. unfold start_call. by rewrite Hon.
  - intros Hoff. simpl. unfold stop_call. by rewrite Hoff.
  - intros Hon. eexists. split.
    { simpl. unfold stop_call. rewrite Hon. reflexivity. }
    split; [done|]. split; [done|].
    eexists. split.
    { simpl. rewrite lookup_insert_eq. reflexivity. }
    simpl. by rewrite app_nil_r.
Qed.

Lemma listener_start_stop_idempotent_witness :
  step Fixture.listening CallStart = Some Fixture.listening
  ∧ step (boot Fixture.listener) CallStop = Some (boot Fixture.listener)
  ∧ ∃ s1, step Fixture.listening CallStop = Some s1
      ∧ ∃ s2, step s1 (Resume 1 (Removed (Returns ()))) = Some s2
          ∧ handlers (self s2) = 0%nat.
Proof.
  destruct (listener_start_stop_idempotent Fixture.listening) as (H1 & _ & H3).
  destruct (listener_start_stop_idempotent (boot Fixture.listener)) as (_ & H2 & _).
  split; [exact (H1 eq_refl)|]. split; [exact (H2 eq_refl)|].
  destruct (H3 eq_refl) as (s1 & Hs1 & _ & _ & s2 & Hs2 & Hh & _).
  exists s1. split; [exact Hs1|]. exists s2. split; [exact Hs2|exact Hh].
Defined.

(** C6, as the code has it.  A log whose key
    [blockHash-transactionHash-index] is in the de-dup set is discarded:
    the delivery changes nothing and invokes no callback, now and after
    any further jobs, since a key is never removed; and the key is in the
    set once a callback for that log has returned without throwing. *)
Theorem listener_discards_recorded_identity s log :
  (eventId log ∈ processedEvents (self s) →
   ∀ inputs s' sender invoices,
     run s inputs = Some s' →
     eventId log ∈ processedEvents (self s')
     ∧ handler_call s' sender invoices log = s'
     ∧ (handlers (self s') ≠ 0%nat → step s' (Emit sender invoices log) = Some s'))
  ∧ (∀ tid eventData,
       pending s !! tid = Some (HandlerAwaitsCallback (eventId log) eventData) →
       ∃ s1, step s (Resume tid (CallbackDone (Returns ()))) = Some s1
         ∧ trace s1 = trace s
         ∧ eventId log ∈ processedEvents (self s1)).
Proof.
  split.
  - intros Hin inputs s' sender invoices Hrun.
    assert (eventId log ∈ processedEvents (self s')) as Hin'.
    { eapply run_processed_mono; eauto. }
    split; [done|]. split; [by apply handler_call_known|].
    intros Hh. simpl. rewrite decide_False by done.
    by rewrite handler_call_known.
  - intros tid eventData Hp. eexists. split.
    { simpl. rewrite Hp. reflexivity. }
    simpl. split; [by rewrite app_nil_r|set_solver].
Qed.

Lemma listener_discards_recorded_identity_witness :
  ∃ s, run Fixture.listening
         [Emit "0xAA" ["h1"; "h2"] Fixture.log;
          Resume 1 (ReceiptFound (Returns (Some (Fixture.txReceipt "0xt"))));
          Resume 1 (CallbackDone (Returns ()))] = Some s
    ∧ step s (Emit "0xAA" ["h1"; "h2"] Fixture.log) = Some s
    ∧ callbacks (trace s) = [Fixture.eventData].
Proof.
  eexists. split; [vm_compute; reflexivity|].
  split; [|vm_compute; reflexivity].
  match goal with |- step ?s _ = _ =>
    destruct (listener_discards_recorded_identity s Fixture.log) as [H _];
    apply (H ltac:(vm_compute; set_solver) [] s "0xAA" ["h1"; "h2"] eq_refl);
    vm_compute; lia
  end.
Defined.

(** C6 as stated fails.  Two deliveries of one log that overlap both reach
    the callback, because the key is recorded only after the callback has
    returned; and two deliveries with the same chain, transaction hash and
    log index but another block hash both reach it, one after the other,
    because the key contains the block hash. *)
Lemma listener_two_deliveries_two_callbacks :
  (callbacks ∘ trace) <$>
    run Fixture.listening
      [Emit "0xAA" ["h1"; "h2"] Fixture.log;
       Emit "0xAA" ["h1"; "h2"] Fixture.log;
       Resume 1 (ReceiptFound (Returns (Some (Fixture.txReceipt "0xt"))));
       Resume 2 (ReceiptFound (Returns (Some (Fixture.txReceipt "0xt"))))]
  = Some [Fixture.eventData; Fixture.eventData]
  ∧ (callbacks ∘ trace) <$>
      run Fixture.listening
        [Emit "0xAA" ["h1"; "h2"] Fixture.log;
         Resume 1 (ReceiptFound (Returns (Some (Fixture.txReceipt "0xt"))));
         Resume 1 (CallbackDone (Returns ()));
         Emit "0xAA" ["h1"; "h2"] (Log.mk "0xreorg" "0xtx" 2 1000);
         Resume 2 (ReceiptFound (Returns (Some (Fixture.txReceipt "0xt"))))]
    = Some [Fixture.eventData; Fixture.eventData].
Proof. split; vm_compute; reflexivity. Qed.

(** C10.  The de-dup set changes only when a callback returns without
    throwing, and then by the key of that handler's log.  When the receipt
    lookup throws or finds nothing, or the callback throws, the handler's
    [catch] logs the error, the listener object (de-dup set, handlers,
    listening flag) is as before, and a redelivery of the log starts a
    fresh receipt lookup. *)
Theorem listener_records_after_callback_only s :
  (∀ i s', step s i = Some s' →
     processedEvents (self s') = processedEvents (self s)
     ∨ ∃ tid eventId eventData,
         i = Resume tid (CallbackDone (Returns ()))
         ∧ pending s !! tid = Some (HandlerAwaitsCallback eventId eventData)
         ∧ processedEvents (self s') = {[eventId]} ∪ processedEvents (self s))
  ∧ (∀ sender invoices log a,
       handlers (self s) ≠ 0%nat →
       eventId log ∉ processedEvents (self s) →
       (∀ receipt, a ≠ Returns (Some receipt)) →
       ∃ s' e eventData,
         run s [Emit sender invoices log;
                Resume (next s) (ReceiptFound a);
                Emit sender invoices log] = Some s'
         ∧ self s' = self s
         ∧ trace s' = trace s ++ [GetTransactionReceipt (Log.transactionHash log);
                                  LogError e;
                                  GetTransactionReceipt (Log.transactionHash log)]
         ∧ pending s' !! S (next s) = Some (HandlerAwaitsReceipt (eventId log) eventData))
  ∧ (∀ sender invoices log receipt e,
       handlers (self s) ≠ 0%nat →
       eventId log ∉ processedEvents (self s) →
       ∃ s' eventData eventData',
         run s [Emit sender invoices log;
                Resume (next s) (ReceiptFound (Returns (Some receipt)));
                Resume (next s) (CallbackDone (Throws e));
                Emit sender invoices log] = Some s'
         ∧ self s' = self s
         ∧ trace s' = trace s ++ [GetTransactionReceipt (Log.transactionHash log);
                                  Callback eventData;
                                  LogError e;
                                  GetTransactionReceipt (Log.transactionHash log)]
         ∧ pending s' !! S (next s) = Some (HandlerAwaitsReceipt (eventId log) eventData')).
Proof.
  split_and!.
  - intros i s' Hstep.
    destruct i as [| |sender invoices log|tid a]; simpl in Hstep.
    + injection Hstep as <-. left. unfold start_call. by destruct (isListening _).
    + injection Hstep as <-. left. unfold stop_call. by destruct (isListening _).
    + destruct (decide _); [done|]. injection Hstep as <-. left.
      unfold handler_call. by destruct (decide _).
    + destruct (pending s !! tid) as [[| |eid ed|eid ed]|] eqn:Hp; [..|done];
        destruct a as [[]|[]|[[]|]|[[]|]]; try done;
        injection Hstep as <-; try (by left).
      right. by exists tid, eid, ed.
  - intros sender invoices log a Hh Hnew Hbad.
    simpl. rewrite decide_False by done.
    rewrite handler_call_new by done. simpl.
    rewrite lookup_insert_eq.
    assert (∃ e, handler_receipt
                   (suspend s (self s)
                      (HandlerAwaitsReceipt (eventId log)
                         (EventData.mk (chain (self s)) sender invoices
                            (Log.blockNumber log) (Log.transactionHash log)
                            (Log.index log) None))
                      [GetTransactionReceipt (Log.transactionHash log)])
                   (next s) (eventId log)
                   (EventData.mk (chain (self s)) sender invoices
                      (Log.blockNumber log) (Log.transactionHash log)
                      (Log.index log) None) a
                 = mkSys (self s) (delete (next s) (<[next s := HandlerAwaitsReceipt (eventId log)
                         (EventData.mk (chain (self s)) sender invoices
                            (Log.blockNumber log) (Log.transactionHash log)
                            (Log.index log) None)]> (pending s))) (S (next s))
                     ((trace s ++ [GetTransactionReceipt (Log.transactionHash log)])
                        ++ [LogError e])) as [e ->].
    { destruct a as [[receipt|]|e]; [by destruct (Hbad receipt)|by eexists..]. }
    simpl. rewrite decide_False by done.
    rewrite handler_call_new by done.
    eexists _, e, _. split; [reflexivity|]. simpl.
    split; [done|]. split; [by rewrite <- !app_assoc|].
    by rewrite lookup_insert_eq.
  - intros sender invoices log receipt e Hh Hnew.
    simpl. rewrite decide_False by done.
    rewrite handler_call_new by done. simpl.
    rewrite lookup_insert_eq. simpl. rewrite lookup_insert_eq. simpl.
    rewrite decide_False by done.
    rewrite handler_call_new by done.
    eexists _, _, _. split; [reflexivity|]. simpl.
    split; [done|]. split; [by rewrite <- !app_assoc|].
    by rewrite lookup_insert_eq.
Qed.

Lemma listener_records_after_callback_only_witness :
  ∃ s' e,
    run Fixture.listening
      [Emit "0xAA" ["h1"; "h2"] Fixture.log;
       Resume 1 (ReceiptFound (Returns None));
       Emit "0xAA" ["h1"; "h2"] Fixture.log] = Some s'
    ∧ self s' = self Fixture.listening
    ∧ trace s' = trace Fixture.listening
                 ++ [GetTransactionReceipt "0xtx"; LogError e; GetTransactionReceipt "0xtx"].
Proof.
  destruct (listener_records_after_callback_only Fixture.listening) as (_ & H & _).
  destruct (H "0xAA" ["h1"; "h2"] Fixture.log (Returns None))
    as (s' & e & ed & Hrun & Hself & Htrace & _).
  - vm_compute. lia.
  - vm_compute. set_solver.
  - intros receipt. discriminate.
  - exists s', e. split; [exact Hrun|]. split; [exact Hself|exact Htrace].
Defined.

End ListenerClaims.

(** ** Relayer: proof acquisition *)

Section ProofClaims.
Import Relayer.

Variable ethers_id : string → string.

Local Arguments pollLoop : simpl never.

Lemma polls_rounds jobId n : polls (rounds jobId n) = n.
Proof.
  unfold polls, rounds. induction n as [|n IH]; [done|].
  simpl in *. by rewrite IH.
Qed.

Lemma polls_app evs evs' : polls (evs ++ evs') = (polls evs + polls evs')%nat.
Proof. unfold polls. by rewrite List.filter_app, length_app. Qed.

Lemma pollLoop_S fuel w jobId attempts :
  pollLoop (S fuel) w jobId attempts
  = if decide (attempts < 120)%nat then
      match query w attempts with
      | Throws e => Some (await (QueryProof jobId) (Throws e))
      | Returns None => Some ([QueryProof jobId], Throws (TypeError "undefined" "proof"))
      | Returns (Some proof) =>
          if truthy proof then
            Some ([QueryProof jobId],
                  Returns (hexOfBase64 (tpl proof), elapsed w attempts))
          else
            match pollLoop fuel w jobId (S attempts) with
            | None => None
            | Some (evs, r) => Some ([QueryProof jobId; Sleep 500] ++ evs, r)
            end
      end
    else Some (throw (mkError "Timeout waiting for proof")).
Proof. reflexivity. Qed.

(** The loop from [attempts], with [k] iterations left before the
    ceiling: whatever fuel exceeds [k] gives one and the same result. *)
Lemma pollLoop_spec w jobId k : ∀ attempts,
  (attempts + k = 120)%nat →
  ∃ evs res,
    (∀ fuel, (k < fuel)%nat → pollLoop fuel w jobId attempts = Some (evs, res))
    ∧ ∃ n, (n ≤ k)%nat
        ∧ (∀ i, (attempts ≤ i < attempts + n)%nat → notReady (query w i) = true)
        ∧ ((n = k ∧ evs = rounds jobId n
            ∧ res = Throws (mkError "Timeout waiting for proof"))
           ∨ ((n < k)%nat ∧ evs = rounds jobId n ++ [QueryProof jobId]
              ∧ match query w (attempts + n) with
                | Returns (Some proof) =>
                    truthy proof = true
                    ∧ res = Returns (hexOfBase64 (tpl proof), elapsed w (attempts + n))
                | Returns None => res = Throws (TypeError "undefined" "proof")
                | Throws e => res = Throws e
                end)).
Proof.
  induction k as [|k IH]; intros attempts Hk.
  - exists [], (Throws (mkError "Timeout waiting for proof")). split.
    + intros [|fuel] ?; [lia|]. rewrite pollLoop_S. by rewrite decide_False by lia.
    + exists 0%nat. split; [done|]. split; [intros; lia|]. by left.
  - destruct (query w attempts) as [[proof|]|e] eqn:Hq.
    + destruct (truthy proof) eqn:Ht.
      * eexists _, _. split.
        { intros [|fuel] ?; [lia|]. rewrite pollLoop_S, decide_True by lia.
          rewrite Hq, Ht. reflexivity. }
        exists 0%nat. split; [lia|]. split; [intros; lia|]. right.
        split; [lia|]. split; [done|].
        rewrite Nat.add_0_r, Hq. done.
      * destruct (IH (S attempts)) as (evs & res & Hfuel & n & Hn & Hnot & Hres); [lia|].
        exists ([QueryProof jobId; Sleep 500] ++ evs), res. split.
        { intros [|fuel] ?; [lia|]. rewrite pollLoop_S, decide_True by lia.
          rewrite Hq, Ht. rewrite (Hfuel fuel) by lia. reflexivity. }
        exists (S n). split; [lia|]. split.
        { intros i Hi. destruct (decide (i = attempts)) as [->|].
          - rewrite Hq. simpl. by rewrite Ht.
          - apply Hnot. lia. }
        replace (attempts + S n)%nat with (S attempts + n)%nat by lia.
        destruct Hres as [(-> & -> & ->)|(? & -> & Hres)].
        -- by left.
        -- right. split; [lia|]. split; [done|]. exact Hres.
    + eexists _, _. split.
      { intros [|fuel] ?; [lia|]. rewrite pollLoop_S, decide_True by lia.
        rewrite Hq. reflexivity. }
      exists 0%nat. split; [lia|]. split; [intros; lia|]. right.
      split; [lia|]. split; [done|]. by rewrite Nat.add_0_r, Hq.
    + eexists _, _. split.
      { intros [|fuel] ?; [lia|]. rewrite pollLoop_S, decide_True by lia.
        rewrite Hq. reflexivity. }
      exists 0%nat. split; [lia|]. split; [intros; lia|]. right.
      split; [lia|]. split; [done|]. by rewrite Nat.add_0_r, Hq.
Qed.

(** C3.  The poll loop returns on every course of answers, with any fuel
    from [poll_fuel] on: it queries at most 120 times, sleeps 500 ms after
    every query that found nothing, and ends at the first query [n] that
    does not say "not ready": with the proof when that query carries one,
    with that query's error when it throws (no further query), and with
    "Timeout waiting for proof" when all 120 queries found nothing.
    [getPolymerProof] hands that outcome on. *)
Theorem poll_loop_bounded w jobId :
  ∃ evs res,
    (∀ fuel, (poll_fuel ≤ fuel)%nat → pollLoop fuel w jobId 0 = Some (evs, res))
    ∧ (polls evs ≤ 120)%nat
    ∧ (∃ n, (n ≤ 120)%nat
        ∧ (∀ i, (i < n)%nat → notReady (query w i) = true)
        ∧ ((n = 120%nat ∧ evs = rounds jobId 120
            ∧ res = Throws (mkError "Timeout waiting for proof"))
           ∨ ((n < 120)%nat ∧ evs = rounds jobId n ++ [QueryProof jobId]
              ∧ match query w n with
                | Returns (Some proof) =>
                    truthy proof = true
                    ∧ res = Returns (hexOfBase64 (tpl proof), elapsed w n)
                | Returns None => res = Throws (TypeError "undefined" "proof")
                | Throws e => res = Throws e
                end)))
    ∧ (∀ r sourceChainId blockNumber transactionHash logIndex evs0,
         requestProof ethers_id r w sourceChainId blockNumber transactionHash logIndex
         = (evs0, Returns jobId) →
         getPolymerProof ethers_id poll_fuel r w sourceChainId blockNumber
           transactionHash logIndex
         = Some (logAndRethrow (evs0 ++ evs, res))).
Proof.
  destruct (pollLoop_spec w jobId 120 0 eq_refl)
    as (evs & res & Hfuel & n & Hn & Hnot & Hres).
  exists evs, res. split_and!.
  - intros fuel Hf. apply Hfuel. unfold poll_fuel in Hf. lia.
  - destruct Hres as [(_ & -> & _)|(? & -> & _)].
    + by rewrite polls_rounds.
    + rewrite polls_app, polls_rounds.
      change (polls [QueryProof jobId]) with 1%nat. lia.
  - exists n. split; [done|]. split; [intros i Hi; apply Hnot; lia|].
    destruct Hres as [(-> & -> & ->)|(? & -> & Hres)]; [by left|].
    right. split; [done|]. split; [done|]. exact Hres.
  - intros r sourceChainId blockNumber transactionHash logIndex evs0 Hreq.
    unfold getPolymerProof. rewrite Hreq.
    rewrite (Hfuel poll_fuel) by (unfold poll_fuel; lia). reflexivity.
Qed.

Lemma findIndex_from_spec {A} (p : A → bool) (l : list A) : ∀ i,
  (findIndex_from p l i = -1 ∧ ∀ x, x ∈ l → p x = false) ∨
  (∃ n x, findIndex_from p l i = i + Z.of_nat n
     ∧ l !! n = Some x ∧ p x = true
     ∧ ∀ j y, (j < n)%nat → l !! j = Some y → p y = false).
Proof.
  induction l as [|x l IH]; intros i; simpl.
  - left. split; [done|]. intros x Hx. by apply elem_of_nil in Hx.
  - destruct (p x) eqn:Hpx.
    + right. exists 0%nat, x. split; [lia|]. split; [done|]. split; [done|].
      intros; lia.
    + destruct (IH (i + 1)) as [[Hnone Hall]|(n & y & Hi & Hn & Hy & Hbefore)].
      * left. split; [done|]. intros z [->|Hz]%elem_of_cons; auto.
      * right. exists (S n), y. split; [lia|]. split; [done|]. split; [done|].
        intros [|j] z Hj Hz; simpl in Hz; [by injection Hz as <-|].
        eapply Hbefore; [|done]. lia.
Qed.

(** C5.  For an event of a configured source chain, [getPolymerProof]
    throws "Transaction receipt not found" without any proof request when
    the receipt is missing, throws "InvoiceBatch event not found in
    transaction logs" without any proof request when no log of the receipt
    has the hash of "InvoiceBatch(address,bytes32[])" as first topic, and
    otherwise requests the proof for exactly (source chain id, block
    number, the receipt's index, the position of the first such log in
    the receipt). *)
Theorem proof_request_addresses_first_batch_log r w sourceChainId blockNumber
    transactionHash logIndex sourceChain :
  chains r !! sourceChainId = Some sourceChain →
  let isBatch := λ topics : list string,
    bool_decide (topics !! 0%nat = Some (ethers_id "InvoiceBatch(address,bytes32[])")) in
  let got := getPolymerProof ethers_id poll_fuel r w sourceChainId blockNumber
               transactionHash logIndex in
  let lookup := GetTransactionReceipt (rpc sourceChain) transactionHash in
  match receipt w with
  | Throws e => got = Some ([lookup; LogProofError (message e)], Throws e)
  | Returns None =>
      got = Some ([lookup; LogProofError "Transaction receipt not found"],
                  Throws (mkError "Transaction receipt not found"))
  | Returns (Some txReceipt) =>
      ((∀ topics, topics ∈ Receipt.logs txReceipt → isBatch topics = false)
       ∧ got = Some ([lookup;
                      LogProofError "InvoiceBatch event not found in transaction logs"],
                     Throws (mkError "InvoiceBatch event not found in transaction logs")))
      ∨ (∃ n topics evs res,
           Receipt.logs txReceipt !! n = Some topics
           ∧ isBatch topics = true
           ∧ (∀ j earlier, (j < n)%nat → Receipt.logs txReceipt !! j = Some earlier →
                isBatch earlier = false)
           ∧ got = Some (lookup
                         :: RequestProof sourceChainId blockNumber
                              (Receipt.index txReceipt) (Z.of_nat n)
                         :: evs, res))
  end.
Proof.
  intros Hchain isBatch got lookup. subst got.
  unfold getPolymerProof, requestProof. rewrite Hchain. simpl.
  destruct (receipt w) as [[txReceipt|]|e]; simpl; [|done..].
  unfold invoiceBatchEventSignature, findIndex.
  fold isBatch.
  destruct (findIndex_from_spec isBatch (Receipt.logs txReceipt) 0)
    as [[-> Hall]|(n & topics & -> & Hn & Hb & Hbefore)].
  - left. by split.
  - right. exists n, topics.
    rewrite Z.add_0_l.
    destruct (Z.eqb_spec (Z.of_nat n) (-1)) as [?|_]; [lia|].
    destruct (request w) as [[status jobId]|e]; simpl.
    + destruct (status =? 200); simpl.
      * destruct (pollLoop_spec w jobId 120 0 eq_refl) as (evs & res & Hfuel & _).
        rewrite (Hfuel poll_fuel) by (unfold poll_fuel; lia).
        destruct res as [a|e]; simpl; eauto 10.
      * eauto 10.
    + eauto 10.
Qed.

End ProofClaims.

Example getPolymerProof_third_query :
  Relayer.getPolymerProof Fixture.id Relayer.poll_fuel (Relayer.new Fixture.env) Fixture.service
    11155420 1000 "0xtx" 2
  = Some ([Relayer.GetTransactionReceipt (Some "https://optimism.example") "0xtx";
           Relayer.RequestProof 11155420 1000 5 1;
           Relayer.QueryProof (Some "job-1"); Relayer.Sleep 500;
           Relayer.QueryProof (Some "job-1"); Relayer.Sleep 500;
           Relayer.QueryProof (Some "job-1")],
          Returns (Relayer.hexOfBase64 "cHJvb2Y=", "1.50")).
Proof. vm_compute. reflexivity. Qed.

Lemma proof_request_addresses_first_batch_log_witness :
  ∃ evs res,
    Relayer.getPolymerProof Fixture.id Relayer.poll_fuel (Relayer.new Fixture.env)
      Fixture.service 11155420 1000 "0xtx" 2
    = Some (Relayer.GetTransactionReceipt (Some "https://optimism.example") "0xtx"
            :: Relayer.RequestProof 11155420 1000 5 1 :: evs, res).
Proof.
  pose proof (proof_request_addresses_first_batch_log Fixture.id
    (Relayer.new Fixture.env) Fixture.service 11155420 1000 "0xtx" 2
    Fixture.optimism ltac:(vm_compute; reflexivity)) as H.
  simpl in H. destruct H as [[Hall _]|(n & topics & evs & res & Hn & Hb & Hbefore & Hgot)].
  - exfalso.
    specialize (Hall [Fixture.id "InvoiceBatch(address,bytes32[])"; "0xAA"]
                  ltac:(unfold Fixture.txReceipt; simpl; set_solver)).
    by rewrite bool_decide_eq_false in Hall.
  - destruct n as [|[|n]].
    + exfalso. simpl in Hn. injection Hn as <-. by rewrite bool_decide_eq_true in Hb.
    + exists evs, res. exact Hgot.
    + exfalso. specialize (Hbefore 1%nat _ ltac:(lia) eq_refl).
      by rewrite bool_decide_eq_false in Hbefore.
Defined.


(** ** Relayer: fan-out *)

Section FanOutClaims.
Import Relayer.

Variable invalidTarget : Error.


End FanOutClaims.



(** ** Relayer: start-up *)

Section StartUpClaims.
Import Relayer.

Implicit Types (env : Env) (c : Chain).

(** An enabled chain is an entry of [CHAINS] with [rpc] and
    [proverAddress] set. *)
Lemma enabled_origin env c :
  c ∈ getEnabledChains env →
  ∃ key, (key, c) ∈ CHAINS_entries env
    ∧ truthy (rpc c) = true ∧ truthy (proverAddress c) = true.
Proof.
  unfold getEnabledChains. intros (oc & Hoc & Hid)%list_elem_of_omap.
  simpl in Hid. subst oc.
  apply list_elem_of_In, List.filter_In in Hoc as [Hin Hen].
  apply list_elem_of_In, list_elem_of_fmap in Hin as (key & Hkey & _).
  exists key. split.
  - apply elem_of_list_to_map_2. by rewrite Hkey.
  - simpl in Hen. by apply andb_prop in Hen.
Qed.

(** Of the eight entries only the three with an [envPrefix] can be
    enabled, and their [rpc] is the variable a listener reads. *)
Lemma enabled_rpc env c :
  c ∈ getEnabledChains env →
  ∃ prefix, envPrefix c = Some prefix
    ∧ env !! (prefix +:+ "_RPC") = rpc c
    ∧ truthy (rpc c) = true.
Proof.
  intros (key & Hin & Hrpc & _)%enabled_origin.
  unfold CHAINS_entries in Hin.
  repeat (apply elem_of_cons in Hin as [[= -> ->]|Hin]; [by eauto|]).
  by apply elem_of_nil in Hin.
Qed.

Lemma enabled_chainId_inj env c1 c2 :
  c1 ∈ getEnabledChains env → c2 ∈ getEnabledChains env →
  chainId c1 = chainId c2 → c1 = c2.
Proof.
  intros (k1 & Hin1 & Hrpc1 & _)%enabled_origin (k2 & Hin2 & Hrpc2 & _)%enabled_origin.
  unfold CHAINS_entries in Hin1, Hin2.
  repeat (apply elem_of_cons in Hin1 as [[= -> ->]|Hin1];
          [try done|]); [..|by apply elem_of_nil in Hin1];
  repeat (apply elem_of_cons in Hin2 as [[= -> ->]|Hin2];
          [try done|]); by apply elem_of_nil in Hin2.
Qed.

Lemma configured_hasRpc env c :
  c ∈ enabledChains (new env) → hasRpc env c = true.
Proof.
  simpl. intros (c0 & -> & Hc0)%list_elem_of_fmap.
  destruct (enabled_rpc env c0 Hc0) as (prefix & Hp & Hrpc & Ht).
  unfold hasRpc, ChainListener.rpcEnvKey. simpl. rewrite Hp. simpl.
  by rewrite Hrpc.
Qed.

Lemma configured_chainId_inj env c1 c2 :
  c1 ∈ enabledChains (new env) → c2 ∈ enabledChains (new env) →
  chainId c1 = chainId c2 → c1 = c2.
Proof.
  simpl. intros (a & -> & Ha)%list_elem_of_fmap (b & -> & Hb)%list_elem_of_fmap Hid.
  f_equal. by eapply enabled_chainId_inj.
Qed.

(** The listener [init()] constructs for a chain. *)
Lemma new_listener env c :
  hasRpc env c = true → hasContract env c = true →
  ChainListener.new env c
  = Returns (ChainListener.mk c (tpl (env !! ChainListener.contractEnvKey c)) 0 false ∅).
Proof.
  unfold hasRpc, hasContract, ChainListener.new. by intros -> ->.
Qed.

Lemma foldl_insert_lookup (f : Chain → ChainListener.t) cs :
  ∀ (ls : gmap Z ChainListener.t) k l,
    foldl (λ m c, <[chainId c := f c]> m) ls cs !! k = Some l →
    ls !! k = Some l ∨ ∃ c, c ∈ cs ∧ k = chainId c ∧ l = f c.
Proof.
  induction cs as [|c cs IH]; intros ls k l; simpl; [by left|].
  intros [Hl|(c' & Hc' & -> & ->)]%IH.
  - destruct (decide (chainId c = k)) as [<-|Hne].
    + rewrite lookup_insert_eq in Hl. injection Hl as <-.
      right. exists c. split; [left|done].
    + rewrite lookup_insert_ne in Hl by done. by left.
  - right. exists c'. split; [by right|done].
Qed.

Lemma foldl_insert_elem (f : Chain → ChainListener.t) cs :
  ∀ (ls : gmap Z ChainListener.t) c,
    c ∈ cs →
    ∃ c', c' ∈ cs ∧ chainId c' = chainId c
      ∧ foldl (λ m c, <[chainId c := f c]> m) ls cs !! chainId c = Some (f c').
Proof.
  induction cs as [|x cs IH] using rev_ind; intros ls c Hc.
  { by apply elem_of_nil in Hc. }
  rewrite foldl_app. simpl.
  destruct (decide (chainId x = chainId c)) as [Heq|Hne].
  - exists x. split; [apply elem_of_app; right; left|]. split; [done|].
    by rewrite <- Heq, lookup_insert_eq.
  - apply elem_of_app in Hc as [Hc|Hc%list_elem_of_singleton]; [|by subst].
    destruct (IH ls c Hc) as (c' & Hc' & Hid & Hl).
    exists c'. split; [apply elem_of_app; by left|]. split; [done|].
    by rewrite lookup_insert_ne.
Qed.

(** The loop of [init()] over chains that all have their RPC variable:
    no constructor throws, the chains with a batcher address get a
    listener under their chain id, the others a "Skipping" line. *)
Lemma init_loop_spec env todo : ∀ ls,
  (∀ c, c ∈ todo → hasRpc env c = true) →
  ∃ out,
    init_loop env todo ls
    = (Returns (foldl (λ m c, <[chainId c :=
                         ChainListener.mk c (tpl (env !! ChainListener.contractEnvKey c))
                           0 false ∅]> m)
                  ls (List.filter (hasContract env) todo)), out)
    ∧ ∀ c, c ∈ todo → hasContract env c = false →
        Skipping (name c) (ChainListener.contractEnvKey c) ∈ out.
Proof.
  induction todo as [|c todo IH]; intros ls Hrpc; simpl.
  - exists []. split; [done|]. intros c Hc. by apply elem_of_nil in Hc.
  - fold (hasContract env c).
    destruct (hasContract env c) eqn:Hc; simpl.
    + rewrite new_listener by (done || apply Hrpc; left).
      destruct (IH (<[chainId c := ChainListener.mk c
                       (tpl (env !! ChainListener.contractEnvKey c)) 0 false ∅]> ls))
        as (out & -> & Hout); [intros; apply Hrpc; by right|].
      eexists. split; [reflexivity|].
      intros c' [->|Hc']%elem_of_cons Hno; [congruence|].
      right. by apply Hout.
    + destruct (IH ls) as (out & -> & Hout); [intros; apply Hrpc; by right|].
      eexists. split; [reflexivity|].
      intros c' [->|Hc']%elem_of_cons Hno; [left|right; by apply Hout].
Qed.

(** C7.  For every environment, [init()] on the freshly constructed
    relayer: every enabled chain has its RPC variable; every enabled chain
    with RPC and batcher address gets the listener constructed for it,
    under its chain id, and the listeners are exactly those; every enabled
    chain lacking one of the two is skipped with the "Skipping" line;
    [init()] throws exactly when no enabled chain has both, and then
    "No chains configured with valid invoice batcher addresses"; and
    when [init()] throws, [main()] exits with status 1. *)
Theorem init_builds_one_listener_per_configured_chain env :
  let r := new env in
  let res := (init env r).1 in
  let out := (init env r).2 in
  (∀ c, c ∈ enabledChains r → hasRpc env c = true)
  ∧ (∀ c, c ∈ enabledChains r → hasRpc env c && hasContract env c = true →
       ∃ r' l, res = Returns r'
         ∧ listeners r' !! chainId c = Some l
         ∧ ChainListener.new env c = Returns l
         ∧ ChainListener.chain l = c)
  ∧ (∀ r' k l, res = Returns r' → listeners r' !! k = Some l →
       ∃ c, c ∈ enabledChains r
         ∧ hasRpc env c && hasContract env c = true
         ∧ k = chainId c
         ∧ ChainListener.new env c = Returns l)
  ∧ (∀ c, c ∈ enabledChains r → hasRpc env c && hasContract env c = false →
       Skipping (name c) (ChainListener.contractEnvKey c) ∈ out)
  ∧ ((∃ e, res = Throws e) ↔
     (∀ c, c ∈ enabledChains r → hasRpc env c && hasContract env c = false))
  ∧ (∀ e, res = Throws e →
       e = mkError "No chains configured with valid invoice batcher addresses")
  ∧ (∀ e wallet start, res = Throws e → (main env wallet start).1 = Exited 1).
Proof.
  intros r res out.
  pose proof (configured_hasRpc env) as Hrpc. fold r in Hrpc.
  destruct (init_loop_spec env (enabledChains r) ∅ Hrpc) as (out' & Hloop & Hskip).
  set (f := λ c, ChainListener.mk c (tpl (env !! ChainListener.contractEnvKey c)) 0 false ∅)
    in Hloop.
  set (ls := foldl (λ (m : gmap Z ChainListener.t) c, <[chainId c := f c]> m) ∅
               (List.filter (hasContract env) (enabledChains r))) in Hloop.
  assert (Hfilter : ∀ c, c ∈ List.filter (hasContract env) (enabledChains r)
                         ↔ c ∈ enabledChains r ∧ hasRpc env c && hasContract env c = true).
  { intros c. split.
    - intros [Hc Hb]%list_elem_of_In%List.filter_In.
      apply list_elem_of_In in Hc. split; [done|]. by rewrite Hrpc.
    - intros [Hc Hb]. apply list_elem_of_In, List.filter_In.
      split; [by apply list_elem_of_In|]. by apply andb_prop in Hb as [_ ?]. }
  assert (Hinit : init env r
                  = if decide (size ls = 0%nat)
                    then (Throws (mkError "No chains configured with valid invoice batcher addresses"), out')
                    else (Returns (set_listeners r ls), out')).
  { unfold init. change (listeners r) with (∅ : gmap Z ChainListener.t).
    by rewrite Hloop. }
  assert (Hempty : size ls = 0%nat ↔
                   ∀ c, c ∈ enabledChains r → hasRpc env c && hasContract env c = false).
  { rewrite map_size_empty_iff. split.
    - intros Hls c Hc. destruct (hasRpc env c && hasContract env c) eqn:Hb; [|done].
      destruct (foldl_insert_elem f _ ∅ c (proj2 (Hfilter c) (conj Hc Hb)))
        as (c' & _ & _ & Hl).
      fold ls in Hl. by rewrite Hls, lookup_empty in Hl.
    - intros Hnone. apply map_eq. intros k. rewrite lookup_empty.
      destruct (ls !! k) as [l|] eqn:Hl; [|done].
      apply foldl_insert_lookup in Hl as [Hl|(c & Hc & _)].
      + by rewrite lookup_empty in Hl.
      + apply Hfilter in Hc as [Hc Hb]. by rewrite Hnone in Hb. }
  subst res out. rewrite Hinit.
  split_and!.
  - done.
  - intros c Hc Hb.
    destruct (decide (size ls = 0%nat)) as [Hz|Hnz].
    { rewrite Hempty in Hz. by rewrite Hz in Hb. }
    destruct (foldl_insert_elem f _ ∅ c (proj2 (Hfilter c) (conj Hc Hb)))
      as (c' & Hc' & Hid & Hl).
    apply Hfilter in Hc' as [Hc' Hb'].
    assert (c' = c) as -> by (by eapply configured_chainId_inj).
    exists (set_listeners r ls), (f c). simpl. split; [done|]. split; [done|].
    apply andb_prop in Hb as [? ?]. by rewrite new_listener.
  - intros r' k l. destruct (decide (size ls = 0%nat)); [done|]. simpl.
    intros [= <-]. simpl. intros [Hl|(c & Hc & -> & ->)]%foldl_insert_lookup.
    { by rewrite lookup_empty in Hl. }
    apply Hfilter in Hc as [Hc Hb]. exists c. split; [done|]. split; [done|].
    split; [done|]. apply andb_prop in Hb as [? ?]. by rewrite new_listener.
  - intros c Hc Hb.
    assert (Skipping (name c) (ChainListener.contractEnvKey c) ∈ out') as Hin.
    { apply Hskip; [done|]. by rewrite Hrpc in Hb. }
    by destruct (decide _).
  - rewrite <- Hempty. destruct (decide (size ls = 0%nat)); simpl.
    + split; [done|]. intros _. by eexists.
    + split; [by intros [e ?]|done].
  - intros e. destruct (decide _); simpl; [by intros [= <-]|done].
  - intros e wallet start Hthrow. unfold main.
    destruct (negb (truthy (env !! "ACTIVATED_CHAINS"))); [done|].
    destruct wallet as [[]|]; [|done].
    fold r. rewrite Hinit in *.
    destruct (decide _); simpl in *; done.
Qed.

End StartUpClaims.

Example init_fixture :
  (Relayer.init Fixture.env (Relayer.new Fixture.env)).2
  = [Relayer.ContractLine "Optimism Sepolia" "0xb1";
     Relayer.Skipping "Base Sepolia" "BASE_SEPOLIA_INVOICEBATCHER_ADDRESS";
     Relayer.ContractLine "Arbitrum Sepolia" "0xb2"]
  ∧ ∃ r, (Relayer.init Fixture.env (Relayer.new Fixture.env)).1 = Returns r
      ∧ Relayer.enabledChains r = [Fixture.optimism; Fixture.base; Fixture.arbitrum]
      ∧ dom (Relayer.listeners r) = {[ 11155420; 421614 ]}.
Proof.
  split; [vm_compute; reflexivity|].
  eexists. split; [vm_compute; reflexivity|].
  split; [vm_compute; reflexivity|].
  vm_compute. reflexivity.
Qed.

(** ** Relayer: the in-flight map *)

Section InFlightClaims.
Import Relayer.

Variable ethers_id : string → string.
Variable invalidTarget : Error.

Implicit Types (s : Sys) (p : Pending) (eventData : EventData.t).

Lemma eventId_identity eventData eventData' :
  identity eventData' = identity eventData → eventId eventData' = eventId eventData.
Proof. unfold identity, eventId. by intros [= -> ->]. Qed.

Lemma handleEvent_call_duplicate s eventData :
  is_Some (processingEvents (self s) !! eventId eventData) →
  handleEvent_call s eventData = s.
Proof. intros Hin. unfold handleEvent_call. by rewrite decide_True. Qed.

Lemma handleEvent_call_fresh s eventData :
  processingEvents (self s) !! eventId eventData = None →
  handleEvent_call s eventData
  = mkSys (set_processingEvents (self s)
             (<[eventId eventData := true]> (processingEvents (self s))))
          (<[next s := AwaitsProof eventData]> (pending s))
          (S (next s))
          (trace s ++ [(next s, LogNewBatch eventData)]).
Proof.
  intros Hnone. unfold handleEvent_call. rewrite decide_False; [done|].
  rewrite Hnone. by intros [? ?].
Qed.

Lemma exclusive_boot r : processingEvents r = ∅ → exclusive (boot r).
Proof.
  intros Hr. split_and!; simpl.
  - intros tid p. by rewrite lookup_empty.
  - intros k. rewrite Hr, lookup_empty. by intros [? ?].
  - intros t1 t2 p1 p2. by rewrite lookup_empty.
Qed.

(** A call that goes on with the same event keeps the invariant. *)
Lemma exclusive_update s tid p p' tr :
  exclusive s → pending s !! tid = Some p → event p' = event p →
  exclusive (mkSys (self s) (<[tid := p']> (pending s)) (next s) tr).
Proof.
  intros (H1 & H2 & H3) Hp Hev. split_and!; simpl.
  - intros t q. destruct (decide (tid = t)) as [<-|Hne].
    + rewrite lookup_insert_eq. intros [= <-]. rewrite Hev. by apply H1.
    + rewrite lookup_insert_ne by done. apply H1.
  - intros k (t & q & Hq & Hk)%H2. destruct (decide (tid = t)) as [<-|Hne].
    + exists tid, p'. rewrite lookup_insert_eq. split; [done|]. congruence.
    + exists t, q. by rewrite lookup_insert_ne.
  - intros t1 t2 p1 p2 Hp1 Hp2.
    assert (∀ t q, <[tid:=p']> (pending s) !! t = Some q →
                   ∃ q', pending s !! t = Some q' ∧ event q' = event q) as Hold.
    { intros t q. destruct (decide (tid = t)) as [<-|Hne].
      - rewrite lookup_insert_eq. intros [= <-]. by exists p.
      - rewrite lookup_insert_ne by done. by exists q. }
    destruct (Hold _ _ Hp1) as (q1 & Hq1 & <-), (Hold _ _ Hp2) as (q2 & Hq2 & <-).
    by apply H3.
Qed.

(** The [finally] block of a call keeps the invariant. *)
Lemma exclusive_finally s tid p evs :
  exclusive s → pending s !! tid = Some p →
  exclusive (finally s tid (eventId (event p)) evs).
Proof.
  intros (H1 & H2 & H3) Hp. split_and!; simpl.
  - intros t q [Hne Hq]%lookup_delete_Some. destruct (H1 t q Hq) as [? Hin].
    split; [done|]. rewrite lookup_delete_ne; [done|].
    intros Heq. apply Hne. by eapply H3.
  - intros k [q [Hne Hq]%lookup_delete_Some].
    destruct (H2 k) as (t & q' & Hq' & Hk); [by eexists|].
    exists t, q'. split; [|done]. apply lookup_delete_Some. split; [|done].
    intros <-. rewrite Hp in Hq'. injection Hq' as <-. done.
  - intros t1 t2 p1 p2 [_ Hp1]%lookup_delete_Some [_ Hp2]%lookup_delete_Some.
    by apply H3.
Qed.

Lemma exclusive_step s i s' :
  exclusive s → step ethers_id invalidTarget s i = Some s' → exclusive s'.
Proof.
  intros Hex. destruct i as [eventData|tid w|tid index a|tid]; simpl.
  - intros [= <-].
    destruct (processingEvents (self s) !! eventId eventData) as [b|] eqn:Hk.
    { by rewrite handleEvent_call_duplicate by (by rewrite Hk). }
    rewrite handleEvent_call_fresh by done.
    destruct Hex as (H1 & H2 & H3).
    assert (pending s !! next s = None) as Hfresh.
    { destruct (pending s !! next s) as [q|] eqn:Hq; [|done].
      apply H1 in Hq as [? _]. lia. }
    split_and!; simpl.
    + intros t q. destruct (decide (next s = t)) as [<-|Hne].
      * rewrite lookup_insert_eq. intros [= <-]. simpl.
        rewrite lookup_insert_eq. split; [lia|by eexists].
      * rewrite lookup_insert_ne by done. intros [? Hin]%H1.
        split; [lia|]. rewrite lookup_insert_is_Some. 
        destruct (decide (eventId eventData = eventId (event q))); auto.
    + intros k [Hk'|[Hne Hk']]%lookup_insert_is_Some.
      * subst k. exists (next s), (AwaitsProof eventData).
        by rewrite lookup_insert_eq.
      * destruct (H2 k Hk') as (t & q & Hq & Hqk). exists t, q.
        split; [|done]. rewrite lookup_insert_ne; [done|].
        intros <-. by rewrite Hfresh in Hq.
    + intros t1 t2 p1 p2.
      destruct (decide (next s = t1)) as [<-|Hne1], (decide (next s = t2)) as [<-|Hne2];
        rewrite ?lookup_insert_eq, ?lookup_insert_ne by done; try done.
      * intros [= <-] Hp2 Heq. simpl in Heq.
        apply H1 in Hp2 as [_ Hin]. rewrite <- Heq, Hk in Hin. by destruct Hin.
      * intros Hp1 [= <-] Heq. simpl in Heq.
        apply H1 in Hp1 as [_ Hin]. rewrite Heq, Hk in Hin. by destruct Hin.
      * apply H3.
  - destruct (pending s !! tid) as [[eventData|]|] eqn:Hp; [|done..].
    destruct (getPolymerProof _ _ _ _ _ _ _ _) as [[evs [[proof proofTime]|e]]|];
      [..|done]; simpl; intros [= <-].
    + by eapply exclusive_update.
    + by apply (exclusive_finally s tid (AwaitsProof eventData)).
  - destruct (pending s !! tid) as [[|eventData proof proofTime targets promises]|] eqn:Hp;
      [done| |done].
    unfold update_settles.
    destruct (targets !! index), (promises !! index) as [[]|]; try done.
    intros [= <-]. by eapply exclusive_update.
  - destruct (pending s !! tid) as [[|eventData proof proofTime targets promises]|] eqn:Hp;
      [done| |done].
    destruct (allSettled promises) as [results|]; [|done]. simpl. intros [= <-].
    by apply (exclusive_finally s tid
                (AwaitsAllSettled eventData proof proofTime targets promises)).
Qed.

Lemma exclusive_run inputs : ∀ s s',
  exclusive s → run ethers_id invalidTarget s inputs = Some s' → exclusive s'.
Proof.
  induction inputs as [|i inputs IH]; intros s s' Hex; simpl.
  - by intros [= <-].
  - destruct (step ethers_id invalidTarget s i) as [s1|] eqn:Hstep; [|done].
    apply IH. by eapply exclusive_step.
Qed.

(** C1.  In every state the event loop reaches from a relayer with an
    empty in-flight map: a [handleEvent] for an identity whose ticket is
    present, or for which a call is suspended, returns at once and leaves
    relayer, suspended calls and trace as they are (no proof request, no
    submission); a [handleEvent] for an identity without ticket inserts
    the ticket in the very job that found it missing; tickets and
    suspended calls correspond; and no two suspended calls work on the
    same identity. *)
Theorem at_most_one_in_flight r inputs s :
  processingEvents r = ∅ →
  run ethers_id invalidTarget (boot r) inputs = Some s →
  (∀ eventData eventData',
     identity eventData' = identity eventData →
     is_Some (processingEvents (self s) !! eventId eventData) →
     step ethers_id invalidTarget s (HandleEvent eventData') = Some s)
  ∧ (∀ tid p eventData',
       pending s !! tid = Some p →
       identity eventData' = identity (event p) →
       step ethers_id invalidTarget s (HandleEvent eventData') = Some s)
  ∧ (∀ eventData,
       processingEvents (self s) !! eventId eventData = None →
       ∃ s', step ethers_id invalidTarget s (HandleEvent eventData) = Some s'
         ∧ processingEvents (self s') !! eventId eventData = Some true
         ∧ pending s' = <[next s := AwaitsProof eventData]> (pending s)
         ∧ trace s' = trace s ++ [(next s, LogNewBatch eventData)])
  ∧ (∀ k, is_Some (processingEvents (self s) !! k) ↔
          ∃ tid p, pending s !! tid = Some p ∧ eventId (event p) = k)
  ∧ (∀ t1 t2 p1 p2,
       pending s !! t1 = Some p1 → pending s !! t2 = Some p2 →
       identity (event p1) = identity (event p2) → t1 = t2).
Proof.
  intros Hr Hrun.
  assert (exclusive s) as (H1 & H2 & H3).
  { eapply exclusive_run; [|done]. by apply exclusive_boot. }
  split_and!.
  - intros eventData eventData' Hid Hin. simpl.
    rewrite handleEvent_call_duplicate; [done|].
    by rewrite (eventId_identity _ _ Hid).
  - intros tid p eventData' Hp Hid. simpl.
    rewrite handleEvent_call_duplicate; [done|].
    rewrite (eventId_identity _ _ Hid). by apply (H1 tid).
  - intros eventData Hnone. eexists. split.
    { simpl. by rewrite handleEvent_call_fresh. }
    simpl. by rewrite lookup_insert_eq.
  - intros k. split; [apply H2|].
    intros (tid & p & Hp & <-). by apply (H1 tid).
  - intros t1 t2 p1 p2 Hp1 Hp2 Hid. eapply H3; [done..|].
    by apply eventId_identity.
Qed.

(** C2.  Whenever a job ends a suspended [handleEvent] call, the ticket
    of its identity is gone from the in-flight map in the resulting state,
    and a [handleEvent] for the same identity then starts afresh: new
    ticket, new suspended call awaiting its proof.  The call ends when the
    proof acquisition throws (the error is logged, nothing is submitted)
    and when all update promises have settled, whatever they settled
    with. *)
Theorem ticket_released_on_every_path s :
  (∀ i s' tid p,
     step ethers_id invalidTarget s i = Some s' →
     pending s !! tid = Some p → pending s' !! tid = None →
     processingEvents (self s') !! eventId (event p) = None
     ∧ ∀ eventData',
         identity eventData' = identity (event p) →
         ∃ s'', step ethers_id invalidTarget s' (HandleEvent eventData') = Some s''
           ∧ processingEvents (self s'') !! eventId (event p) = Some true
           ∧ pending s'' = <[next s' := AwaitsProof eventData']> (pending s')
           ∧ trace s'' = trace s' ++ [(next s', LogNewBatch eventData')])
  ∧ (∀ tid eventData w evs e,
       pending s !! tid = Some (AwaitsProof eventData) →
       getPolymerProof ethers_id poll_fuel (self s) w
         (chainId (EventData.chain eventData)) (EventData.blockNumber eventData)
         (EventData.transactionHash eventData) (EventData.logIndex eventData)
       = Some (evs, Throws e) →
       ∃ s', step ethers_id invalidTarget s (ProofSettles tid w) = Some s'
         ∧ pending s' !! tid = None
         ∧ trace s' = trace s ++ tag tid (evs ++ [LogProcessingError e]))
  ∧ (∀ tid eventData proof proofTime targetChains updatePromises results,
       pending s !! tid
       = Some (AwaitsAllSettled eventData proof proofTime targetChains updatePromises) →
       allSettled updatePromises = Some results →
       ∃ s', step ethers_id invalidTarget s (AllSettled tid) = Some s'
         ∧ pending s' !! tid = None
         ∧ trace s' = trace s
                      ++ [(tid, LogResults (zip (name <$> targetChains) results) proofTime)]).
Proof.
  split_and!.
  - intros i s' tid p Hstep Hp Hgone.
    assert (processingEvents (self s') !! eventId (event p) = None) as Hfree.
    { destruct i as [eventData|tid' w|tid' index a|tid']; simpl in Hstep.
      - injection Hstep as <-. exfalso. revert Hgone. unfold handleEvent_call.
        destruct (decide _); simpl; [by rewrite Hp|].
        destruct (decide (next s = tid)) as [<-|Hne];
          by rewrite ?lookup_insert_eq, ?lookup_insert_ne, ?Hp by done.
      - destruct (pending s !! tid') as [[eventData|]|] eqn:Hp'; [|done..].
        destruct (getPolymerProof _ _ _ _ _ _ _ _) as [[evs [[proof proofTime]|e]]|];
          [..|done]; simpl in Hstep; injection Hstep as <-; simpl in *.
        + exfalso. destruct (decide (tid' = tid)) as [<-|Hne];
            by rewrite ?lookup_insert_eq, ?lookup_insert_ne, ?Hp in Hgone by done.
        + destruct (decide (tid' = tid)) as [<-|Hne].
          * rewrite Hp in Hp'. injection Hp' as ->. simpl.
            by rewrite lookup_delete_eq.
          * by rewrite lookup_delete_ne, Hp in Hgone.
      - destruct (pending s !! tid')
          as [[|eventData proof proofTime targets promises]|] eqn:Hp'; [done| |done].
        unfold update_settles in Hstep.
        destruct (targets !! index), (promises !! index) as [[]|]; try done.
        injection Hstep as <-. simpl in *. exfalso.
        destruct (decide (tid' = tid)) as [<-|Hne];
          by rewrite ?lookup_insert_eq, ?lookup_insert_ne, ?Hp in Hgone by done.
      - destruct (pending s !! tid')
          as [[|eventData proof proofTime targets promises]|] eqn:Hp'; [done| |done].
        destruct (allSettled promises) as [results|]; [|done].
        simpl in Hstep. injection Hstep as <-. simpl in *.
        destruct (decide (tid' = tid)) as [<-|Hne].
        + rewrite Hp in Hp'. injection Hp' as ->. simpl.
          by rewrite lookup_delete_eq.
        + by rewrite lookup_delete_ne, Hp in Hgone. }
    split; [done|]. intros eventData' Hid.
    apply eventId_identity in Hid. eexists. split.
    { simpl. rewrite handleEvent_call_fresh by (by rewrite Hid). reflexivity. }
    simpl. by rewrite Hid, lookup_insert_eq.
  - intros tid eventData w evs e Hp Hgot. eexists. split.
    { simpl. rewrite Hp, Hgot. reflexivity. }
    simpl. by rewrite lookup_delete_eq.
  - intros tid eventData proof proofTime targetChains updatePromises results Hp Hall.
    eexists. split.
    { simpl. rewrite Hp, Hall. reflexivity. }
    simpl. by rewrite lookup_delete_eq.
Qed.

End InFlightClaims.

Example relay_scenario :
  Relayer.run Fixture.id Fixture.invalidTarget (Relayer.boot (Relayer.new Fixture.env))
    [Relayer.HandleEvent Fixture.eventData;
     Relayer.HandleEvent Fixture.eventData;
     Relayer.ProofSettles 0 Fixture.service;
     Relayer.UpdateSettles 0 1 (Relayer.SendFails (mkError "transport error"));
     Relayer.AllSettled 0]
  = Some (Relayer.mkSys (Relayer.new Fixture.env) ∅ 1
      (Relayer.tag 0
         [Relayer.LogNewBatch Fixture.eventData;
          Relayer.GetTransactionReceipt (Some "https://optimism.example") "0xtx";
          Relayer.RequestProof 11155420 1000 5 1;
          Relayer.QueryProof (Some "job-1"); Relayer.Sleep 500;
          Relayer.QueryProof (Some "job-1"); Relayer.Sleep 500;
          Relayer.QueryProof (Some "job-1");
          Relayer.LogUpdating "Base Sepolia";
          Relayer.LogUpdating "Arbitrum Sepolia";
          Relayer.Submit Fixture.arbitrum (Relayer.hexOfBase64 "cHJvb2Y=");
          Relayer.Settled 1
            (Throws (mkError "Failed to update Arbitrum Sepolia: transport error"));
          Relayer.LogResults
            [("Base Sepolia", Throws Fixture.invalidTarget);
             ("Arbitrum Sepolia",
              Throws (mkError "Failed to update Arbitrum Sepolia: transport error"))]
            "1.50"])).
Proof. vm_compute. reflexivity. Qed.

Lemma at_most_one_in_flight_witness :
  ∃ s, Relayer.run Fixture.id Fixture.invalidTarget (Relayer.boot (Relayer.new Fixture.env))
         [Relayer.HandleEvent Fixture.eventData] = Some s
    ∧ Relayer.step Fixture.id Fixture.invalidTarget s (Relayer.HandleEvent Fixture.eventData) = Some s.
Proof.
  eexists. split; [vm_compute; reflexivity|].
  match goal with |- Relayer.step _ _ ?s _ = _ =>
    destruct (at_most_one_in_flight Fixture.id Fixture.invalidTarget (Relayer.new Fixture.env)
                [Relayer.HandleEvent Fixture.eventData] s eq_refl
                ltac:(vm_compute; reflexivity)) as (H & _)
  end.
  apply (H Fixture.eventData Fixture.eventData eq_refl).
  vm_compute. by eexists.
Defined.

Lemma ticket_released_on_every_path_witness :
  ∃ s s', Relayer.run Fixture.id Fixture.invalidTarget (Relayer.boot (Relayer.new Fixture.env))
            [Relayer.HandleEvent Fixture.eventData;
             Relayer.ProofSettles 0 Fixture.service;
             Relayer.UpdateSettles 0 1 (Relayer.SendFails (mkError "transport error"))]
          = Some s
    ∧ Relayer.step Fixture.id Fixture.invalidTarget s (Relayer.AllSettled 0) = Some s'
    ∧ Relayer.processingEvents (Relayer.self s') !! Relayer.eventId Fixture.eventData = None.
Proof.
  eexists. eexists. split; [vm_compute; reflexivity|].
  match goal with |- Relayer.step _ _ ?s _ = Some _ ∧ _ =>
    split; [vm_compute; reflexivity|];
    match goal with |- Relayer.processingEvents (Relayer.self ?s') !! _ = _ =>
      refine (proj1 (proj1 (ticket_released_on_every_path Fixture.id Fixture.invalidTarget s)
                       (Relayer.AllSettled 0) s' 0%nat
                       (Relayer.AwaitsAllSettled Fixture.eventData _ _ _ _)
                       _ _ _))
    end
  end.
  - vm_compute. reflexivity.
  - vm_compute. reflexivity.
  - vm_compute. reflexivity.
Defined.

(** ** Relayer: the fan-out in the event loop *)

Section DispatchClaims.
Import Relayer.

Variable ethers_id : string → string.
Variable invalidTarget : Error.

Implicit Types (s : Sys) (p : Pending) (eventData : EventData.t).


Lemma filter_elem_of {A} (f : A → bool) (l : list A) x :
  x ∈ List.filter f l ↔ x ∈ l ∧ f x = true.
Proof. by rewrite !list_elem_of_In, List.filter_In. Qed.

Lemma filter_NoDup {A} (f : A → bool) (l : list A) :
  NoDup l → NoDup (List.filter f l).
Proof.
  induction 1 as [|x l Hx Hl IH]; simpl; [constructor|].
  destruct (f x); [|done]. constructor; [|done].
  rewrite filter_elem_of. by intros [? _].
Qed.



















End DispatchClaims.



(** ** InvoiceIDBatcher *)

Section ContractFacts.
Import InvoiceIDBatcher.

Variable keccak256 : bytes → Z.
Variable abi_decode : bytes → option (list Z).

Implicit Types (st : State) (txs : list (Z * Tx)).

Lemma copy_spec pending k : ∀ i currentBatch,
  (i + k = length pending)%nat →
  length currentBatch = length pending →
  take i currentBatch = take i pending →
  copy pending (seq i k) currentBatch = Some pending.
Proof.
  induction k as [|k IH]; intros i currentBatch Hik Hlen Htake; simpl.
  - rewrite !take_ge in Htake by lia. by subst.
  - destruct (lookup_lt_is_Some_2 pending i) as [x Hx]; [lia|].
    rewrite Hx, decide_True by lia.
    apply IH; [lia|by rewrite length_insert|].
    rewrite (take_S_r pending i x Hx), <- Htake.
    rewrite take_insert, decide_True by lia.
    rewrite <- (take_drop i (take (S i) currentBatch)) at 1.
    rewrite take_take, Nat.min_l by lia.
    destruct (lookup_lt_is_Some_2 currentBatch i) as [y Hy]; [lia|].
    rewrite (take_S_r currentBatch i y Hy).
    rewrite insert_app_r_alt by (rewrite length_take; lia).
    rewrite length_take, Nat.min_l, Nat.sub_diag by lia. simpl.
    rewrite drop_app_length'; [done|]. rewrite length_take. lia.
Qed.

Lemma batchInvoices_nonempty sender st :
  pendingInvoices st ≠ [] →
  batchInvoices sender st
  = Success (mkState (polymerProver st) (admin st) []
               (usedProofHashes st) (trustedSourceContracts st))
            [InvoiceBatch sender (pendingInvoices st)].
Proof.
  unfold batchInvoices. intros Hne.
  destruct (pendingInvoices st) as [|h hs] eqn:Hp; [done|].
  change (negb (0 <? length (h :: hs))%nat) with false. cbv iota.
  rewrite (copy_spec (h :: hs) (length (h :: hs)) 0); [done|done| |done].
  by rewrite length_replicate.
Qed.

Lemma batchInvoices_empty sender st :
  pendingInvoices st = [] →
  batchInvoices sender st = Reverted (Some "No pending invoices").
Proof. unfold batchInvoices. by intros ->. Qed.

(** X1.  [batchInvoices] reverts with "No pending invoices" exactly on an
    empty pending list; otherwise it logs one [InvoiceBatch] that carries
    the pending hashes, all of them and in their order, empties the
    pending list and touches nothing else. *)
Theorem batch_carries_pending sender st :
  (pendingInvoices st = [] →
   batchInvoices sender st = Reverted (Some "No pending invoices"))
  ∧ (pendingInvoices st ≠ [] →
     batchInvoices sender st
     = Success (mkState (polymerProver st) (admin st) []
                  (usedProofHashes st) (trustedSourceContracts st))
               [InvoiceBatch sender (pendingInvoices st)]).
Proof.
  split; [apply batchInvoices_empty|apply batchInvoices_nonempty].
Qed.

(** What a successful transaction is and does. *)
Lemma exec_success chainid st sender tx st' logs :
  exec keccak256 abi_decode chainid st sender tx = Success st' logs →
  (∃ c a, tx = SetTrustedSourceContract c a
     ∧ sender = admin st ∧ c ≠ chainid ∧ a ≠ 0 ∧ logs = []
     ∧ st' = mkState (polymerProver st) (admin st) (pendingInvoices st)
               (usedProofHashes st) (<[c := a]> (trustedSourceContracts st)))
  ∨ (∃ h, tx = NewInvoiceTx h ∧ h ≠ 0 ∧ logs = [NewInvoice sender h]
       ∧ st' = mkState (polymerProver st) (admin st) (pendingInvoices st ++ [h])
                 (usedProofHashes st) (trustedSourceContracts st))
  ∨ (tx = BatchInvoices ∧ pendingInvoices st ≠ []
       ∧ logs = [InvoiceBatch sender (pendingInvoices st)]
       ∧ st' = mkState (polymerProver st) (admin st) []
                 (usedProofHashes st) (trustedSourceContracts st))
  ∨ (∃ proof v slack invoices,
       tx = InvoicesFromSource proof (Validates v) slack
       ∧ sourceChainId v ≠ chainid
       ∧ trusted st (sourceChainId v) ≠ 0
       ∧ sourceContract v = trusted st (sourceChainId v)
       ∧ used st (keccak256 proof) = false
       ∧ abi_decode (data v) = Some invoices
       ∧ logs = (λ invoice,
                   InvoiceReceived
                     (to_address (mload (drop 32 (topics v ++ slack)))) invoice)
                <$> invoices
       ∧ st' = mkState (polymerProver st) (admin st) (pendingInvoices st)
                 (<[keccak256 proof := true]> (usedProofHashes st))
                 (trustedSourceContracts st)).
Proof.
  destruct tx as [c a|h| |proof answer slack]; simpl.
  - unfold setTrustedSourceContract.
    destruct (_ && _); cbn [negb]; [|done].
    destruct (Z.eqb_spec sender (admin st)); simpl; [|done].
    destruct (Z.eqb_spec c chainid); simpl; [done|].
    destruct (Z.eqb_spec a 0); simpl; [done|].
    intros [= <- <-]. left. by exists c, a.
  - unfold newInvoice. destruct (Z.eqb_spec h 0); simpl; [done|].
    intros [= <- <-]. right. left. by exists h.
  - destruct (pendingInvoices st) as [|h hs] eqn:Hp.
    + by rewrite batchInvoices_empty.
    + rewrite batchInvoices_nonempty by (by rewrite Hp).
      intros [= <- <-]. right. right. left. by rewrite Hp.
  - unfold invoicesFromSource. destruct answer as [reason|v]; [done|].
    destruct (_ && _); cbn [negb]; [|done].
    destruct (Z.eqb_spec (sourceChainId v) chainid); simpl; [done|].
    destruct (Z.eqb_spec (trusted st (sourceChainId v)) 0); simpl; [done|].
    destruct (Z.eqb_spec (sourceContract v) (trusted st (sourceChainId v)));
      simpl; [|done].
    destruct (used st (keccak256 proof)) eqn:Hused; simpl; [done|].
    destruct (abi_decode (data v)) as [invoices|] eqn:Hdec; [|done].
    intros [= <- <-]. right. right. right.
    by exists proof, v, slack, invoices.
Qed.

Lemma omap_fmap_none {A B C} (f : B → option C) (g : A → B) (l : list A) :
  (∀ x, f (g x) = None) → omap f (g <$> l) = [].
Proof.
  intros Hnone. induction l as [|x l IH]; [done|].
  rewrite fmap_cons.
  change (omap f (g x :: (g <$> l)))
    with (match f (g x) with
          | Some y => y :: omap f (g <$> l)
          | None => omap f (g <$> l)
          end).
  by rewrite Hnone.
Qed.

Lemma history_app chainid txs1 txs2 : ∀ st,
  history keccak256 abi_decode chainid st (txs1 ++ txs2)
  = let '(st1, logs1) := history keccak256 abi_decode chainid st txs1 in
    let '(st2, logs2) := history keccak256 abi_decode chainid st1 txs2 in
    (st2, logs1 ++ logs2).
Proof.
  induction txs1 as [|[sender tx] txs1 IH]; intros st; simpl.
  - by destruct (history _ _ _ _ txs2).
  - destruct (exec _ _ _ _ _ _) as [st' logs|]; [|apply IH].
    rewrite IH. destruct (history _ _ _ st' txs1) as [st1 logs1].
    destruct (history _ _ _ st1 txs2) as [st2 logs2]. by rewrite app_assoc.
Qed.

(** X2.  No invoice is lost, duplicated or reordered: after any
    transactions, the hashes of all [InvoiceBatch] logs followed by the
    hashes still pending are the hashes pending at the start followed by
    those of the [NewInvoice] logs. *)
Theorem invoices_conserved chainid txs : ∀ st,
  batched (history keccak256 abi_decode chainid st txs).2
  ++ pendingInvoices (history keccak256 abi_decode chainid st txs).1
  = pendingInvoices st
    ++ announced (history keccak256 abi_decode chainid st txs).2.
Proof.
  induction txs as [|[sender tx] txs IH]; intros st; simpl.
  { unfold announced, batched. simpl. by rewrite app_nil_r. }
  destruct (exec _ _ _ _ _ _) as [st' logs|] eqn:Hexec; [|apply IH].
  specialize (IH st').
  destruct (history _ _ _ st' txs) as [st'' logs'']. simpl in *.
  unfold announced, batched in *. rewrite !omap_app.
  rewrite concat_app.
  apply exec_success in Hexec
    as [(c & a & -> & _ & _ & _ & -> & ->)
       |[(h & -> & _ & -> & ->)
        |[(-> & _ & -> & ->)
         |(proof & v & slack & invoices & -> & _ & _ & _ & _ & _ & -> & ->)]]];
    simpl in *.
  - exact IH.
  - rewrite IH. by rewrite <- app_assoc.
  - rewrite app_nil_r, <- app_assoc, IH. done.
  - rewrite !omap_fmap_none by done. exact IH.
Qed.

Lemma history_nonzero chainid txs : ∀ st,
  (∀ h, h ∈ pendingInvoices st → h ≠ 0) →
  (∀ h, h ∈ pendingInvoices (history keccak256 abi_decode chainid st txs).1 → h ≠ 0)
  ∧ (∀ sender invoices,
       InvoiceBatch sender invoices ∈ (history keccak256 abi_decode chainid st txs).2 →
       invoices ≠ [] ∧ ∀ h, h ∈ invoices → h ≠ 0).
Proof.
  induction txs as [|[sender tx] txs IH]; intros st Hst; simpl.
  { split; [done|]. intros ? ? Hin. by apply elem_of_nil in Hin. }
  destruct (exec _ _ _ _ _ _) as [st' logs|] eqn:Hexec; [|by apply IH].
  assert ((∀ h, h ∈ pendingInvoices st' → h ≠ 0)
          ∧ ∀ sender' invoices, InvoiceBatch sender' invoices ∈ logs →
              invoices ≠ [] ∧ ∀ h, h ∈ invoices → h ≠ 0) as [Hst' Hlogs].
  { apply exec_success in Hexec
      as [(c & a & -> & _ & _ & _ & -> & ->)
         |[(h & -> & Hh & -> & ->)
          |[(-> & Hne & -> & ->)
           |(proof & v & slack & invoices & -> & _ & _ & _ & _ & _ & -> & ->)]]];
      simpl.
    - split; [done|]. intros ? ? Hin. by apply elem_of_nil in Hin.
    - split.
      + intros h' [Hin|Hin%list_elem_of_singleton]%elem_of_app; [auto|by subst].
      + intros ? ? Hin%list_elem_of_singleton. discriminate.
    - split.
      + intros h Hin. by apply elem_of_nil in Hin.
      + intros ? ? Hin%list_elem_of_singleton. injection Hin as -> ->. by split.
    - split; [done|].
      intros ? ? (invoice & [=] & _)%list_elem_of_fmap. }
  destruct (IH st' Hst') as [IH1 IH2].
  destruct (history _ _ _ st' txs) as [st'' logs'']. simpl in *.
  split; [done|]. intros sender' invoices [Hin|Hin]%elem_of_app; eauto.
Qed.

(** X3.  From deployment on, whatever is sent to the contract, no zero
    hash is ever pending, and every [InvoiceBatch] it logs carries at
    least one hash and no zero hash. *)
Theorem batches_nonempty_nonzero chainid prover deployer txs :
  (∀ h, h ∈ pendingInvoices
              (history keccak256 abi_decode chainid (constructor prover deployer) txs).1 →
        h ≠ 0)
  ∧ (∀ sender invoices,
       InvoiceBatch sender invoices
       ∈ (history keccak256 abi_decode chainid (constructor prover deployer) txs).2 →
       invoices ≠ [] ∧ ∀ h, h ∈ invoices → h ≠ 0).
Proof.
  apply history_nonzero. intros h Hin. by apply elem_of_nil in Hin.
Qed.

Lemma used_insert st proofHash h :
  default false (<[proofHash := true]> (usedProofHashes st) !! h)
  = if decide (proofHash = h) then true else used st h.
Proof.
  destruct (decide (proofHash = h)) as [->|Hne].
  - by rewrite lookup_insert_eq.
  - by rewrite lookup_insert_ne.
Qed.

Lemma history_used chainid txs : ∀ st h,
  used st h = true →
  used (history keccak256 abi_decode chainid st txs).1 h = true.
Proof.
  induction txs as [|[sender tx] txs IH]; intros st h Hused; simpl; [done|].
  destruct (exec _ _ _ _ _ _) as [st' logs|] eqn:Hexec; [|by apply IH].
  assert (used st' h = true) as Hused'.
  { apply exec_success in Hexec
      as [(c & a & -> & _ & _ & _ & -> & ->)
         |[(h' & -> & _ & -> & ->)
          |[(-> & _ & -> & ->)
           |(proof & v & slack & invoices & -> & _ & _ & _ & _ & _ & -> & ->)]]];
      try done.
    unfold used. simpl. rewrite used_insert. by destruct (decide _). }
  specialize (IH st' h Hused').
  by destruct (history _ _ _ st' txs).
Qed.

(** X4.  Replay protection: once [invoicesFromSource] has accepted a
    proof, no later [invoicesFromSource] with the same proof bytes
    succeeds, whoever sends it, whatever the prover answers then and
    whatever was sent to the contract in between. *)
Theorem proof_accepted_once chainid st sender proof answer slack st1 logs :
  exec keccak256 abi_decode chainid st sender (InvoicesFromSource proof answer slack)
  = Success st1 logs →
  ∀ txs sender' answer' slack',
    ∃ reason,
      exec keccak256 abi_decode chainid
        (history keccak256 abi_decode chainid st1 txs).1
        sender' (InvoicesFromSource proof answer' slack')
      = Reverted reason.
Proof.
  intros Hexec txs sender' answer' slack'.
  assert (used st1 (keccak256 proof) = true) as Hused.
  { apply exec_success in Hexec
      as [(? & ? & [=] & _)|[(? & [=] & _)|[([=] & _)
         |(proof' & v & slack0 & invoices & [= <- _ _] & _ & _ & _ & _ & _ & _ & ->)]]].
    unfold used. simpl. by rewrite lookup_insert_eq. }
  apply (history_used chainid txs) in Hused.
  destruct (exec _ _ _ _ sender' _) as [st2 logs2|reason] eqn:Hexec2; [|by eexists].
  apply exec_success in Hexec2
    as [(? & ? & [=] & _)|[(? & [=] & _)|[([=] & _)
       |(proof' & v & slack0 & invoices & [= <- _ _] & _ & _ & _ & Hfresh & _)]]].
  congruence.
Qed.

(** What every history keeps of the trust configuration. *)
Lemma history_trust chainid deployer txs : ∀ st (done : list (Z * Tx)),
  admin st = deployer →
  trusted st chainid = 0 →
  (∀ c, trusted st c ≠ 0 →
        (deployer, SetTrustedSourceContract c (trusted st c)) ∈ done) →
  let st' := (history keccak256 abi_decode chainid st txs).1 in
  admin st' = deployer
  ∧ polymerProver st' = polymerProver st
  ∧ trusted st' chainid = 0
  ∧ (∀ c, trusted st' c ≠ 0 →
          (deployer, SetTrustedSourceContract c (trusted st' c)) ∈ done ++ txs)
  ∧ ((∀ sender tx, (sender, tx) ∈ txs → sender ≠ deployer) →
     trustedSourceContracts st' = trustedSourceContracts st).
Proof.
  induction txs as [|[sender tx] txs IH]; intros st done Hadmin Hown Hprov; simpl.
  { rewrite app_nil_r. done. }
  destruct (exec _ _ _ _ _ _) as [st' logs|] eqn:Hexec.
  - assert (admin st' = deployer ∧ polymerProver st' = polymerProver st
            ∧ trusted st' chainid = 0
            ∧ (∀ c, trusted st' c ≠ 0 →
                    (deployer, SetTrustedSourceContract c (trusted st' c))
                    ∈ done ++ [(sender, tx)])
            ∧ (sender ≠ deployer →
               trustedSourceContracts st' = trustedSourceContracts st))
      as (Ha & Hp & Ho & Hpr & Hsame).
    { apply exec_success in Hexec
        as [(c & a & -> & -> & Hc & Ha & -> & ->)
           |[(h & -> & _ & -> & ->)
            |[(-> & _ & -> & ->)
             |(proof & v & slack & invoices & -> & _ & _ & _ & _ & _ & -> & ->)]]];
        simpl; (split; [done|]); (split; [done|]).
      - unfold trusted in *. simpl. split.
        { by rewrite lookup_insert_ne. }
        split; [|done]. intros c'. destruct (decide (c = c')) as [<-|Hne].
        + rewrite lookup_insert_eq. simpl. intros _.
          apply elem_of_app. right. rewrite Hadmin. left.
        + rewrite lookup_insert_ne by done. intros Hc'.
          apply elem_of_app. left. by apply Hprov.
      - split; [done|]. split; [|done]. intros c Hc.
        apply elem_of_app. left. by apply Hprov.
      - split; [done|]. split; [|done]. intros c Hc.
        apply elem_of_app. left. by apply Hprov.
      - split; [done|]. split; [|done]. intros c Hc.
        apply elem_of_app. left. by apply Hprov. }
    destruct (IH st' (done ++ [(sender, tx)]) Ha Ho Hpr) as (I1 & I2 & I3 & I4 & I5).
    destruct (history _ _ _ st' txs) as [st'' logs'']. simpl in *.
    split; [done|]. split; [congruence|]. split; [done|]. split.
    + intros c Hc. specialize (I4 c Hc). by rewrite <- app_assoc in I4.
    + intros Hothers. rewrite I5, Hsame; [done|..].
      * apply (Hothers sender tx). left.
      * intros s t Hin. apply (Hothers s t). by right.
  - destruct (IH st done Hadmin Hown Hprov) as (I1 & I2 & I3 & I4 & I5).
    split; [done|]. split; [done|]. split; [done|]. split.
    + intros c Hc. specialize (I4 c Hc).
      apply elem_of_app in I4 as [?|?]; apply elem_of_app; [by left|right; by right].
    + intros Hothers. apply I5. intros s t Hin. apply (Hothers s t). by right.
Qed.

(** X5.  From deployment on, whatever is sent to the contract: the admin
    stays the deployer and the prover the one given at deployment; the
    contract never trusts a source for its own chain; every trusted
    source was set by a transaction of the admin; and transactions of
    others leave the trusted sources as they are. *)
Theorem trust_is_the_admins chainid prover deployer txs :
  let st := (history keccak256 abi_decode chainid (constructor prover deployer) txs).1 in
  admin st = deployer
  ∧ polymerProver st = prover
  ∧ trusted st chainid = 0
  ∧ (∀ c, trusted st c ≠ 0 →
          (deployer, SetTrustedSourceContract c (trusted st c)) ∈ txs)
  ∧ (∀ txs', (∀ sender tx, (sender, tx) ∈ txs' → sender ≠ deployer) →
       trustedSourceContracts (history keccak256 abi_decode chainid st txs').1
       = trustedSourceContracts st).
Proof.
  intros st.
  destruct (history_trust chainid deployer txs (constructor prover deployer) [])
    as (H1 & H2 & H3 & H4 & _); [done..|].
  split; [done|]. split; [done|]. split; [done|]. split; [done|].
  intros txs' Hothers.
  destruct (history_trust chainid deployer txs' st txs) as (_ & _ & _ & _ & H5);
    [done..|].
  by apply H5.
Qed.

(** X6.  From deployment on, [invoicesFromSource] accepts a proof only
    when the prover validates it as an event of another chain, emitted
    there by the very contract the admin has set as trusted source for
    that chain in an earlier transaction; it then logs one
    [InvoiceReceived] per decoded invoice, in order, marks the proof used
    and changes nothing else. *)
Theorem relay_only_from_configured_source chainid prover deployer txs sender
    proof answer slack st' logs :
  let st := (history keccak256 abi_decode chainid (constructor prover deployer) txs).1 in
  exec keccak256 abi_decode chainid st sender (InvoicesFromSource proof answer slack)
  = Success st' logs →
  ∃ v invoices,
    answer = Validates v
    ∧ sourceChainId v ≠ chainid
    ∧ sourceContract v ≠ 0
    ∧ (deployer, SetTrustedSourceContract (sourceChainId v) (sourceContract v)) ∈ txs
    ∧ abi_decode (data v) = Some invoices
    ∧ logs = (λ invoice,
                InvoiceReceived (to_address (mload (drop 32 (topics v ++ slack))))
                  invoice) <$> invoices
    ∧ pendingInvoices st' = pendingInvoices st
    ∧ trustedSourceContracts st' = trustedSourceContracts st
    ∧ admin st' = admin st
    ∧ used st' (keccak256 proof) = true.
Proof.
  intros st Hexec.
  destruct (history_trust chainid deployer txs (constructor prover deployer) [])
    as (_ & _ & _ & Hprov & _); [done..|]. fold st in Hprov.
  apply exec_success in Hexec
    as [(? & ? & [=] & _)|[(? & [=] & _)|[([=] & _)
       |(proof' & v & slack0 & invoices & [= <- -> <-] & Hc & Ht & Heq & _ & Hdec & -> & ->)]]].
  exists v, invoices. split; [done|]. split; [done|]. split; [congruence|].
  split; [rewrite Heq; by apply Hprov|]. split; [done|]. split; [done|].
  simpl. split; [done|]. split; [done|]. split; [done|].
  unfold used. simpl. by rewrite lookup_insert_eq.
Qed.

Lemma mload_within (bs slack : bytes) :
  (32 ≤ length bs)%nat → mload (bs ++ slack) = be (take 32 bs).
Proof.
  intros Hlen. unfold mload.
  rewrite <- (assoc_L (++)). by rewrite take_app_le.
Qed.

(** X7.  When the topics the prover returns hold at least 64 bytes, the
    original sender of every [InvoiceReceived] that [invoicesFromSource]
    logs is the low 160 bits of the second 32-byte topic, whatever lies in
    memory behind the topics; and one log is emitted per decoded
    invoice. *)
Theorem received_sender_is_second_topic chainid st proof v slack st' logs :
  (64 ≤ length (topics v))%nat →
  invoicesFromSource keccak256 abi_decode chainid st proof (Validates v) slack
  = Success st' logs →
  ∃ invoices,
    abi_decode (data v) = Some invoices
    ∧ logs = (λ invoice,
                InvoiceReceived (be (take 32 (drop 32 (topics v))) mod 2 ^ 160) invoice)
             <$> invoices
    ∧ length logs = length invoices
    ∧ 0 ≤ be (take 32 (drop 32 (topics v))) mod 2 ^ 160 < 2 ^ 160.
Proof.
  intros Hlen Hexec.
  apply (exec_success chainid st 0 (InvoicesFromSource proof (Validates v) slack)) in Hexec
    as [(? & ? & [=] & _)|[(? & [=] & _)|[([=] & _)
       |(proof' & v' & slack0 & invoices & [= <- <- <-] & _ & _ & _ & _ & Hdec & -> & _)]]].
  exists invoices. split; [done|].
  rewrite drop_app_le by lia.
  rewrite mload_within by (rewrite length_drop; lia).
  split; [done|]. split; [by rewrite length_fmap|].
  apply Z.mod_pos_bound. lia.
Qed.

End ContractFacts.

Example contract_relay :
  InvoiceIDBatcher.history Sample.keccak256 Sample.abi_decode Sample.chainid
    Sample.configured
    [(3, InvoiceIDBatcher.NewInvoiceTx 11);
     (3, InvoiceIDBatcher.NewInvoiceTx 0);
     (4, InvoiceIDBatcher.NewInvoiceTx 12);
     (8, Sample.relay);
     (4, InvoiceIDBatcher.BatchInvoices);
     (8, Sample.relay);
     (4, InvoiceIDBatcher.BatchInvoices)]
  = (InvoiceIDBatcher.mkState 9 5 [] {[ 258 := true ]} {[ 10 := 777 ]},
     [InvoiceIDBatcher.NewInvoice 3 11;
      InvoiceIDBatcher.NewInvoice 4 12;
      InvoiceIDBatcher.InvoiceReceived 42 7;
      InvoiceIDBatcher.InvoiceReceived 42 8;
      InvoiceIDBatcher.InvoiceBatch 4 [11; 12]]).
Proof. vm_compute. reflexivity. Qed.

(** Topics shorter than 64 bytes: the load runs into the memory behind
    them.  With 16 bytes of topics the word loaded starts 16 bytes into
    that memory. *)
Example relay_with_short_topics :
  InvoiceIDBatcher.invoicesFromSource Sample.keccak256 Sample.abi_decode Sample.chainid
    Sample.configured [Byte.x01]
    (InvoiceIDBatcher.Validates
       (InvoiceIDBatcher.mkValidated 10 777 (replicate 16 Byte.xff) [Byte.x07]))
    (replicate 47 Byte.x00 ++ [Byte.x2a; Byte.xff])
  = InvoiceIDBatcher.Success
      (InvoiceIDBatcher.mkState 9 5 [] {[ 1 := true ]} {[ 10 := 777 ]})
      [InvoiceIDBatcher.InvoiceReceived 42 7].
Proof. vm_compute. reflexivity. Qed.

Lemma batch_carries_pending_witness :
  InvoiceIDBatcher.batchInvoices 4
    (InvoiceIDBatcher.mkState 9 5 [11; 12] ∅ ∅)
  = InvoiceIDBatcher.Success (InvoiceIDBatcher.mkState 9 5 [] ∅ ∅)
      [InvoiceIDBatcher.InvoiceBatch 4 [11; 12]].
Proof.
  exact (proj2 (batch_carries_pending 4 (InvoiceIDBatcher.mkState 9 5 [11; 12] ∅ ∅))
           ltac:(discriminate)).
Defined.

Lemma proof_accepted_once_witness :
  ∃ reason,
    InvoiceIDBatcher.exec Sample.keccak256 Sample.abi_decode Sample.chainid
      (InvoiceIDBatcher.history Sample.keccak256 Sample.abi_decode Sample.chainid
         Sample.configured
         [(8, Sample.relay); (3, InvoiceIDBatcher.NewInvoiceTx 11)]).1
      6 Sample.relay
    = InvoiceIDBatcher.Reverted reason.
Proof.
  destruct (InvoiceIDBatcher.exec Sample.keccak256 Sample.abi_decode Sample.chainid
              Sample.configured 8 Sample.relay) as [st1 logs|] eqn:Hexec;
    [|by vm_compute in Hexec].
  destruct (proof_accepted_once Sample.keccak256 Sample.abi_decode Sample.chainid
              Sample.configured 8 _ _ _ st1 logs Hexec
              [(3, InvoiceIDBatcher.NewInvoiceTx 11)] 6
              (InvoiceIDBatcher.Validates
                 (InvoiceIDBatcher.mkValidated 10 777 Sample.topics64
                    [Byte.x07; Byte.x08])) [])
    as [reason Hrev].
  exists reason.
  change (InvoiceIDBatcher.history Sample.keccak256 Sample.abi_decode Sample.chainid
            Sample.configured
            [(8, Sample.relay); (3, InvoiceIDBatcher.NewInvoiceTx 11)])
    with (match InvoiceIDBatcher.exec Sample.keccak256 Sample.abi_decode Sample.chainid
                  Sample.configured 8 Sample.relay with
          | InvoiceIDBatcher.Success st' logs0 =>
              let '(st'', logs') :=
                InvoiceIDBatcher.history Sample.keccak256 Sample.abi_decode
                  Sample.chainid st' [(3, InvoiceIDBatcher.NewInvoiceTx 11)] in
              (st'', logs0 ++ logs')
          | InvoiceIDBatcher.Reverted _ =>
              InvoiceIDBatcher.history Sample.keccak256 Sample.abi_decode
                Sample.chainid Sample.configured [(3, InvoiceIDBatcher.NewInvoiceTx 11)]
          end).
  rewrite Hexec.
  destruct (InvoiceIDBatcher.history Sample.keccak256 Sample.abi_decode
              Sample.chainid st1 [(3, InvoiceIDBatcher.NewInvoiceTx 11)]).
  exact Hrev.
Defined.

Lemma relay_only_from_configured_source_witness :
  ∃ v invoices,
    InvoiceIDBatcher.Validates
      (InvoiceIDBatcher.mkValidated 10 777 Sample.topics64 [Byte.x07; Byte.x08])
    = InvoiceIDBatcher.Validates v
    ∧ (5, InvoiceIDBatcher.SetTrustedSourceContract
            (InvoiceIDBatcher.sourceChainId v) (InvoiceIDBatcher.sourceContract v))
      ∈ [(5, InvoiceIDBatcher.SetTrustedSourceContract 10 777)]
    ∧ Sample.abi_decode (InvoiceIDBatcher.data v) = Some invoices.
Proof.
  destruct (InvoiceIDBatcher.exec Sample.keccak256 Sample.abi_decode Sample.chainid
              Sample.configured 8 Sample.relay) as [st1 logs|] eqn:Hexec;
    [|by vm_compute in Hexec].
  destruct (relay_only_from_configured_source Sample.keccak256 Sample.abi_decode
              Sample.chainid 9 5 [(5, InvoiceIDBatcher.SetTrustedSourceContract 10 777)]
              8 _ _ _ st1 logs Hexec)
    as (v & invoices & Hv & _ & _ & Hin & Hdec & _).
  exists v, invoices. by split.
Defined.

Lemma received_sender_is_second_topic_witness :
  ∃ st' invoices,
    InvoiceIDBatcher.invoicesFromSource Sample.keccak256 Sample.abi_decode
      Sample.chainid Sample.configured [Byte.x01; Byte.x02]
      (InvoiceIDBatcher.Validates
         (InvoiceIDBatcher.mkValidated 10 777 Sample.topics64 [Byte.x07; Byte.x08]))
      [Byte.xff]
    = InvoiceIDBatcher.Success st'
        ((λ invoice, InvoiceIDBatcher.InvoiceReceived 42 invoice) <$> invoices).
Proof.
  destruct (InvoiceIDBatcher.invoicesFromSource Sample.keccak256 Sample.abi_decode
              Sample.chainid Sample.configured [Byte.x01; Byte.x02]
              (InvoiceIDBatcher.Validates
                 (InvoiceIDBatcher.mkValidated 10 777 Sample.topics64
                    [Byte.x07; Byte.x08]))
              [Byte.xff]) as [st1 logs|] eqn:Hexec;
    [|by vm_compute in Hexec].
  destruct (received_sender_is_second_topic Sample.keccak256 Sample.abi_decode
              Sample.chainid Sample.configured [Byte.x01; Byte.x02]
              (InvoiceIDBatcher.mkValidated 10 777 Sample.topics64 [Byte.x07; Byte.x08])
              [Byte.xff] st1 logs ltac:(vm_compute; lia) Hexec)
    as (invoices & _ & -> & _).
  exists st1, invoices. vm_compute. reflexivity.
Defined.

(** ** Relayer: start and stop *)

Section LifecycleFacts.
Import Relayer.

Implicit Types (r : t) (l : ChainListener.t) (order : list Z).

Lemma listener_start_fresh l n :
  ChainListener.isListening l = false →
  listener_start l (Returns n)
  = (ChainListener.mk (ChainListener.chain l) (ChainListener.contract l)
       (S (ChainListener.handlers l)) true (ChainListener.processedEvents l),
     Returns (), [ChainListener.GetBlockNumber; ChainListener.Subscribed]).
Proof.
  intros Hoff. unfold listener_start, ChainListener.start_call. simpl.
  rewrite Hoff. simpl. by rewrite lookup_insert_eq.
Qed.

Lemma listener_start_fails l e :
  ChainListener.isListening l = false →
  listener_start l (Throws e)
  = (l, Throws e, [ChainListener.GetBlockNumber; ChainListener.StartRejected e]).
Proof.
  intros Hoff. unfold listener_start, ChainListener.start_call. simpl.
  rewrite Hoff. simpl. by rewrite lookup_insert_eq.
Qed.

Lemma listener_start_listening l a :
  ChainListener.isListening l = true → listener_start l a = (l, Returns (), []).
Proof.
  intros Hon. unfold listener_start, ChainListener.start_call. simpl.
  by rewrite Hon.
Qed.

Lemma listener_stop_listening l :
  ChainListener.isListening l = true →
  listener_stop l (Returns ())
  = (ChainListener.mk (ChainListener.chain l) (ChainListener.contract l)
       0 false (ChainListener.processedEvents l),
     Returns (), [ChainListener.RemoveAllListeners]).
Proof.
  intros Hon. unfold listener_stop, ChainListener.stop_call. simpl.
  rewrite Hon. simpl. by rewrite lookup_insert_eq.
Qed.

Lemma listener_stop_idle l a :
  ChainListener.isListening l = false → listener_stop l a = (l, Returns (), []).
Proof.
  intros Hoff. unfold listener_stop, ChainListener.stop_call. simpl.
  by rewrite Hoff.
Qed.

(** A loop over the listeners in which every call resolves. *)
Lemma each_listener_all {A}
    (f : ChainListener.t → A →
         ChainListener.t * Outcome unit * list ChainListener.Event)
    (g : ChainListener.t → ChainListener.t) (evs0 : list ChainListener.Event)
    (answer : Z → A) order :
  ∀ ls : gmap Z ChainListener.t,
    NoDup order →
    (∀ k, k ∈ order →
          ∃ l, ls !! k = Some l ∧ f l (answer k) = (g l, Returns (), evs0)) →
    ∃ ls',
      each_listener f order ls answer
      = (ls', Returns (), order ≫= λ k, (λ ev, (k, ev)) <$> evs0)
      ∧ ∀ k, ls' !! k = if decide (k ∈ order) then g <$> ls !! k else ls !! k.
Proof.
  induction order as [|k order IH]; intros ls Hnd Hall.
  - exists ls. split; [done|]. intros k. by rewrite decide_False by apply not_elem_of_nil.
  - apply NoDup_cons in Hnd as [Hk Hnd].
    destruct (Hall k) as (l & Hl & Hf); [left|].
    destruct (IH (<[k := g l]> ls) Hnd) as (ls' & Hloop & Hlook).
    { intros k' Hk'. destruct (Hall k') as (l' & Hl' & Hf'); [by right|].
      exists l'. split; [|done]. rewrite lookup_insert_ne; [done|]. by intros ->. }
    exists ls'. split.
    + simpl. rewrite Hl, Hf, Hloop. done.
    + intros k'. rewrite Hlook. destruct (decide (k' = k)) as [->|Hne].
      * rewrite decide_False by done. rewrite decide_True by left.
        by rewrite lookup_insert_eq, Hl.
      * rewrite lookup_insert_ne by done.
        destruct (decide (k' ∈ order)) as [Hin|Hnin].
        -- by rewrite decide_True by (by right).
        -- by rewrite decide_False by (by intros [?|?]%elem_of_cons).
Qed.

Lemma each_listener_app {A}
    (f : ChainListener.t → A →
         ChainListener.t * Outcome unit * list ChainListener.Event)
    (answer : Z → A) before rest :
  ∀ (ls ls1 : gmap Z ChainListener.t) evs1,
    each_listener f before ls answer = (ls1, Returns (), evs1) →
    each_listener f (before ++ rest) ls answer
    = let '(ls2, settled, evs2) := each_listener f rest ls1 answer in
      (ls2, settled, evs1 ++ evs2).
Proof.
  induction before as [|k before IH]; intros ls ls1 evs1; simpl.
  - intros [= <- <-]. by destruct (each_listener f rest ls answer) as [[? ?] ?].
  - destruct (ls !! k) as [l|]; [|apply IH].
    destruct (f l (answer k)) as [[l' [[]|e]] evs]; [|done].
    destruct (each_listener f before (<[k:=l']> ls) answer) as [[ls' settled] evs'] eqn:Hb.
    intros [= -> -> <-]. rewrite (IH _ _ _ Hb).
    destruct (each_listener f rest ls1 answer) as [[ls2 settled2] evs2].
    by rewrite app_assoc.
Qed.

(** The listeners [init()] sets are as constructed: not listening, no
    handler, nothing processed. *)
Lemma init_listeners_fresh env r k l :
  (init env (new env)).1 = Returns r →
  listeners r !! k = Some l →
  ChainListener.isListening l = false
  ∧ ChainListener.handlers l = 0%nat
  ∧ ChainListener.processedEvents l = ∅
  ∧ chainId (ChainListener.chain l) = k.
Proof.
  unfold init.
  destruct (init_loop_spec env (enabledChains (new env)) ∅ (configured_hasRpc env))
    as (out & Hloop & _).
  change (listeners (new env)) with (∅ : gmap Z ChainListener.t).
  rewrite Hloop. destruct (decide _); [done|]. simpl. intros [= <-]. simpl.
  intros [Hl|(c & _ & -> & ->)]%foldl_insert_lookup; [|done].
  by rewrite lookup_empty in Hl.
Qed.

Lemma bind_nil {A B} (order : list A) : order ≫= (λ _, @nil B) = [].
Proof. induction order as [|k order IH]; [done|]. simpl. exact IH. Qed.

(** What [start()] makes of the listeners of [init()] when every node
    answers. *)
Lemma start_all env r order blockNumber :
  (init env (new env)).1 = Returns r →
  NoDup order →
  (∀ k, k ∈ order → is_Some (listeners r !! k)) →
  (∀ k, k ∈ order → ∃ n, blockNumber k = Returns n) →
  ∃ ls',
    each_listener listener_start order (listeners r) blockNumber
    = (ls', Returns (),
       order ≫= λ k, [(k, ChainListener.GetBlockNumber); (k, ChainListener.Subscribed)])
    ∧ ∀ k, ls' !! k
           = if decide (k ∈ order)
             then (λ l, ChainListener.mk (ChainListener.chain l) (ChainListener.contract l)
                          1 true ∅) <$> listeners r !! k
             else listeners r !! k.
Proof.
  intros Hinit Hnd Hkeys Hbn.
  apply (each_listener_all listener_start
           (λ l, ChainListener.mk (ChainListener.chain l) (ChainListener.contract l)
                   1 true ∅)
           [ChainListener.GetBlockNumber; ChainListener.Subscribed]); [done|].
  intros k Hk. destruct (Hkeys k Hk) as [l Hl], (Hbn k Hk) as [n ->].
  exists l. split; [done|].
  destruct (init_listeners_fresh env r k l Hinit Hl) as (Hoff & Hh & Hp & _).
  by rewrite listener_start_fresh, Hh, Hp.
Qed.

(** X8.  [start()] on the relayer [init()] returns, when every node
    answers its block number: it resolves, having asked each listener's
    node once and registered one handler per listener, in the order of the
    Map; afterwards every listener is listening with exactly one handler;
    and a second [start()] does nothing at all, whatever the nodes would
    answer. *)
Theorem start_subscribes_every_listener env r order blockNumber :
  (init env (new env)).1 = Returns r →
  iterates order r →
  (∀ k, k ∈ order → ∃ n, blockNumber k = Returns n) →
  ∃ r',
    start r order blockNumber
    = (r', Returns (),
       order ≫= λ k, [(k, ChainListener.GetBlockNumber); (k, ChainListener.Subscribed)])
    ∧ iterates order r'
    ∧ (∀ k l', listeners r' !! k = Some l' →
         ChainListener.isListening l' = true
         ∧ ChainListener.handlers l' = 1%nat
         ∧ ∃ l, listeners r !! k = Some l
             ∧ ChainListener.chain l' = ChainListener.chain l
             ∧ ChainListener.contract l' = ChainListener.contract l)
    ∧ (∀ blockNumber', start r' order blockNumber' = (r', Returns (), [])).
Proof.
  intros Hinit [Hnd Hkeys] Hbn.
  destruct (start_all env r order blockNumber Hinit Hnd) as (ls' & Hloop & Hlook);
    [intros k Hk; by apply Hkeys|done|].
  assert (Hl' : ∀ k l', ls' !! k = Some l' →
            k ∈ order ∧ ChainListener.isListening l' = true
            ∧ ChainListener.handlers l' = 1%nat
            ∧ ∃ l, listeners r !! k = Some l
                ∧ ChainListener.chain l' = ChainListener.chain l
                ∧ ChainListener.contract l' = ChainListener.contract l).
  { intros k l'. rewrite Hlook. destruct (decide (k ∈ order)) as [Hin|Hnin].
    - destruct (listeners r !! k) as [l|]; [|done]. simpl. intros [= <-].
      split; [done|]. split; [done|]. split; [done|]. by exists l.
    - intros Hl. exfalso. apply Hnin, Hkeys. by eexists. }
  exists (set_listeners r ls'). split; [unfold start; by rewrite Hloop|].
  split.
  { split; [done|]. intros k. simpl. rewrite Hlook.
    destruct (decide (k ∈ order)) as [Hin|Hnin].
    - rewrite fmap_is_Some. split; [intros _; by apply Hkeys|done].
    - split; [done|]. intros Hk. by apply Hkeys in Hk. }
  split; [intros k l' Hl; by destruct (Hl' k l' Hl) as (_ & ? & ? & ?)|].
  intros blockNumber'. unfold start. simpl.
  destruct (each_listener_all listener_start (λ l, l) [] blockNumber' order ls' Hnd)
    as (ls'' & -> & Hlook'').
  { intros k Hk. destruct (proj1 (Hkeys k) Hk) as [l Hl].
    assert (ls' !! k = Some (ChainListener.mk (ChainListener.chain l)
                               (ChainListener.contract l) 1 true ∅)) as Hk'.
    { by rewrite Hlook, decide_True, Hl by done. }
    eexists. split; [exact Hk'|]. by apply listener_start_listening. }
  assert (order ≫= (λ k, (λ ev, (k, ev)) <$> @nil ChainListener.Event) = [])
    as -> by apply bind_nil.
  f_equal. f_equal. unfold set_listeners. simpl. f_equal.
  apply map_eq. intros k. rewrite Hlook''.
  destruct (decide _); [|done]. by destruct (ls' !! k).
Qed.

(** X9.  [start()] stops at the first listener whose node fails: it
    rejects with that error; the listeners before it in the Map's order
    are listening, with one handler each, and stay so; that listener and
    those after it are as [init()] left them; and [main()] exits with
    status 1. *)
Theorem start_stops_at_first_failure env r before k after blockNumber e :
  (init env (new env)).1 = Returns r →
  iterates (before ++ k :: after) r →
  (∀ k', k' ∈ before → ∃ n, blockNumber k' = Returns n) →
  blockNumber k = Throws e →
  ∃ r',
    start r (before ++ k :: after) blockNumber
    = (r', Throws e,
       (before ≫= λ k', [(k', ChainListener.GetBlockNumber);
                         (k', ChainListener.Subscribed)])
       ++ [(k, ChainListener.GetBlockNumber); (k, ChainListener.StartRejected e)])
    ∧ (∀ k' l', k' ∈ before → listeners r' !! k' = Some l' →
         ChainListener.isListening l' = true ∧ ChainListener.handlers l' = 1%nat)
    ∧ (∀ k', k' ∉ before → listeners r' !! k' = listeners r !! k')
    ∧ ∀ wallet,
        (main env wallet (λ r0, (start r0 (before ++ k :: after) blockNumber).1.2)).1
        = Exited 1.
Proof.
  intros Hinit [Hnd Hkeys] Hbn Hfail.
  apply NoDup_app in Hnd as (Hndb & Hdisj & Hnda).
  destruct (start_all env r before blockNumber Hinit Hndb) as (ls1 & Hloop & Hlook);
    [|done|].
  { intros k' Hk'. apply Hkeys, elem_of_app. by left. }
  assert (k ∉ before) as Hk.
  { intros Hin. apply (Hdisj k Hin). left. }
  destruct (proj1 (Hkeys k)) as [l Hl]; [apply elem_of_app; right; left|].
  destruct (init_listeners_fresh env r k l Hinit Hl) as (Hoff & _).
  assert (each_listener listener_start (before ++ k :: after) (listeners r) blockNumber
          = (<[k := l]> ls1, Throws e,
             (before ≫= λ k', [(k', ChainListener.GetBlockNumber);
                               (k', ChainListener.Subscribed)])
             ++ [(k, ChainListener.GetBlockNumber); (k, ChainListener.StartRejected e)]))
    as Heach.
  { rewrite (each_listener_app _ _ _ _ _ _ _ Hloop). simpl.
    rewrite Hlook, decide_False, Hl, Hfail by done.
    by rewrite listener_start_fails. }
  assert (<[k := l]> ls1 = ls1) as Hid.
  { apply insert_id. by rewrite Hlook, decide_False. }
  rewrite Hid in Heach.
  exists (set_listeners r ls1). split; [unfold start; by rewrite Heach|].
  split.
  { intros k' l' Hk'. simpl. rewrite Hlook, decide_True by done.
    destruct (listeners r !! k'); [|done]. simpl. by intros [= <-]. }
  split.
  { intros k' Hk'. simpl. by rewrite Hlook, decide_False. }
  intros wallet.
  unfold main. destruct (negb (truthy (env !! "ACTIVATED_CHAINS"))); [done|].
  destruct wallet as [[]|]; [|done].
  destruct (init env (new env)) as [res out]. simpl in Hinit. subst res.
  unfold start. by rewrite Heach.
Qed.

(** X10.  [stop()] after such a [start()] resolves, when every removal
    does: it calls [removeAllListeners] once per listener, and the relayer
    is again exactly as [init()] left it, no listener listening and no
    handler registered; [stop()] on a relayer never started does nothing
    at all. *)
Theorem stop_undoes_start env r order blockNumber removed :
  (init env (new env)).1 = Returns r →
  iterates order r →
  (∀ k, k ∈ order → ∃ n, blockNumber k = Returns n) →
  (∀ k, k ∈ order → removed k = Returns ()) →
  stop (start r order blockNumber).1.1 order removed
  = (r, Returns (), order ≫= λ k, [(k, ChainListener.RemoveAllListeners)])
  ∧ (∀ k l, listeners r !! k = Some l →
       ChainListener.isListening l = false ∧ ChainListener.handlers l = 0%nat)
  ∧ (∀ removed', stop r order removed' = (r, Returns (), [])).
Proof.
  intros Hinit [Hnd Hkeys] Hbn Hrm.
  destruct (start_all env r order blockNumber Hinit Hnd) as (ls1 & Hloop & Hlook);
    [intros k Hk; by apply Hkeys|done|].
  assert (Hr : ∀ ls, (∀ k, ls !! k = listeners r !! k) → set_listeners r ls = r).
  { intros ls Hls. apply map_eq in Hls. subst ls. by destruct r. }
  split_and!.
  - unfold start. rewrite Hloop. unfold stop. simpl.
    destruct (each_listener_all listener_stop
                (λ l, ChainListener.mk (ChainListener.chain l) (ChainListener.contract l)
                        0 false (ChainListener.processedEvents l))
                [ChainListener.RemoveAllListeners] removed order ls1 Hnd)
      as (ls2 & -> & Hlook2).
    { intros k Hk. destruct (proj1 (Hkeys k) Hk) as [l Hl].
      eexists. split; [by rewrite Hlook, decide_True, Hl by done|].
      simpl. rewrite (Hrm k Hk). by apply listener_stop_listening. }
    f_equal. f_equal. change (set_listeners r ls2 = r). apply Hr.
    intros k. rewrite Hlook2, Hlook. destruct (decide (k ∈ order)) as [Hin|Hnin]; [|done].
    destruct (listeners r !! k) as [l|] eqn:Hl; [|done]. simpl.
    destruct (init_listeners_fresh env r k l Hinit Hl) as (Hoff & Hh & Hp & _).
    destruct l. simpl in *. by subst.
  - intros k l Hl.
    by destruct (init_listeners_fresh env r k l Hinit Hl) as (? & ? & _).
  - intros removed'. unfold stop.
    destruct (each_listener_all listener_stop (λ l, l) [] removed' order (listeners r) Hnd)
      as (ls2 & -> & Hlook2).
    { intros k Hk. destruct (proj1 (Hkeys k) Hk) as [l Hl].
      exists l. split; [done|]. apply listener_stop_idle.
      by destruct (init_listeners_fresh env r k l Hinit Hl) as (? & _). }
    assert (order ≫= (λ k, (λ ev, (k, ev)) <$> @nil ChainListener.Event) = [])
      as -> by apply bind_nil.
    f_equal. f_equal. apply Hr.
    intros k. rewrite Hlook2. destruct (decide _); [|done].
    by destruct (listeners r !! k).
Qed.

End LifecycleFacts.

Lemma initialized_is_init :
  (Relayer.init Fixture.env (Relayer.new Fixture.env)).1 = Returns Sample.initialized.
Proof. vm_compute. reflexivity. Qed.

Lemma initialized_iterates : Relayer.iterates [11155420; 421614] Sample.initialized.
Proof.
  split.
  - apply NoDup_cons. split; [|apply NoDup_singleton].
    intros Hin%list_elem_of_singleton. discriminate.
  - intros k. unfold Sample.initialized. simpl.
    rewrite !lookup_insert_is_Some, lookup_empty, !elem_of_cons, elem_of_nil.
    split.
    + intros [->|[->|[]]]; [right; split; [done|by left]|by left].
    + intros [<-|[_ [<-|[_ Hnone]]]]; [right; by left|by left|].
      by apply is_Some_None in Hnone.
Qed.

Lemma start_subscribes_every_listener_witness :
  ∃ r',
    Relayer.start Sample.initialized [11155420; 421614] (λ _, Returns 7)
    = (r', Returns (),
       [(11155420, ChainListener.GetBlockNumber); (11155420, ChainListener.Subscribed);
        (421614, ChainListener.GetBlockNumber); (421614, ChainListener.Subscribed)]).
Proof.
  destruct (start_subscribes_every_listener Fixture.env Sample.initialized
              [11155420; 421614] (λ _, Returns 7)
              initialized_is_init initialized_iterates)
    as (r' & Hstart & _); [by eexists|].
  exists r'. exact Hstart.
Defined.

Lemma start_stops_at_first_failure_witness :
  ∃ r',
    Relayer.start Sample.initialized [11155420; 421614]
      (λ k, if k =? 421614 then Throws (mkError "node down") else Returns 7)
    = (r', Throws (mkError "node down"),
       [(11155420, ChainListener.GetBlockNumber); (11155420, ChainListener.Subscribed);
        (421614, ChainListener.GetBlockNumber);
        (421614, ChainListener.StartRejected (mkError "node down"))]).
Proof.
  destruct (start_stops_at_first_failure Fixture.env Sample.initialized
              [11155420] 421614 []
              (λ k, if k =? 421614 then Throws (mkError "node down") else Returns 7)
              (mkError "node down")
              initialized_is_init initialized_iterates)
    as (r' & Hstart & _).
  - intros k' ->%list_elem_of_singleton. by eexists.
  - reflexivity.
  - exists r'. exact Hstart.
Defined.

Lemma stop_undoes_start_witness :
  Relayer.stop
    (Relayer.start Sample.initialized [11155420; 421614] (λ _, Returns 7)).1.1
    [11155420; 421614] (λ _, Returns ())
  = (Sample.initialized, Returns (),
     [(11155420, ChainListener.RemoveAllListeners);
      (421614, ChainListener.RemoveAllListeners)]).
Proof.
  exact (proj1 (stop_undoes_start Fixture.env Sample.initialized
                  [11155420; 421614] (λ _, Returns 7) (λ _, Returns ())
                  initialized_is_init initialized_iterates
                  (λ k _, ex_intro _ 7 eq_refl) (λ k _, eq_refl))).
Defined.

(** ** The registry the relayer works on *)

Section RegistryFacts.
Import Relayer.

Variable ethers_id : string → string.

Implicit Types (env : Env) (c : Chain).

(** X11.  Whatever the environment, a chain is enabled exactly when its
    key stands in ACTIVATED_CHAINS (split at commas, nothing trimmed) and
    its [rpc] and [proverAddress] are set; and only Optimism Sepolia,
    Arbitrum Sepolia and Base Sepolia can be: the five entries of [CHAINS]
    without [rpc] and [proverAddress] are never enabled. *)
Theorem only_three_chains_can_be_enabled env c :
  (c ∈ getEnabledChains env ↔
   ∃ key, key ∈ activatedChains env ∧ CHAINS env !! key = Some c
     ∧ truthy (rpc c) = true ∧ truthy (proverAddress c) = true)
  ∧ (c ∈ getEnabledChains env →
     (name c, chainId c, envPrefix c)
     ∈ [("Optimism Sepolia", 11155420, Some "OPTIMISM_SEPOLIA");
        ("Arbitrum Sepolia", 421614, Some "ARBITRUM_SEPOLIA");
        ("Base Sepolia", 84532, Some "BASE_SEPOLIA")]).
Proof.
  split.
  - unfold getEnabledChains. rewrite list_elem_of_omap. split.
    + intros (oc & Hoc & Hid). simpl in Hid. subst oc.
      apply list_elem_of_In, List.filter_In in Hoc as [Hin Hen].
      apply list_elem_of_In, list_elem_of_fmap in Hin as (key & Hkey & Hact).
      exists key. split; [done|]. split; [done|].
      simpl in Hen. by apply andb_prop in Hen.
    + intros (key & Hact & Hkey & Hrpc & Hprover). exists (Some c). split; [|done].
      apply list_elem_of_In, List.filter_In. split.
      * apply list_elem_of_In, list_elem_of_fmap. by exists key.
      * simpl. by rewrite Hrpc, Hprover.
  - intros (key & Hin & Hrpc & _)%enabled_origin.
    unfold CHAINS_entries in Hin.
    repeat (apply elem_of_cons in Hin as [Hin|Hin];
            [injection Hin as -> ->; simpl in *;
             first [discriminate | set_solver]|]).
    by apply elem_of_nil in Hin.
Qed.

Lemma fromEntries_lookup (cs : list Chain) :
  (∀ c1 c2, c1 ∈ cs → c2 ∈ cs → chainId c1 = chainId c2 → c1 = c2) →
  ∀ c, c ∈ cs →
       fromEntries ((λ chain, (chainId chain, chain)) <$> cs) !! chainId c = Some c.
Proof.
  unfold fromEntries.
  induction cs as [|x cs IH] using rev_ind; intros Hinj c Hc.
  { by apply elem_of_nil in Hc. }
  rewrite fmap_app, foldl_app. simpl.
  destruct (decide (chainId x = chainId c)) as [Heq|Hne].
  - rewrite Heq, lookup_insert_eq. f_equal.
    apply Hinj; [apply elem_of_app; right; left|done|done].
  - rewrite lookup_insert_ne by done.
    apply elem_of_app in Hc as [Hc|Hc%list_elem_of_singleton]; [|by subst].
    apply IH; [|done]. intros c1 c2 H1 H2. apply Hinj; apply elem_of_app; by left.
Qed.

(** X12.  Whatever the environment, for every chain [c] the constructed
    relayer has enabled: [this.chains] maps its chain id to [c] itself;
    the [rpc] of [c] is the value of its [_RPC] variable, which is set,
    and its [invoiceBatcherAddress] is the value of its
    [_INVOICEBATCHER_ADDRESS] variable; so the proof acquisition for an
    event of [c] never fails on the chain lookup: it starts by fetching
    the receipt from that RPC endpoint. *)
Theorem relayer_knows_its_enabled_chains env c :
  c ∈ enabledChains (new env) →
  chains (new env) !! chainId c = Some c
  ∧ rpc c = env !! ChainListener.rpcEnvKey c
  ∧ truthy (rpc c) = true
  ∧ invoiceBatcherAddress c = env !! ChainListener.contractEnvKey c
  ∧ ∀ w blockNumber transactionHash logIndex,
      ∃ evs res,
        requestProof ethers_id (new env) w (chainId c) blockNumber transactionHash logIndex
        = (GetTransactionReceipt (rpc c) transactionHash :: evs, res).
Proof.
  intros Hc.
  assert (chains (new env) !! chainId c = Some c) as Hchain.
  { apply (fromEntries_lookup (enabledChains (new env))); [|done].
    intros c1 c2. apply configured_chainId_inj. }
  pose proof (configured_hasRpc env c Hc) as Hrpc. unfold hasRpc in Hrpc.
  assert (rpc c = env !! ChainListener.rpcEnvKey c
          ∧ invoiceBatcherAddress c = env !! ChainListener.contractEnvKey c) as [Hr Ha].
  { simpl in Hc. by apply list_elem_of_fmap in Hc as (c0 & -> & _). }
  split; [done|]. split; [done|]. split; [by rewrite Hr|]. split; [done|].
  intros w blockNumber transactionHash logIndex.
  unfold requestProof. rewrite Hchain. unfold bind at 1. unfold ret.
  destruct (bind _ _) as [evs res] eqn:Hb. revert Hb. unfold bind at 1, await.
  destruct (receipt w) as [a|e].
  - destruct (match a with Some _ => _ | None => _ end) as [evs' res'].
    intros [= <- <-]. by eexists _, _.
  - intros [= <- <-]. by eexists _, _.
Qed.

End RegistryFacts.

Lemma only_three_chains_can_be_enabled_witness :
  (name Fixture.base, chainId Fixture.base, envPrefix Fixture.base)
  ∈ [("Optimism Sepolia", 11155420, Some "OPTIMISM_SEPOLIA");
     ("Arbitrum Sepolia", 421614, Some "ARBITRUM_SEPOLIA");
     ("Base Sepolia", 84532, Some "BASE_SEPOLIA")].
Proof.
  apply (proj2 (only_three_chains_can_be_enabled Fixture.env Fixture.base)).
  apply (proj1 (only_three_chains_can_be_enabled Fixture.env Fixture.base)).
  exists "base-sepolia". split; [vm_compute; set_solver|].
  split; [vm_compute; reflexivity|]. by split.
Defined.

Lemma relayer_knows_its_enabled_chains_witness :
  Relayer.chains (Relayer.new Fixture.env) !! 84532 = Some Fixture.base
  ∧ invoiceBatcherAddress Fixture.base = None.
Proof.
  destruct (relayer_knows_its_enabled_chains Fixture.id Fixture.env Fixture.base)
    as (H1 & _ & _ & H4 & _).
  - vm_compute. set_solver.
  - split; [exact H1|]. rewrite H4. vm_compute. reflexivity.
Defined.

(** ** The deployment script *)

Ltac found :=
  cbv beta iota; eexists; split; [member|]; split; [(by left) || (by right)|member].

Section DeployFacts.
Import Deploy.

Lemma matches_spec networkName c :
  matches networkName c =
  if decide (replace_first " " "-" (toLowerCase (name c)) = networkName) then Returns true
  else match envPrefix c with
       | None => Throws (TypeError "undefined" "toLowerCase")
       | Some p => Returns (bool_decide (networkName = toLowerCase p))
       end.
Proof.
  unfold matches.
  destruct (String.eqb_spec (replace_first " " "-" (toLowerCase (name c))) networkName);
    case_decide; try done.
  destruct (envPrefix c) as [p|]; [|done].
  f_equal. destruct (String.eqb_spec networkName (toLowerCase p));
    case_bool_decide; done.
Qed.

Ltac evaluate_spellings :=
  repeat match goal with
    | |- context [replace_first ?a ?b (toLowerCase ?s)] =>
        let v := eval vm_compute in (replace_first a b (toLowerCase s)) in
        change (replace_first a b (toLowerCase s)) with v
    | |- context [toLowerCase ?s] =>
        let v := eval vm_compute in (toLowerCase s) in
        change (toLowerCase s) with v
    end.


(** X13. The network lookup of the deployment script finds a chain for
    seven spellings only: the keys of the first four entries of [CHAINS]
    and the lower-cased prefixes of the first three.  For every other
    network name, the later keys of the table included, the lookup throws
    a [TypeError] at the first entry without a prefix; it never reports
    that no chain was found. *)
Theorem deploy_network_lookup env networkName :
  match findChain env networkName with
  | Returns (Some c) =>
      ∃ key, (key, c) ∈ CHAINS_entries env
             ∧ (networkName = key ∨ Some networkName = toLowerCase <$> envPrefix c)
             ∧ chainId c ∈ [11155420; 421614; 84532; 919]
  | Returns None => False
  | Throws e =>
      e = TypeError "undefined" "toLowerCase"
      ∧ networkName ∉ ["optimism-sepolia"; "optimism_sepolia"; "arbitrum-sepolia";
                       "arbitrum_sepolia"; "base-sepolia"; "base_sepolia"; "mode-sepolia"]
  end.
Proof.
  unfold findChain, CHAINS_entries.
  cbn [fmap list_fmap snd find].
  rewrite !matches_spec. cbn [name envPrefix]. evaluate_spellings.
  destruct (decide ("optimism-sepolia" = networkName)) as [<-|?]; [found|].
  destruct (bool_decide_reflect (networkName = "optimism_sepolia")) as [->|?]; [found|].
  destruct (decide ("arbitrum-sepolia" = networkName)) as [<-|?]; [found|].
  destruct (bool_decide_reflect (networkName = "arbitrum_sepolia")) as [->|?]; [found|].
  destruct (decide ("base-sepolia" = networkName)) as [<-|?]; [found|].
  destruct (bool_decide_reflect (networkName = "base_sepolia")) as [->|?]; [found|].
  destruct (decide ("mode-sepolia" = networkName)) as [<-|?]; [found|].
  split; [done|].
  rewrite !elem_of_cons, elem_of_nil.
  intros [?|[?|[?|[?|[?|[?|[?|[]]]]]]]]; congruence.
Qed.

Lemma lookups_app evs evs' :
  lookups (evs ++ evs') = (lookups evs + lookups evs')%nat.
Proof. unfold lookups. by rewrite List.filter_app, length_app. Qed.

(** The polling loop, from attempt [i] on: it stops at the first attempt
    whose lookup answers a receipt or fails, with one lookup per attempt
    made, and gives up once attempt 29 has answered null. *)
Lemma pollReceipt_spec w hash fuel : ∀ i, (30 - i < fuel)%nat →
  ∃ evs r, pollReceipt fuel w hash i = Some (evs, r)
    ∧ (∀ ev, ev ∈ evs → ev = GetTransactionReceipt hash ∨ ev = Sleep 10000)
    ∧ match r with
      | Returns None =>
          (∀ j, (i ≤ j < 30)%nat → receiptAt w j = Returns None)
          ∧ lookups evs = (30 - i)%nat
      | _ =>
          ∃ k, (i ≤ k < 30)%nat
               ∧ receiptAt w k = match r with
                                 | Returns m => Returns m
                                 | Throws e => Throws e
                                 end
               ∧ (∀ j, (i ≤ j < k)%nat → receiptAt w j = Returns None)
               ∧ lookups evs = S (k - i)
      end.
Proof.
  induction fuel as [|fuel IH]; intros i Hfuel; [lia|].
  simpl. case_decide as Hi.
  - destruct (receiptAt w i) as [[m|]|e] eqn:Hat.
    + eexists _, _. split; [done|]. split.
      { intros ev ->%list_elem_of_singleton. by left. }
      exists i. repeat split; [lia..|done| |].
      * intros; lia.
      * cbn. lia.
    + destruct (IH (S i)) as (evs & r & -> & Hevs & Hr); [lia|].
      eexists _, _. split; [done|]. split.
      { intros ev [->|[->|Hin]%elem_of_cons]%elem_of_cons; auto. }
      assert (∀ j k, (i ≤ j < k)%nat →
                (∀ j, (S i ≤ j < k)%nat → receiptAt w j = Returns None) →
                receiptAt w j = Returns None) as Hnull.
      { intros j k Hj Hk. destruct (decide (j = i)) as [->|]; [done|].
        apply Hk. lia. }
      assert (lookups (GetTransactionReceipt hash :: Sleep 10000 :: evs)
              = S (lookups evs)) as Hstep by done.
      cbn [app]. rewrite Hstep.
      destruct r as [[m|]|e].
      * destruct Hr as (k & Hk & Hat' & Hbefore & Hcount).
        exists k. repeat split; [lia..|done|eauto|lia].
      * destruct Hr as [Hbefore Hcount]. split; [eauto|lia].
      * destruct Hr as (k & Hk & Hat' & Hbefore & Hcount).
        exists k. repeat split; [lia..|done|eauto|lia].
    + eexists _, _. split; [done|]. split.
      { intros ev ->%list_elem_of_singleton. by left. }
      exists i. repeat split; [lia..|done| |].
      * intros; lia.
      * cbn. lia.
  - eexists _, _. split; [done|]. split.
    { intros ev Hin. by apply elem_of_nil in Hin. }
    split; [intros; lia|]. cbn. lia.
Qed.

(** What [deployToChain] does once the deployment transaction is sent. *)
Lemma deployToChain_sent c w evs0 hash :
  truthy (proverAddress c) = true →
  sendDeployment (tpl (proverAddress c)) w = (evs0, Returns hash) →
  ∃ evs1 r1 evs2 r,
    pollReceipt poll_fuel w hash 0 = Some (evs1, r1)
    ∧ logAndRethrow (bind (evs1, r1) (confirmDeployment c w)) = (evs2, r)
    ∧ deployToChain poll_fuel c w = Some (evs0 ++ evs2, r).
Proof.
  intros Hprover Hsent.
  destruct (pollReceipt_spec w hash poll_fuel 0) as (evs1 & r1 & Hpoll & _);
    [unfold poll_fuel; lia|].
  destruct (logAndRethrow (bind (evs1, r1) (confirmDeployment c w)))
    as [evs2 r] eqn:Hrest.
  exists evs1, r1, evs2, r. split; [done|]. split; [done|].
  unfold deployToChain. rewrite Hprover, Hsent. cbn [negb].
  rewrite Hpoll.
  change (logAndRethrow (bind (evs1, r1) (λ receipt, confirmDeployment c w receipt)))
    with (logAndRethrow (bind (evs1, r1) (confirmDeployment c w))).
  by rewrite Hrest.
Qed.

Lemma sendDeployment_spec p w :
  ∃ evs r, sendDeployment p w = (evs, r)
    ∧ (evs = [GetContractFactory] ∨ evs = [GetContractFactory; DeployContract p 3000000])
    ∧ (∀ hash, r = Returns hash ↔
               factory w = Returns tt ∧ deployed w = Returns (Some hash)).
Proof.
  unfold sendDeployment, bind, await.
  destruct (factory w) as [[]|e]; [destruct (deployed w) as [[hash|]|e]|];
    cbn; eexists _, _; (split; [done|]); (split; [auto|]);
    intros hash'; split; try done; try (by intros [? ?]).
  - by intros [= ->].
  - by intros [_ [= ->]].
Qed.

Lemma confirmDeployment_spec c w m :
  ∃ evs r, confirmDeployment c w (Some m) = (evs, r)
    ∧ lookups evs = 0%nat
    ∧ (∀ ms, Sleep ms ∉ evs)
    ∧ (∀ k v, UpdateEnvFile k v ∈ evs →
              k = ChainListener.contractEnvKey c ∧ address w = Returns v
              ∧ status m = true)
    ∧ (∀ a, r = Returns a ↔
            (∃ b, currentBlock w = Returns b) ∧ status m = true
            ∧ address w = Returns a ∧ envWritten w = Returns tt)
    ∧ (∀ a, r = Returns a →
            last evs = Some (UpdateEnvFile (ChainListener.contractEnvKey c) a)).
Proof.
  unfold confirmDeployment, bind, await, ret, throw.
  destruct (currentBlock w) as [b|e]; [destruct (status m)|]; cbn.
  - destruct (address w) as [a|e]; [destruct (envWritten w) as [[]|e]|]; cbn;
      eexists _, _; (split; [done|]); (split; [done|]);
      (split; [intros ms Hin; members Hin|]);
      (split; [intros k v Hin; members Hin; injection Hin as -> ->; done|]);
      (split; [intros a'; split; [intros [= ->]; eauto|intros (_ & _ & [= ->] & ?); done]|]);
      intros a' [= ->]; done.
  - eexists _, _. (split; [done|]); (split; [done|]).
    split; [intros ms Hin; members Hin|].
    split; [intros k v Hin; members Hin|].
    split; [|done]. intros a; split; [done|]. by intros (_ & ? & _).
  - eexists _, _. (split; [done|]); (split; [done|]).
    split; [intros ms Hin; members Hin|].
    split; [intros k v Hin; members Hin|].
    split; [|done]. intros a; split; [done|]. by intros ([? ?] & _).
Qed.

(** The three ways through [deployToChain]: no prover address, a
    deployment that is not sent, and a deployment that is sent and then
    polled for. *)
Lemma deployToChain_cases c w :
  (truthy (proverAddress c) = false
   ∧ deployToChain poll_fuel c w
     = Some ([], Throws (mkError ("No Polymer Prover address found for " +:+ name c))))
  ∨ (truthy (proverAddress c) = true
     ∧ ∃ evs0 e, sendDeployment (tpl (proverAddress c)) w = (evs0, Throws e)
                 ∧ deployToChain poll_fuel c w = Some (evs0, Throws e))
  ∨ (truthy (proverAddress c) = true
     ∧ ∃ evs0 hash evs1 r1,
         sendDeployment (tpl (proverAddress c)) w = (evs0, Returns hash)
         ∧ pollReceipt poll_fuel w hash 0 = Some (evs1, r1)
         ∧ match r1 with
           | Returns (Some m) =>
               ∃ evs2 r2,
                 confirmDeployment c w (Some m) = (evs2, r2)
                 ∧ deployToChain poll_fuel c w
                   = Some (evs0 ++ evs1 ++ evs2
                             ++ match r2 with
                                | Throws e => [LogDeploymentError (message e)]
                                | Returns _ => []
                                end, r2)
           | Returns None =>
               deployToChain poll_fuel c w
               = Some (evs0 ++ evs1
                         ++ [LogDeploymentError
                               "Failed to get transaction receipt after 5 minutes"],
                       Throws (mkError "Failed to get transaction receipt after 5 minutes"))
           | Throws e =>
               deployToChain poll_fuel c w
               = Some (evs0 ++ evs1 ++ [LogDeploymentError (message e)], Throws e)
           end).
Proof.
  destruct (truthy (proverAddress c)) eqn:Hprover.
  - right.
    destruct (sendDeployment (tpl (proverAddress c)) w) as [evs0 [hash|e]] eqn:Hsend.
    + right. split; [done|].
      destruct (deployToChain_sent c w evs0 hash Hprover Hsend)
        as (evs1 & r1 & evs2 & r & Hpoll & Hrest & Hdeploy).
      exists evs0, hash, evs1, r1. split; [done|]. split; [done|].
      rewrite Hdeploy. unfold logAndRethrow, bind in Hrest.
      destruct r1 as [[m|]|e].
      * destruct (confirmDeployment c w (Some m)) as [evs2' r2] eqn:Hconfirm.
        exists evs2', r2. split; [done|].
        destruct r2; injection Hrest as <- <-; by rewrite <- ?app_assoc, ?app_nil_r.
      * cbn in Hrest. injection Hrest as <- <-. by rewrite app_nil_r.
      * by injection Hrest as <- <-.
    + left. split; [done|]. exists evs0, e. split; [done|].
      unfold deployToChain. by rewrite Hprover, Hsend.
  - left. split; [done|]. unfold deployToChain. by rewrite Hprover.
Qed.

Ltac polled w hash Hpoll Hsleep Hr1 :=
  let evs := fresh "evs" in
  let r := fresh "r" in
  let H := fresh "H" in
  destruct (pollReceipt_spec w hash poll_fuel 0) as (evs & r & H & Hsleep & Hr1);
  [unfold poll_fuel; lia|];
  rewrite Hpoll in H; injection H as <- <-.

(** X14. [deployToChain] always ends: it looks the receipt up at most 30
    times and sleeps 10 seconds between two lookups.  When the deployment
    was sent and all 30 lookups answer null, it has made exactly 30
    lookups, logs the failure last and throws "Failed to get transaction
    receipt after 5 minutes". *)
Theorem deployment_gives_up_after_30_lookups c w :
  ∃ evs r, deployToChain poll_fuel c w = Some (evs, r)
    ∧ (lookups evs ≤ 30)%nat
    ∧ (∀ ms, Sleep ms ∈ evs → ms = 10000)
    ∧ (truthy (proverAddress c) = true → factory w = Returns tt →
       (∃ hash, deployed w = Returns (Some hash)) →
       (∀ j, (j < 30)%nat → receiptAt w j = Returns None) →
       lookups evs = 30%nat
       ∧ r = Throws (mkError "Failed to get transaction receipt after 5 minutes")
       ∧ last evs = Some (LogDeploymentError
                            "Failed to get transaction receipt after 5 minutes")).
Proof.
  destruct (deployToChain_cases c w)
    as [(Hp & Hd) | [(Hp & evs0 & e & Hsend & Hd)
                    | (Hp & evs0 & hash & evs1 & r1 & Hsend & Hpoll & Hcase)]].
  - eexists _, _. split; [done|]. split; [cbn; lia|].
    split; [intros ms Hin; members Hin|]. congruence.
  - destruct (sendDeployment_spec (tpl (proverAddress c)) w)
      as (evs & r & Hsend' & Hevs0 & Hr0).
    rewrite Hsend in Hsend'. injection Hsend' as <- <-.
    eexists _, _. split; [done|].
    split; [destruct Hevs0 as [-> | ->]; cbn; lia|].
    split; [intros ms Hin; destruct Hevs0 as [-> | ->]; members Hin|].
    intros _ Hf [hash Hdeployed] _.
    assert (Throws e = Returns hash) as Hno by (by apply Hr0).
    discriminate Hno.
  - destruct (sendDeployment_spec (tpl (proverAddress c)) w)
      as (evs & r & Hsend' & Hevs0 & _).
    rewrite Hsend in Hsend'. injection Hsend' as <- <-.
    assert (lookups evs0 = 0%nat) as Hnone
        by (destruct Hevs0 as [-> | ->]; done).
    assert (∀ ms, Sleep ms ∉ evs0) as Hawake
        by (intros ms Hin; destruct Hevs0 as [-> | ->]; members Hin).
    polled w hash Hpoll Hsleep Hr1.
    destruct r1 as [[m|]|e].
    + destruct Hcase as (evs2 & r2 & Hconfirm & ->).
      destruct (confirmDeployment_spec c w m)
        as (evs & r & Hconfirm' & Hnone2 & Hawake2 & _).
      rewrite Hconfirm in Hconfirm'. injection Hconfirm' as <- <-.
      destruct Hr1 as (k & Hk & Hat & Hbefore & Hcount).
      eexists _, _. split; [done|]. rewrite !lookups_app, Hnone, Hnone2, Hcount.
      split; [destruct r2; cbn; lia|]. split.
      * intros ms [Hin|[Hin|[Hin|Hin]%elem_of_app]%elem_of_app]%elem_of_app.
        -- by apply Hawake in Hin.
        -- by destruct (Hsleep _ Hin) as [?|[= ->]].
        -- by apply Hawake2 in Hin.
        -- destruct r2; members Hin.
      * intros _ _ _ Hnull. rewrite Hnull in Hat by lia. discriminate.
    + rewrite Hcase. destruct Hr1 as [Hbefore Hcount].
      eexists _, _. split; [done|]. rewrite !lookups_app, Hnone, Hcount.
      split; [cbn; lia|]. split.
      * intros ms [Hin|[Hin|Hin]%elem_of_app]%elem_of_app.
        -- by apply Hawake in Hin.
        -- by destruct (Hsleep _ Hin) as [?|[= ->]].
        -- members Hin.
      * intros _ _ _ _. split; [cbn; lia|]. split; [done|].
        by rewrite !app_assoc, last_snoc.
    + rewrite Hcase. destruct Hr1 as (k & Hk & Hat & Hbefore & Hcount).
      eexists _, _. split; [done|]. rewrite !lookups_app, Hnone, Hcount.
      split; [cbn; lia|]. split.
      * intros ms [Hin|[Hin|Hin]%elem_of_app]%elem_of_app.
        -- by apply Hawake in Hin.
        -- by destruct (Hsleep _ Hin) as [?|[= ->]].
        -- members Hin.
      * intros _ _ _ Hnull. rewrite Hnull in Hat by lia. discriminate.
Qed.

(** X15. [deployToChain] writes [.env] only for a deployment that was
    mined with a truthy status: the first lookup that answers is a receipt
    with that status.  It writes the deployed address under the key the
    relayer reads its contract address from. *)
Theorem env_written_only_for_mined_deployment c w evs r k v :
  deployToChain poll_fuel c w = Some (evs, r) →
  UpdateEnvFile k v ∈ evs →
  k = ChainListener.contractEnvKey c
  ∧ address w = Returns v
  ∧ truthy (proverAddress c) = true
  ∧ ∃ i m, (i < 30)%nat ∧ receiptAt w i = Returns (Some m) ∧ status m = true
           ∧ ∀ j, (j < i)%nat → receiptAt w j = Returns None.
Proof.
  intros Hdeploy Hin.
  destruct (deployToChain_cases c w)
    as [(Hp & Hd) | [(Hp & evs0 & e & Hsend & Hd)
                    | (Hp & evs0 & hash & evs1 & r1 & Hsend & Hpoll & Hcase)]].
  - rewrite Hd in Hdeploy. injection Hdeploy as <- <-. members Hin.
  - rewrite Hd in Hdeploy. injection Hdeploy as <- <-.
    destruct (sendDeployment_spec (tpl (proverAddress c)) w)
      as (evs & r & Hsend' & Hevs0 & _).
    rewrite Hsend in Hsend'. injection Hsend' as <- <-.
    destruct Hevs0 as [-> | ->]; members Hin.
  - destruct (sendDeployment_spec (tpl (proverAddress c)) w)
      as (evs' & r' & Hsend' & Hevs0 & _).
    rewrite Hsend in Hsend'. injection Hsend' as <- <-.
    assert (UpdateEnvFile k v ∉ evs0) as Hquiet
        by (intros Hin0; destruct Hevs0 as [-> | ->]; members Hin0).
    polled w hash Hpoll Hsleep Hr1.
    assert (UpdateEnvFile k v ∉ evs1) as Hquiet1
        by (intros Hin1; by destruct (Hsleep _ Hin1)).
    destruct r1 as [[m|]|e].
    + destruct Hcase as (evs2 & r2 & Hconfirm & Hd).
      rewrite Hd in Hdeploy. injection Hdeploy as <- <-.
      destruct (confirmDeployment_spec c w m)
        as (evs & r & Hconfirm' & _ & _ & Hwrite & _).
      rewrite Hconfirm in Hconfirm'. injection Hconfirm' as <- <-.
      apply elem_of_app in Hin as [Hin|[Hin|[Hin|Hin]%elem_of_app]%elem_of_app];
        [done|done| |destruct r2; members Hin].
      destruct (Hwrite _ _ Hin) as (-> & Haddress & Hstatus).
      repeat split; [done..|].
      destruct Hr1 as (i & Hi & Hat & Hbefore & _).
      exists i, m. repeat split; [lia|done|done|].
      intros j Hj. apply Hbefore. lia.
    + rewrite Hcase in Hdeploy. injection Hdeploy as <- <-.
      apply elem_of_app in Hin as [Hin|[Hin|Hin]%elem_of_app]; [done|done|members Hin].
    + rewrite Hcase in Hdeploy. injection Hdeploy as <- <-.
      apply elem_of_app in Hin as [Hin|[Hin|Hin]%elem_of_app]; [done|done|members Hin].
Qed.

(** X16. [deployToChain] returns an address exactly when the chain has a
    prover address, the deployment is sent, one of the 30 lookups is the
    first to answer and answers a receipt with a truthy status, the block
    number is read, the contract answers that address and [.env] is
    written; writing [.env] is then the last thing it does. *)
Theorem deployment_succeeds_iff c w a :
  ((∃ evs, deployToChain poll_fuel c w = Some (evs, Returns a)) ↔
   truthy (proverAddress c) = true
   ∧ factory w = Returns tt
   ∧ (∃ hash, deployed w = Returns (Some hash))
   ∧ (∃ i m, (i < 30)%nat ∧ receiptAt w i = Returns (Some m) ∧ status m = true
             ∧ ∀ j, (j < i)%nat → receiptAt w j = Returns None)
   ∧ (∃ b, currentBlock w = Returns b)
   ∧ address w = Returns a
   ∧ envWritten w = Returns tt)
  ∧ (∀ evs, deployToChain poll_fuel c w = Some (evs, Returns a) →
            last evs = Some (UpdateEnvFile (ChainListener.contractEnvKey c) a)).
Proof.
  destruct (sendDeployment_spec (tpl (proverAddress c)) w)
    as (evs0' & r0 & Hsend' & _ & Hr0).
  destruct (deployToChain_cases c w)
    as [(Hp & Hd) | [(Hp & evs0 & e & Hsend & Hd)
                    | (Hp & evs0 & hash & evs1 & r1 & Hsend & Hpoll & Hcase)]].
  - rewrite Hd. split; [|done]. split; [by intros [? ?]|]. intros [? _]. congruence.
  - rewrite Hd. split; [|done]. split; [by intros [? ?]|].
    intros (_ & Hf & [hash Hdeployed] & _).
    rewrite Hsend in Hsend'. injection Hsend' as <- <-.
    assert (Throws e = Returns hash) as Hno by (by apply Hr0).
    discriminate Hno.
  - rewrite Hsend in Hsend'. injection Hsend' as <- <-.
    destruct (proj1 (Hr0 hash) eq_refl) as [Hf Hdeployed].
    polled w hash Hpoll Hsleep Hr1.
    destruct r1 as [[m|]|e].
    + destruct Hcase as (evs2 & r2 & Hconfirm & Hd). rewrite Hd.
      destruct (confirmDeployment_spec c w m)
        as (evs & r & Hconfirm' & _ & _ & _ & Hok & Hlast).
      rewrite Hconfirm in Hconfirm'. injection Hconfirm' as <- <-.
      destruct Hr1 as (i & Hi & Hat & Hbefore & _).
      split.
      * split.
        -- intros [evs [= _ ->]].
           destruct (proj1 (Hok a) eq_refl) as (Hblock & Hstatus & Haddress & Hwritten).
           repeat split; [done|done|by exists hash| |done..].
           exists i, m. repeat split; [lia|done|done|].
           intros j Hj. apply Hbefore. lia.
        -- intros (_ & _ & _ & (i' & m' & Hi' & Hat' & Hstatus & Hbefore') & Hrest).
           assert (i' = i) as ->.
           { destruct (Nat.lt_trichotomy i' i) as [Hlt|[->|Hgt]]; [|done|].
             - rewrite Hbefore in Hat' by lia. discriminate.
             - rewrite Hbefore' in Hat by lia. discriminate. }
           assert (m' = m) as -> by congruence.
           assert (r2 = Returns a) as ->
               by (apply Hok; destruct Hrest as (? & ? & ?); done).
           eauto.
      * intros evs [= <- ->]. rewrite app_nil_r, !app_assoc.
        specialize (Hlast a eq_refl).
        destruct evs2 as [|ev evs2] using rev_ind; [done|].
        rewrite last_snoc in Hlast. rewrite app_assoc. by rewrite last_snoc.
    + rewrite Hcase. split; [|done]. split; [by intros [? ?]|].
      intros (_ & _ & _ & (i & m & Hi & Hat & _) & _).
      destruct Hr1 as [Hnull _]. rewrite Hnull in Hat by lia. discriminate.
    + rewrite Hcase. split; [|done]. split; [by intros [? ?]|].
      intros (_ & _ & _ & (i & m & Hi & Hat & _ & Hbefore') & _).
      destruct Hr1 as (k & Hk & Hat' & Hbefore & _).
      destruct (Nat.lt_trichotomy i k) as [Hlt|[->|Hgt]].
      * rewrite Hbefore in Hat by lia. discriminate.
      * congruence.
      * rewrite Hbefore' in Hat' by lia. discriminate.
Qed.

Lemma findChain_prover env networkName c :
  findChain env networkName = Returns (Some c) →
  truthy (proverAddress c) = true →
  networkName ∈ ["optimism-sepolia"; "optimism_sepolia"; "arbitrum-sepolia";
                 "arbitrum_sepolia"; "base-sepolia"; "base_sepolia"].
Proof.
  unfold findChain, CHAINS_entries.
  cbn [fmap list_fmap snd find].
  rewrite !matches_spec. cbn [name envPrefix]. evaluate_spellings.
  destruct (decide ("optimism-sepolia" = networkName)) as [<-|?]; [intros; member|].
  destruct (bool_decide_reflect (networkName = "optimism_sepolia")) as [->|?]; [intros; member|].
  destruct (decide ("arbitrum-sepolia" = networkName)) as [<-|?]; [intros; member|].
  destruct (bool_decide_reflect (networkName = "arbitrum_sepolia")) as [->|?]; [intros; member|].
  destruct (decide ("base-sepolia" = networkName)) as [<-|?]; [intros; member|].
  destruct (bool_decide_reflect (networkName = "base_sepolia")) as [->|?]; [intros; member|].
  destruct (decide ("mode-sepolia" = networkName)) as [<-|?]; [|done].
  by intros [= <-].
Qed.

(** X17. The deployment script always exits, with status 0 or 1, and what
    it does never depends on the trusted-source set-up: after one
    deployment the list of deployments has one entry, so that step is
    never run.  It exits with 0 exactly when [ACTIVATED_CHAINS] is set, the
    network is found and [deployToChain] returns, which takes one of the
    six spellings of the three chains with a prover; for every other
    network name it exits with 1 without reaching out of the process. *)
Theorem deploy_script_exit_status env networkName w setup :
  ∃ evs code, main env networkName w setup = Some (evs, code)
    ∧ (∀ setup', main env networkName w setup' = Some (evs, code))
    ∧ (code = 0 ∨ code = 1)
    ∧ (code = 0 ↔
       truthy (env !! "ACTIVATED_CHAINS") = true
       ∧ ∃ c a, findChain env networkName = Returns (Some c)
                ∧ deployToChain poll_fuel c w = Some (evs, Returns a))
    ∧ (code = 0 →
       networkName ∈ ["optimism-sepolia"; "optimism_sepolia"; "arbitrum-sepolia";
                      "arbitrum_sepolia"; "base-sepolia"; "base_sepolia"])
    ∧ (networkName ∉ ["optimism-sepolia"; "optimism_sepolia"; "arbitrum-sepolia";
                      "arbitrum_sepolia"; "base-sepolia"; "base_sepolia"] →
       code = 1 ∧ ∀ ev, ev ∈ evs → outward ev = false).
Proof.
  unfold main.
  destruct (truthy (env !! "ACTIVATED_CHAINS")) eqn:Hactivated; cbn [negb].
  2:{ eexists _, _. split; [done|]. split; [done|]. split; [by right|].
      split; [split; [done|by intros [? _]]|]. split; [done|].
      intros _. split; [done|]. intros ev Hin. members Hin. }
  destruct (findChain env networkName) as [[c|]|e] eqn:Hfind.
  - assert (∃ evs r, deployToChain poll_fuel c w = Some (evs, r)) as (evs & r & Hdeploy).
    { destruct (deployToChain_cases c w)
        as [(_ & Hd) | [(_ & ? & ? & _ & Hd)
                       | (_ & ? & ? & ? & r1 & _ & _ & Hcase)]]; [eauto..|].
      destruct r1 as [[m|]|e]; [destruct Hcase as (? & ? & _ & ?)|..]; eauto. }
    rewrite Hdeploy. destruct r as [a|e].
    + cbn. eexists _, _. split; [done|]. split; [done|]. split; [by left|].
      split; [split; [eauto|done]|].
      assert (truthy (proverAddress c) = true) as Hprover.
      { destruct (deployToChain_cases c w) as [(_ & Hd)|[(? & _)|(? & _)]]; [|done..].
        rewrite Hd in Hdeploy. discriminate. }
      split; [intros _; by eapply findChain_prover|].
      intros Hno. destruct Hno. by eapply findChain_prover.
    + eexists _, _. split; [done|]. split; [done|]. split; [by right|].
      split; [split; [done|]; intros (_ & c' & a & [= <-] & Hd'); congruence|].
      split; [done|]. intros Hno. split; [done|].
      assert (truthy (proverAddress c) = false) as Hprover.
      { destruct (truthy (proverAddress c)) eqn:Hp; [|done].
        destruct Hno. by eapply findChain_prover. }
      destruct (deployToChain_cases c w) as [(_ & Hd)|[(? & _)|(? & _)]];
        [|congruence..].
      rewrite Hd in Hdeploy. injection Hdeploy as <- <-.
      intros ev Hin. members Hin. by subst.
  - eexists _, _. split; [done|]. split; [done|]. split; [by right|].
    split; [split; [done|]; by intros (_ & ? & ? & ? & _)|]. split; [done|].
    intros _. split; [done|]. intros ev Hin. members Hin. by subst.
  - eexists _, _. split; [done|]. split; [done|]. split; [by right|].
    split; [split; [done|]; by intros (_ & ? & ? & ? & _)|]. split; [done|].
    intros _. split; [done|]. intros ev Hin. members Hin. by subst.
Qed.

End DeployFacts.

Lemma deployment_gives_up_after_30_lookups_witness :
  ∃ evs, Deploy.deployToChain Deploy.poll_fuel Fixture.optimism Fixture.stalled
         = Some (evs, Throws (mkError "Failed to get transaction receipt after 5 minutes"))
         ∧ Deploy.lookups evs = 30%nat.
Proof.
  destruct (deployment_gives_up_after_30_lookups Fixture.optimism Fixture.stalled)
    as (evs & r & Hdeploy & _ & _ & Htimeout).
  destruct Htimeout as (Hcount & -> & _); [done|done|by eexists|done|].
  eauto.
Defined.

Lemma env_written_only_for_mined_deployment_witness :
  "OPTIMISM_SEPOLIA_INVOICEBATCHER_ADDRESS" = ChainListener.contractEnvKey Fixture.optimism
  ∧ Deploy.address Fixture.network = Returns "0xnew"
  ∧ truthy (proverAddress Fixture.optimism) = true
  ∧ ∃ i m, (i < 30)%nat ∧ Deploy.receiptAt Fixture.network i = Returns (Some m)
           ∧ Deploy.status m = true
           ∧ ∀ j, (j < i)%nat → Deploy.receiptAt Fixture.network j = Returns None.
Proof.
  eapply (env_written_only_for_mined_deployment Fixture.optimism Fixture.network).
  - vm_compute. reflexivity.
  - member.
Defined.

(** ** The trusted-source script *)

Section TrustFacts.
Import TrustSetup.
Variable toLowerCase : string → string.

Lemma quiet_app evs evs' : quiet evs → quiet evs' → quiet (evs ++ evs').
Proof. intros H H' msg [Hin|Hin]%elem_of_app; [by apply H in Hin|by apply H' in Hin]. Qed.

Lemma halts_app {A} evs evs' (r : Outcome A) :
  quiet evs → halts (evs', r) → halts (evs ++ evs', r).
Proof.
  intros Hquiet Hhalts. destruct r as [a|e]; cbn in *.
  - by apply quiet_app.
  - destruct Hhalts as [Hk|(evs'' & -> & Hk)]; [left; by apply quiet_app|].
    right. exists (evs ++ evs''). split; [by rewrite app_assoc|by apply quiet_app].
Qed.

(** One pair: what [trust] emits, when it sends a transaction and what a
    return means. *)
Lemma trust_spec w i j source target evs r :
  trust toLowerCase w i j source target = (evs, r) →
  halts (evs, r)
  ∧ (∀ sid tid a, SetTrusted sid tid a ∈ evs →
       sid = chainId source.1 ∧ tid = chainId target.1 ∧ a = target.2
       ∧ ∃ cur, trusted w i j 0 = Returns cur
                ∧ sameAddress toLowerCase cur target.2 = false)
  ∧ (∀ rpc a, Connect rpc a ∉ evs)
  ∧ (∀ u, r = Returns u →
       ReadTrusted (chainId source.1) (chainId target.1) ∈ evs
       ∧ ∃ k a, (k = 0%nat ∨ k = 1%nat ∧ submitted w i j = Mined true)
                ∧ trusted w i j k = Returns a
                ∧ sameAddress toLowerCase a target.2 = true).
Proof.
  unfold trust, logAndRethrow, bind, await, ret, throw.
  destruct (trusted w i j 0) as [cur|e] eqn:Hcur.
  - destruct (sameAddress toLowerCase cur target.2) eqn:Hsame.
    + intros [= <- <-]. split; [intros msg Hin; members Hin|].
      split; [intros sid tid a Hin; members Hin|].
      split; [intros rpc a Hin; members Hin|].
      intros _ _. split; [member|]. exists 0%nat, cur. auto.
    + destruct (submitted w i j) as [e|e|[]] eqn:Hsub; cbn.
      * intros [= <- <-]. split.
        { right. eexists [_; _]. split; [done|]. intros msg Hin; members Hin. }
        split; [|split; [intros rpc a Hin; members Hin|done]].
        intros sid tid a Hin. members Hin. injection Hin as -> -> ->. repeat split; eauto.
      * intros [= <- <-]. split.
        { right. eexists [_; _; _]. split; [done|]. intros msg Hin; members Hin. }
        split; [|split; [intros rpc a Hin; members Hin|done]].
        intros sid tid a Hin. members Hin. injection Hin as -> -> ->. repeat split; eauto.
      * destruct (trusted w i j 1) as [new|e] eqn:Hnew; cbn.
        -- destruct (sameAddress toLowerCase new target.2) eqn:Hsame'; cbn.
           ++ intros [= <- <-]. split; [intros msg Hin; members Hin|].
              split; [|split; [intros rpc a Hin; members Hin|]].
              { intros sid tid a Hin. members Hin. injection Hin as -> -> ->. repeat split; eauto. }
              intros _ _. split; [member|]. exists 1%nat, new. auto.
           ++ intros [= <- <-]. split.
              { right. eexists [_; _; _; _]. split; [done|].
                intros msg Hin; members Hin. }
              split; [|split; [intros rpc a Hin; members Hin|done]].
              intros sid tid a Hin. members Hin. injection Hin as -> -> ->. repeat split; eauto.
        -- intros [= <- <-]. split.
           { right. eexists [_; _; _; _]. split; [done|].
             intros msg Hin; members Hin. }
           split; [|split; [intros rpc a Hin; members Hin|done]].
           intros sid tid a Hin. members Hin. injection Hin as -> -> ->. repeat split; eauto.
      * intros [= <- <-]. split.
        { right. eexists [_; _; _]. split; [done|]. intros msg Hin; members Hin. }
        split; [|split; [intros rpc a Hin; members Hin|done]].
        intros sid tid a Hin. members Hin. injection Hin as -> -> ->. repeat split; eauto.
  - intros [= <- <-]. split.
    { right. eexists [_]. split; [done|]. intros msg Hin; members Hin. }
    split; [intros sid tid a Hin; members Hin|].
    split; [intros rpc a Hin; members Hin|done].
Qed.

(** The inner loop, from position [j] on. *)
Lemma targets_spec w i source : ∀ ts j evs r,
  targets toLowerCase w i source j ts = (evs, r) →
  halts (evs, r)
  ∧ (∀ sid tid a, SetTrusted sid tid a ∈ evs →
       sid = chainId source.1 ∧ sid ≠ tid
       ∧ ∃ j' target, ts !! j' = Some target ∧ chainId target.1 = tid ∧ target.2 = a
           ∧ ∃ cur, trusted w i (j + j') 0 = Returns cur
                    ∧ sameAddress toLowerCase cur a = false)
  ∧ (∀ rpc a, Connect rpc a ∉ evs)
  ∧ (∀ u, r = Returns u →
       ∀ j' target, ts !! j' = Some target → chainId source.1 ≠ chainId target.1 →
         ReadTrusted (chainId source.1) (chainId target.1) ∈ evs
         ∧ ∃ k a, (k = 0%nat ∨ k = 1%nat ∧ submitted w i (j + j') = Mined true)
                  ∧ trusted w i (j + j') k = Returns a
                  ∧ sameAddress toLowerCase a target.2 = true).
Proof.
  induction ts as [|target ts IH]; intros j evs r; simpl.
  - intros [= <- <-]. split; [intros msg Hin; members Hin|].
    split; [intros sid tid a Hin; members Hin|].
    split; [intros rpc a Hin; members Hin|]. by intros _ _ j' t Hl.
  - case_decide as Hid.
    + intros Hrest. destruct (IH _ _ _ Hrest) as (Hh & Hset & Hconn & Hret).
      split; [done|]. split; [|split; [done|]].
      * intros sid tid a Hin.
        destruct (Hset _ _ _ Hin)
          as (-> & Hne & j' & t & Hl & Ht & Ha & cur & Hcur & Hsame).
        split; [done|]. split; [done|]. exists (S j'), t.
        replace (j + S j')%nat with (S j + j')%nat by lia. eauto 10.
      * intros u -> [|j'] t Hl Hne; simpl in Hl.
        { injection Hl as <-. done. }
        replace (j + S j')%nat with (S j + j')%nat by lia.
        by apply (Hret u).
    + unfold bind.
      destruct (trust toLowerCase w i j source target) as [evs1 [u|e]] eqn:Htrust.
      * destruct (targets toLowerCase w i source (S j) ts) as [evs2 r2] eqn:Hrest.
        intros [= <- <-].
        destruct (trust_spec _ _ _ _ _ _ _ Htrust) as (Hh1 & Hset1 & Hconn1 & Hret1).
        destruct (IH _ _ _ Hrest) as (Hh2 & Hset2 & Hconn2 & Hret2).
        split; [by apply halts_app|]. split; [|split].
        -- intros sid tid a [Hin|Hin]%elem_of_app.
           ++ destruct (Hset1 _ _ _ Hin) as (-> & -> & -> & cur & Hcur & Hsame).
              split; [done|]. split; [done|]. exists 0%nat, target.
              rewrite Nat.add_0_r. eauto 10.
           ++ destruct (Hset2 _ _ _ Hin)
                as (-> & Hne & j' & t & Hl & Ht & Ha & cur & Hcur & Hsame).
              split; [done|]. split; [done|]. exists (S j'), t.
              replace (j + S j')%nat with (S j + j')%nat by lia. eauto 10.
        -- intros rpc a [Hin|Hin]%elem_of_app; [by apply Hconn1 in Hin|by apply Hconn2 in Hin].
        -- intros u' -> [|j'] t Hl Hne; simpl in Hl.
           ++ injection Hl as <-. rewrite Nat.add_0_r.
              destruct (Hret1 u eq_refl) as [Hread Hk].
              split; [apply elem_of_app; by left|done].
           ++ replace (j + S j')%nat with (S j + j')%nat by lia.
              destruct (Hret2 u' eq_refl j' t Hl Hne) as [Hread Hk].
              split; [apply elem_of_app; by right|done].
      * intros [= <- <-].
        destruct (trust_spec _ _ _ _ _ _ _ Htrust) as (Hh1 & Hset1 & Hconn1 & _).
        split; [done|]. split; [|split; [done|done]].
        intros sid tid a Hin.
        destruct (Hset1 _ _ _ Hin) as (-> & -> & -> & cur & Hcur & Hsame).
        split; [done|]. split; [done|]. exists 0%nat, target.
        rewrite Nat.add_0_r. eauto 10.
Qed.

(** The outer loop, from position [i] on. *)
Lemma sources_spec w all : ∀ ss i evs r,
  sources toLowerCase w all i ss = (evs, r) →
  halts (evs, r)
  ∧ (∀ sid tid a, SetTrusted sid tid a ∈ evs →
       sid ≠ tid
       ∧ ∃ i' j source target,
           ss !! i' = Some source ∧ all !! j = Some target
           ∧ chainId source.1 = sid ∧ chainId target.1 = tid ∧ target.2 = a
           ∧ ∃ cur, trusted w (i + i') j 0 = Returns cur
                    ∧ sameAddress toLowerCase cur a = false)
  ∧ (∀ u, r = Returns u →
       wallet w = Returns tt ∨ ss = [])
  ∧ (∀ u, r = Returns u →
       ∀ i' j source target,
         ss !! i' = Some source → all !! j = Some target →
         chainId source.1 ≠ chainId target.1 →
         ReadTrusted (chainId source.1) (chainId target.1) ∈ evs
         ∧ ∃ k a, (k = 0%nat ∨ k = 1%nat ∧ submitted w (i + i') j = Mined true)
                  ∧ trusted w (i + i') j k = Returns a
                  ∧ sameAddress toLowerCase a target.2 = true).
Proof.
  induction ss as [|source ss IH]; intros i evs r; simpl.
  - intros [= <- <-]. split; [intros msg Hin; members Hin|].
    split; [intros sid tid a Hin; members Hin|].
    split; [auto|]. by intros _ _ i' j s t Hl.
  - unfold bind, await. destruct (wallet w) as [[]|e].
    + destruct (targets toLowerCase w i source 0 all) as [evs1 [u|e]] eqn:Htargets.
      * destruct (sources toLowerCase w all (S i) ss) as [evs2 r2] eqn:Hrest.
        intros [= <- <-].
        destruct (targets_spec _ _ _ _ _ _ _ Htargets) as (Hh1 & Hset1 & Hconn1 & Hret1).
        destruct (IH _ _ _ Hrest) as (Hh2 & Hset2 & _ & Hret2).
        split.
        { apply (@halts_app unit [Connect (rpc source.1) source.2] (evs1 ++ evs2) r2);
            [intros msg Hin; members Hin|]. by apply halts_app. }
        split; [|split; [auto|]].
        -- intros sid tid a [Hin|[Hin|Hin]%elem_of_app]%elem_of_cons; [done| |].
           ++ destruct (Hset1 _ _ _ Hin)
                as (-> & Hne & j & t & Hl & Ht & Ha & cur & Hcur & Hsame).
              split; [done|]. exists 0%nat, j, source, t.
              rewrite Nat.add_0_r. eauto 10.
           ++ destruct (Hset2 _ _ _ Hin)
                as (Hne & i' & j & s & t & Hs & Hl & Hsid & Ht & Ha & cur & Hcur & Hsame).
              split; [done|]. exists (S i'), j, s, t.
              replace (i + S i')%nat with (S i + i')%nat by lia. eauto 10.
        -- intros u' -> [|i'] j s t Hs Hl Hne; simpl in Hs.
           ++ injection Hs as <-. rewrite Nat.add_0_r.
              destruct (Hret1 u eq_refl j t Hl Hne) as [Hread Hk].
              split; [|done]. apply elem_of_cons; right. apply elem_of_app; by left.
           ++ replace (i + S i')%nat with (S i + i')%nat by lia.
              destruct (Hret2 u' eq_refl i' j s t Hs Hl Hne) as [Hread Hk].
              split; [|done]. apply elem_of_cons; right. apply elem_of_app; by right.
      * intros [= <- <-].
        destruct (targets_spec _ _ _ _ _ _ _ Htargets) as (Hh1 & Hset1 & Hconn1 & _).
        split.
        { apply (@halts_app unit [Connect (rpc source.1) source.2] evs1 (Throws e));
            [intros msg Hin; members Hin|done]. }
        split; [|split; [done|done]].
        intros sid tid a [Hin|Hin]%elem_of_cons; [done|].
        destruct (Hset1 _ _ _ Hin)
          as (-> & Hne & j & t & Hl & Ht & Ha & cur & Hcur & Hsame).
        split; [done|]. exists 0%nat, j, source, t.
        rewrite Nat.add_0_r. eauto 10.
    + intros [= <- <-]. split; [left; intros msg Hin; members Hin|].
      split; [intros sid tid a Hin; members Hin|]. split; [done|done].
Qed.

Lemma validate_returns ds vs :
  validate ds = Returns vs →
  vs = (λ d, (chainConfig d, tpl (address d))) <$> ds
  ∧ Forall (λ d, truthy (address d) = true) ds.
Proof.
  revert vs. induction ds as [|d ds IH]; intros vs; simpl.
  - by intros [= <-].
  - destruct (truthy (address d)) eqn:Haddress; [|done]. cbn [negb].
    destruct (validate ds) as [vs'|e]; [|done]. intros [= <-].
    destruct (IH vs' eq_refl) as [-> Hall]. split; [done|]. by constructor.
Qed.

Lemma validate_throws ds e :
  validate ds = Throws e →
  ∃ d, d ∈ ds ∧ truthy (address d) = false
       ∧ e = mkError ("Missing contract address for " +:+ name (chainConfig d)
                      +:+ " in .env").
Proof.
  induction ds as [|d ds IH]; simpl; [done|].
  destruct (truthy (address d)) eqn:Haddress; cbn [negb].
  - destruct (validate ds) as [vs'|e']; [done|]. intros [= ->].
    destruct (IH eq_refl) as (d' & Hin & Hd'). exists d'. split; [|done].
    apply elem_of_cons. by right.
  - intros [= <-]. exists d. split; [|done]. apply elem_of_cons. by left.
Qed.

(** The validated deployments are the enabled chains, each with the
    address the environment gives it. *)
Lemma validated_enabled env ds :
  validate (deployments env) = Returns ds →
  ∀ i c a, ds !! i = Some (c, a) ↔
           getEnabledChains env !! i = Some c
           ∧ env !! ChainListener.contractEnvKey c = Some a.
Proof.
  intros [-> Hall]%validate_returns i c a. unfold deployments in *.
  rewrite Forall_fmap in Hall. rewrite <- list_fmap_compose, list_lookup_fmap.
  destruct (getEnabledChains env !! i) as [c'|] eqn:Hi; cbn;
    [|split; [done|by intros [? _]]].
  assert (truthy (env !! ChainListener.contractEnvKey c') = true) as Htruthy.
  { rewrite Forall_forall in Hall. apply (Hall c'). by eapply list_elem_of_lookup_2. }
  destruct (env !! ChainListener.contractEnvKey c') as [a'|] eqn:Ha; [|done].
  cbn. split.
  - intros [= <- <-]. by rewrite Ha.
  - intros [[= <-] Ha']. rewrite Ha in Ha'. by injection Ha' as <-.
Qed.

Lemma enabled_activated env c :
  c ∈ getEnabledChains env → truthy (env !! "ACTIVATED_CHAINS") = true.
Proof.
  unfold getEnabledChains. intros (oc & Hoc & Hid)%list_elem_of_omap.
  simpl in Hid. subst oc.
  apply list_elem_of_In, List.filter_In in Hoc as [Hin _].
  apply list_elem_of_In, list_elem_of_fmap in Hin as (key & Hkey & Hactivated).
  unfold activatedChains in Hactivated.
  destruct (env !! "ACTIVATED_CHAINS") as [s|]; [|by apply elem_of_nil in Hactivated].
  destruct s as [|ch s]; [|done].
  apply list_elem_of_singleton in Hactivated as ->.
  symmetry in Hkey. apply elem_of_list_to_map_2 in Hkey.
  unfold CHAINS_entries in Hkey. members Hkey.
Qed.

(** X18. The script checks every address before it touches a chain: when
    an enabled chain has no contract address in the environment, nothing
    is connected, read or sent; [setupTrustedSources] throws "Missing
    contract address for NAME in .env" for such a chain and the script
    exits with 1. *)
Theorem setup_checks_addresses_before_any_call env w c :
  c ∈ getEnabledChains env →
  truthy (env !! ChainListener.contractEnvKey c) = false →
  ∃ c' e, c' ∈ getEnabledChains env
    ∧ truthy (env !! ChainListener.contractEnvKey c') = false
    ∧ e = mkError ("Missing contract address for " +:+ name c' +:+ " in .env")
    ∧ setupTrustedSources toLowerCase env w = ([], Throws e)
    ∧ script toLowerCase env w = ([LogError e], 1).
Proof.
  intros Hc Hmissing. unfold script, setupTrustedSources.
  rewrite (enabled_activated env c Hc). cbn [negb].
  destruct (validate (deployments env)) as [ds|e] eqn:Hvalidate.
  - apply validate_returns in Hvalidate as [_ Hall].
    rewrite Forall_forall in Hall.
    specialize (Hall (mkDeployment c (env !! ChainListener.contractEnvKey c))).
    cbn in Hall. rewrite Hmissing in Hall. discriminate Hall.
    unfold deployments. apply list_elem_of_fmap. by exists c.
  - apply validate_throws in Hvalidate as (d & Hin & Hd & ->).
    unfold deployments in Hin. apply list_elem_of_fmap in Hin as (c' & -> & Hc').
    exists c'. eexists. repeat split; done.
Qed.

(** X19. When [setupTrustedSources] returns, every ordered pair of enabled
    chains with different chain ids has been checked: the source contract
    was read for the target chain, and either the first read or, after a
    transaction mined with truthy status, the second read equals the
    target's configured address up to case. *)
Theorem setup_success_verifies_every_pair env w evs u i j source target :
  setupTrustedSources toLowerCase env w = (evs, Returns u) →
  getEnabledChains env !! i = Some source →
  getEnabledChains env !! j = Some target →
  chainId source ≠ chainId target →
  ReadTrusted (chainId source) (chainId target) ∈ evs
  ∧ ∃ address k a,
      env !! ChainListener.contractEnvKey target = Some address
      ∧ (k = 0%nat ∨ k = 1%nat ∧ submitted w i j = Mined true)
      ∧ trusted w i j k = Returns a
      ∧ sameAddress toLowerCase a address = true.
Proof.
  unfold setupTrustedSources.
  destruct (validate (deployments env)) as [ds|e] eqn:Hvalidate; [|done].
  intros Hrun Hi Hj Hne.
  pose proof (validated_enabled env ds Hvalidate) as Hds.
  pose proof (validate_returns _ _ Hvalidate) as [Heq _].
  assert (∃ a, ds !! i = Some (source, a)) as [a Hsource].
  { rewrite Heq. unfold deployments.
    rewrite <- list_fmap_compose, list_lookup_fmap, Hi. cbn. eauto. }
  assert (∃ a, ds !! j = Some (target, a)) as [b Htarget].
  { rewrite Heq. unfold deployments.
    rewrite <- list_fmap_compose, list_lookup_fmap, Hj. cbn. eauto. }
  destruct (sources_spec _ _ _ _ _ _ Hrun) as (_ & _ & _ & Hret).
  destruct (Hret u eq_refl i j _ _ Hsource Htarget Hne) as (Hread & k & a' & Hk & Hat & Hsame).
  split; [done|]. exists b, k, a'. split; [by apply Hds in Htarget as [_ ?]|done].
Qed.

(** X20. The script sends [setTrustedSourceContract] only where it is
    needed: never for a chain towards itself, only with the configured
    address of an enabled target chain, and only after the source
    contract answered a different address for it. *)
Theorem setup_sends_only_needed_transactions env w evs r sid tid a :
  setupTrustedSources toLowerCase env w = (evs, r) →
  SetTrusted sid tid a ∈ evs →
  sid ≠ tid
  ∧ ∃ i j source target,
      getEnabledChains env !! i = Some source
      ∧ getEnabledChains env !! j = Some target
      ∧ chainId source = sid ∧ chainId target = tid
      ∧ env !! ChainListener.contractEnvKey target = Some a
      ∧ ∃ cur, trusted w i j 0 = Returns cur
               ∧ sameAddress toLowerCase cur a = false.
Proof.
  unfold setupTrustedSources.
  destruct (validate (deployments env)) as [ds|e] eqn:Hvalidate.
  - intros Hrun Hin.
    pose proof (validated_enabled env ds Hvalidate) as Hds.
    destruct (sources_spec _ _ _ _ _ _ Hrun) as (_ & Hset & _).
    destruct (Hset _ _ _ Hin)
      as (Hne & i & j & [s sa] & [t ta] & Hs & Ht & Hsid & Htid & Ha & Hcur).
    cbn in *. subst. split; [done|]. exists i, j, s, t.
    apply Hds in Hs as [Hs _]. apply Hds in Ht as [Ht Hta]. eauto 10.
  - intros [= <- <-] Hin. members Hin.
Qed.

(** X21. The first failure on a pair halts the script: the failure is
    logged once, as the last thing [setupTrustedSources] does, the error is
    rethrown and the script exits with 1. *)
Theorem setup_halts_at_first_failure env w evs r msg :
  setupTrustedSources toLowerCase env w = (evs, r) →
  LogFailure msg ∈ evs →
  ∃ evs' e, evs = evs' ++ [LogFailure msg] ∧ quiet evs'
    ∧ r = Throws e ∧ message e = msg
    ∧ script toLowerCase env w = (evs ++ [LogError e], 1).
Proof.
  intros Hrun Hin.
  assert (halts (evs, r) ∧ getEnabledChains env ≠ []) as [Hhalts Henabled].
  { unfold setupTrustedSources in Hrun.
    destruct (validate (deployments env)) as [ds|e] eqn:Hvalidate.
    - split; [by destruct (sources_spec _ _ _ _ _ _ Hrun)|].
      intros Hnone. apply validate_returns in Hvalidate as [-> _].
      unfold deployments in Hrun. rewrite Hnone in Hrun. cbn in Hrun.
      injection Hrun as <- <-. members Hin.
    - injection Hrun as <- <-. members Hin. }
  assert (truthy (env !! "ACTIVATED_CHAINS") = true) as Hactivated.
  { destruct (getEnabledChains env) as [|c cs] eqn:Hcs; [done|].
    apply (enabled_activated env c). rewrite Hcs. apply elem_of_cons. by left. }
  unfold script. rewrite Hactivated, Hrun. cbn [negb].
  destruct r as [u|e]; cbn in Hhalts; [by apply Hhalts in Hin|].
  destruct Hhalts as [Hquiet|(evs' & -> & Hquiet)]; [by apply Hquiet in Hin|].
  apply elem_of_app in Hin as [Hin|Hin]; [by apply Hquiet in Hin|].
  apply list_elem_of_singleton in Hin as [= ->].
  exists evs', e. done.
Qed.

End TrustFacts.

Lemma setup_checks_addresses_before_any_call_witness :
  ∃ c' e, c' ∈ getEnabledChains Fixture.env
    ∧ truthy (Fixture.env !! ChainListener.contractEnvKey c') = false
    ∧ e = mkError ("Missing contract address for " +:+ name c' +:+ " in .env")
    ∧ TrustSetup.setupTrustedSources Deploy.toLowerCase Fixture.env Fixture.fresh
      = ([], Throws e)
    ∧ TrustSetup.script Deploy.toLowerCase Fixture.env Fixture.fresh
      = ([TrustSetup.LogError e], 1).
Proof.
  apply (setup_checks_addresses_before_any_call Deploy.toLowerCase Fixture.env
           Fixture.fresh Fixture.base).
  - vm_compute. member.
  - vm_compute. reflexivity.
Defined.

Lemma setup_success_verifies_every_pair_witness :
  ∃ source target,
    getEnabledChains Fixture.deployed !! 0%nat = Some source
    ∧ getEnabledChains Fixture.deployed !! 1%nat = Some target
    ∧ TrustSetup.ReadTrusted (chainId source) (chainId target)
      ∈ (TrustSetup.setupTrustedSources Deploy.toLowerCase Fixture.deployed Fixture.fresh).1
    ∧ ∃ address k a,
        Fixture.deployed !! ChainListener.contractEnvKey target = Some address
        ∧ (k = 0%nat ∨ k = 1%nat ∧ TrustSetup.submitted Fixture.fresh 0 1 = TrustSetup.Mined true)
        ∧ TrustSetup.trusted Fixture.fresh 0 1 k = Returns a
        ∧ TrustSetup.sameAddress Deploy.toLowerCase a address = true.
Proof.
  destruct (getEnabledChains Fixture.deployed !! 0%nat) as [source|] eqn:Hsource;
    [|by vm_compute in Hsource].
  destruct (getEnabledChains Fixture.deployed !! 1%nat) as [target|] eqn:Htarget;
    [|by vm_compute in Htarget].
  exists source, target. split; [done|]. split; [done|].
  apply (setup_success_verifies_every_pair Deploy.toLowerCase Fixture.deployed
           Fixture.fresh _ tt 0 1 source target); [|done|done|].
  - vm_compute. reflexivity.
  - vm_compute in Hsource, Htarget.
    injection Hsource as <-. injection Htarget as <-. done.
Defined.

Lemma setup_sends_only_needed_transactions_witness :
  11155420 ≠ 84532
  ∧ ∃ i j source target,
      getEnabledChains Fixture.deployed !! i = Some source
      ∧ getEnabledChains Fixture.deployed !! j = Some target
      ∧ chainId source = 11155420 ∧ chainId target = 84532
      ∧ Fixture.deployed !! ChainListener.contractEnvKey target = Some "0xb3"
      ∧ ∃ cur, TrustSetup.trusted Fixture.fresh i j 0 = Returns cur
               ∧ TrustSetup.sameAddress Deploy.toLowerCase cur "0xb3" = false.
Proof.
  eapply (setup_sends_only_needed_transactions Deploy.toLowerCase Fixture.deployed
            Fixture.fresh).
  - vm_compute. reflexivity.
  - member.
Defined.

Lemma setup_halts_at_first_failure_witness :
  ∃ evs' e,
    (TrustSetup.setupTrustedSources Deploy.toLowerCase Fixture.deployed Fixture.rejecting).1
    = evs' ++ [TrustSetup.LogFailure "nonce too low"]
    ∧ TrustSetup.quiet evs'
    ∧ (TrustSetup.setupTrustedSources Deploy.toLowerCase Fixture.deployed Fixture.rejecting).2
      = Throws e
    ∧ message e = "nonce too low"
    ∧ TrustSetup.script Deploy.toLowerCase Fixture.deployed Fixture.rejecting
      = ((TrustSetup.setupTrustedSources Deploy.toLowerCase Fixture.deployed
            Fixture.rejecting).1 ++ [TrustSetup.LogError e], 1).
Proof.
  apply (setup_halts_at_first_failure Deploy.toLowerCase Fixture.deployed
           Fixture.rejecting).
  - apply surjective_pairing.
  - vm_compute. member.
Defined.

(** ** The invoice-sending script *)

Section SendFacts.
Import SendInvoices.
Variable hashOf : string → string.

Lemma sentHashes_app evs evs' :
  sentHashes (evs ++ evs') = sentHashes evs ++ sentHashes evs'.
Proof. apply omap_app. Qed.

Lemma sleeps_app evs evs' : sleeps (evs ++ evs') = (sleeps evs + sleeps evs')%nat.
Proof. unfold sleeps. by rewrite List.filter_app, length_app. Qed.

(** The sending loop, from position [i] on. *)
Lemma sendAll_spec w : ∀ hs i evs r,
  sendAll w i hs = (evs, r) →
  (∀ ev, ev ∈ evs →
     (∃ h, ev = EstimateGas h) ∨ (∃ h g, ev = NewInvoice h g) ∨ ev = Wait
     ∨ ev = Sleep 1000)
  ∧ sentHashes evs `prefix_of` hs
  ∧ (sleeps evs ≤ length (sentHashes evs))%nat
  ∧ (∀ u, r = Returns u →
       sentHashes evs = hs
       ∧ sleeps evs = pred (length hs)
       ∧ ∀ k h, hs !! k = Some h →
           invoiceTx w (i + k) = Mined
           ∧ ∃ g, estimatedGas w (i + k) = Returns g ∧ NewInvoice h g ∈ evs).
Proof.
  induction hs as [|h hs IH]; intros i evs r; simpl.
  - intros [= <- <-]. split; [intros ev Hin; members Hin|].
    split; [done|]. split; [done|]. by intros _ _.
  - unfold bind at 1, await.
    destruct (estimatedGas w i) as [g|e] eqn:Hgas.
    2:{ intros [= <- <-]. split; [|split; [apply prefix_nil|split; [done|done]]].
        intros ev Hin. members Hin. subst. eauto. }
    unfold bind at 1, submit.
    destruct (invoiceTx w i) as [e|e|] eqn:Htx.
    1,2: intros [= <- <-]; (split; [intros ev Hin; members Hin; subst; eauto 6
                                   |split; [apply prefix_cons, prefix_nil
                                           |split; [cbn; lia|done]]]).
    set (slept := match hs with
                  | [] => ret tt
                  | _ :: _ => ([Sleep 1000], Returns tt)
                  end).
    assert (slept = (slept.1, Returns tt)
            ∧ (∀ ev, ev ∈ slept.1 → ev = Sleep 1000)
            ∧ sentHashes slept.1 = []
            ∧ sleeps slept.1 = (if decide (hs = []) then 0 else 1)%nat)
      as (Hslept_eq & Hpause & Hnone & Hslept).
    { subst slept. clear. destruct hs; (split; [done|]); (split; [|done]);
        intros ev Hin; members Hin; done. }
    destruct slept as [pause ?]. cbn [fst] in Hslept_eq, Hpause, Hnone, Hslept.
    injection Hslept_eq as ->.
    destruct (sendAll w (S i) hs) as [evs' r'] eqn:Hrest. intros [= <- <-].
    destruct (IH _ _ _ Hrest) as (Hevs & Hprefix & Hsleeps & Hret).
    change (EstimateGas h :: NewInvoice h g :: Wait :: pause ++ evs')
      with ([EstimateGas h; NewInvoice h g; Wait] ++ pause ++ evs').
    rewrite !sentHashes_app, !sleeps_app, Hnone, Hslept.
    change (sentHashes [EstimateGas h; NewInvoice h g; Wait]) with [h].
    change (sleeps [EstimateGas h; NewInvoice h g; Wait]) with 0%nat.
    split; [|split; [by apply prefix_cons|split]].
    + intros ev [Hin|[Hin|Hin]%elem_of_app]%elem_of_app; [| |by apply Hevs].
      * members Hin; subst; eauto 6.
      * apply Hpause in Hin. auto.
    + cbn [app length]. case_decide as Hhs; [|lia].
      subst hs. cbn in Hrest. injection Hrest as <- <-. cbn. lia.
    + intros u ->. destruct (Hret u eq_refl) as (Hsent & Hslept' & Hall).
      split; [cbn; by rewrite Hsent|]. split.
      { rewrite Hslept'. case_decide as Hhs; [by subst|].
        destruct hs; [done|]. cbn. lia. }
      intros [|k] h' Hk; cbn in Hk.
      * injection Hk as <-. rewrite Nat.add_0_r. split; [done|].
        exists g. split; [done|]. apply elem_of_app. left. member.
      * replace (i + S k)%nat with (S i + k)%nat by lia.
        destruct (Hall k h' Hk) as (Hmined & g' & Hg' & Hin). split; [done|].
        exists g'. split; [done|]. apply elem_of_app. right. apply elem_of_app. by right.
Qed.

(** The [try] block: the connection, then what the sending loop did, then
    a tail of count and batch calls. *)
Lemma transact_cases env answers w evs r :
  transact hashOf env answers w = (evs, r) →
  (evs = [] ∧ (∃ e, r = Throws e)
   ∧ (truthy (env !! ChainListener.rpcEnvKey (chain answers)) = false
      ∨ truthy (env !! ChainListener.contractEnvKey (chain answers)) = false))
  ∨ ∃ mid tail,
      truthy (env !! ChainListener.rpcEnvKey (chain answers)) = true
      ∧ truthy (env !! ChainListener.contractEnvKey (chain answers)) = true
      ∧ evs = [Connect (tpl (env !! ChainListener.rpcEnvKey (chain answers)))
                 (tpl (env !! ChainListener.contractEnvKey (chain answers)));
               GetPendingInvoicesCount] ++ mid ++ tail
      ∧ ((mid = [] ∧ tail = [] ∧ ∃ e, r = Throws e)
         ∨ ∃ r1, sendAll w 0 (hashOf <$> invoiceIds answers) = (mid, r1)
                 ∧ (∀ e, r1 = Throws e → tail = [] ∧ r = Throws e)
                 ∧ (∀ u, r = Returns u → ∃ u1, r1 = Returns u1))
      ∧ (∀ ev, ev ∈ tail →
           ev = GetPendingInvoicesCount ∨ ev = BatchInvoices 500000 ∨ ev = Wait)
      ∧ (BatchInvoices 500000 ∈ tail →
           sendAll w 0 (hashOf <$> invoiceIds answers) = (mid, Returns tt)
           ∧ autoBatch answers = true
           ∧ ∃ c, pendingCount w 1 = Returns c ∧ 0 < c)
      ∧ (∀ u, r = Returns u → autoBatch answers = true →
           ∀ c, pendingCount w 1 = Returns c → 0 < c → BatchInvoices 500000 ∈ tail).
Proof.
  unfold transact, ChainListener.rpcEnvKey, ChainListener.contractEnvKey.
  set (rpc := env !! (tpl (envPrefix (chain answers)) +:+ "_RPC")).
  set (address := env !! (tpl (envPrefix (chain answers)) +:+ "_INVOICEBATCHER_ADDRESS")).
  set (hs := hashOf <$> invoiceIds answers).
  destruct (truthy rpc); cbn [negb]; [|intros [= <- <-]; left; eauto].
  destruct (truthy address); cbn [negb]; [|intros [= <- <-]; left; eauto].
  unfold bind at 1.
  destruct (pendingCount w 0) as [c0|e].
  2:{ intros [= <- <-]. right. exists [], [].
      split; [done|]. split; [done|]. split; [done|].
      split; [left; eauto|]. split; [intros ev Hin; members Hin|].
      split; [intros Hin; members Hin|done]. }
  unfold bind at 1.
  destruct (sendAll w 0 hs) as [mid [[]|e]] eqn:Hsend.
  2:{ intros [= <- <-]. right. exists mid, []. rewrite app_nil_r.
      split; [done|]. split; [done|]. split; [done|].
      split; [right; exists (Throws e); split; [done|]; split; [by intros ? [= <-]|done]|].
      split; [intros ev Hin; members Hin|].
      split; [intros Hin; members Hin|done]. }
  unfold bind at 1, await.
  destruct (pendingCount w 1) as [c1|e].
  2:{ intros [= <- <-]. right. exists mid, [GetPendingInvoicesCount].
      rewrite <- ?app_assoc.
      split; [done|]. split; [done|]. split; [done|].
      split; [right; exists (Returns tt); split; [done|]; split; [done|done]|].
      split; [intros ev Hin; members Hin; auto|].
      split; [intros Hin; members Hin|done]. }
  destruct (autoBatch answers) eqn:Hauto; cbn [andb].
  2:{ intros [= <- <-]. right. exists mid, [GetPendingInvoicesCount].
      rewrite ?app_nil_r, <- ?app_assoc.
      split; [done|]. split; [done|]. split; [done|].
      split; [right; exists (Returns tt); split; [done|]; split; [done|eauto]|].
      split; [intros ev Hin; members Hin; auto|].
      split; [intros Hin; members Hin|done]. }
  destruct (Z.ltb_spec 0 c1) as [Hpos|Hzero].
  2:{ intros [= <- <-]. right. exists mid, [GetPendingInvoicesCount].
      rewrite ?app_nil_r, <- ?app_assoc.
      split; [done|]. split; [done|]. split; [done|].
      split; [right; exists (Returns tt); split; [done|]; split; [done|eauto]|].
      split; [intros ev Hin; members Hin; auto|].
      split; [intros Hin; members Hin|]. intros _ _ _ c [= <-] ?. lia. }
  unfold submit, bind.
  destruct (batchTx w) as [e|e|]; [| |destruct (pendingCount w 2) as [c2|e]];
    intros [= <- <-]; right; exists mid;
    [exists [GetPendingInvoicesCount; BatchInvoices 500000]
    |exists [GetPendingInvoicesCount; BatchInvoices 500000; Wait]
    |exists [GetPendingInvoicesCount; BatchInvoices 500000; Wait; GetPendingInvoicesCount]
    |exists [GetPendingInvoicesCount; BatchInvoices 500000; Wait; GetPendingInvoicesCount]];
    rewrite <- ?app_assoc; cbn [app];
    (split; [done|]); (split; [done|]); (split; [done|]);
    (split; [right; exists (Returns tt); split; [done|]; split; [done|eauto]|]);
    (split; [intros ev Hin; members Hin; auto|]);
    (split; [intros _; eauto|]); intros; member.
Qed.

Lemma tail_silent (tail : list Event) :
  (∀ ev, ev ∈ tail →
     ev = GetPendingInvoicesCount ∨ ev = BatchInvoices 500000 ∨ ev = Wait) →
  sentHashes tail = [] ∧ sleeps tail = 0%nat.
Proof.
  unfold sleeps. induction tail as [|ev tail IH]; intros Hshape; [done|].
  destruct IH as [IH1 IH2]; [intros; apply Hshape, elem_of_cons; auto|].
  by destruct (Hshape ev (list_elem_of_here _ _)) as [->|[->| ->]].
Qed.

(** The [try] block: what it emits and what a return means. *)
Lemma transact_spec env answers w evs r :
  transact hashOf env answers w = (evs, r) →
  (∀ msg, LogError msg ∉ evs)
  ∧ (∀ ms, Sleep ms ∈ evs → ms = 1000)
  ∧ sentHashes evs `prefix_of` (hashOf <$> invoiceIds answers)
  ∧ (sleeps evs ≤ length (sentHashes evs))%nat
  ∧ (∀ g, BatchInvoices g ∈ evs →
       g = 500000 ∧ autoBatch answers = true
       ∧ (∃ c, pendingCount w 1 = Returns c ∧ 0 < c)
       ∧ sentHashes evs = hashOf <$> invoiceIds answers
       ∧ ∀ i id, invoiceIds answers !! i = Some id → invoiceTx w i = Mined)
  ∧ (∀ u, r = Returns u →
       head evs = Some (Connect (tpl (env !! ChainListener.rpcEnvKey (chain answers)))
                          (tpl (env !! ChainListener.contractEnvKey (chain answers))))
       ∧ sentHashes evs = hashOf <$> invoiceIds answers
       ∧ sleeps evs = pred (length (invoiceIds answers))
       ∧ (∀ i id, invoiceIds answers !! i = Some id →
            invoiceTx w i = Mined
            ∧ ∃ g, estimatedGas w i = Returns g ∧ NewInvoice (hashOf id) g ∈ evs)
       ∧ (autoBatch answers = true →
          ∀ c, pendingCount w 1 = Returns c → 0 < c → BatchInvoices 500000 ∈ evs)).
Proof.
  intros [(-> & [e ->] & _)
         |(mid & tail & _ & _ & -> & Hmid & Hshape & Hbatch & Hret)]%transact_cases.
  { split; [intros msg Hin; members Hin|]. split; [intros ms Hin; members Hin|].
    split; [apply prefix_nil|]. split; [done|]. split; [intros g Hin; members Hin|done]. }
  destruct (tail_silent tail Hshape) as [Hnone Hawake].
  set (connect := Connect _ _).
  assert (∀ r1, sendAll w 0 (hashOf <$> invoiceIds answers) = (mid, r1) ∨ mid = [] →
            (∀ ev, ev ∈ mid →
               (∃ h, ev = EstimateGas h) ∨ (∃ h g, ev = NewInvoice h g) ∨ ev = Wait
               ∨ ev = Sleep 1000)
            ∧ sentHashes mid `prefix_of` (hashOf <$> invoiceIds answers)
            ∧ (sleeps mid ≤ length (sentHashes mid))%nat) as Hsent.
  { intros r1 [Hsend| ->].
    - destruct (sendAll_spec _ _ _ _ _ Hsend) as (? & ? & ? & _). done.
    - split; [intros ev Hin; members Hin|]. split; [apply prefix_nil|done]. }
  assert (∃ r1, sendAll w 0 (hashOf <$> invoiceIds answers) = (mid, r1) ∨ mid = [])
    as [r1 Hr1].
  { destruct Hmid as [(-> & _)|(r1 & ? & _)]; [exists r|exists r1]; auto. }
  destruct (Hsent r1 Hr1) as (Hevs & Hprefix & Hsleeps).
  rewrite !sentHashes_app, !sleeps_app, Hnone, Hawake, app_nil_r.
  change (sentHashes [connect; GetPendingInvoicesCount]) with (@nil string).
  change (sleeps [connect; GetPendingInvoicesCount]) with 0%nat.
  cbn [app Nat.add]. rewrite Nat.add_0_r.
  split.
  { intros msg [Hin|[Hin|[Hin|Hin]%elem_of_app]%elem_of_cons]%elem_of_cons; [done..| |].
    - by destruct (Hevs _ Hin) as [[? ?]|[(?&?&?)|[?|?]]].
    - by destruct (Hshape _ Hin) as [?|[?|?]]. }
  split.
  { intros ms [Hin|[Hin|[Hin|Hin]%elem_of_app]%elem_of_cons]%elem_of_cons; [done..| |].
    - destruct (Hevs _ Hin) as [[? ?]|[(?&?&?)|[?|?]]]; congruence.
    - by destruct (Hshape _ Hin) as [?|[?|?]]. }
  split; [done|]. split; [done|].
  assert (∀ u1, sendAll w 0 (hashOf <$> invoiceIds answers) = (mid, Returns u1) →
            sentHashes mid = hashOf <$> invoiceIds answers
            ∧ sleeps mid = pred (length (invoiceIds answers))
            ∧ ∀ i id, invoiceIds answers !! i = Some id →
                invoiceTx w i = Mined
                ∧ ∃ g, estimatedGas w i = Returns g ∧ NewInvoice (hashOf id) g ∈ mid)
    as Hdone.
  { intros u1 Hsend.
    destruct (sendAll_spec _ _ _ _ _ Hsend) as (_ & _ & _ & Hall).
    destruct (Hall u1 eq_refl) as (Hall1 & Hall2 & Hall3).
    split; [done|]. split; [by rewrite Hall2, length_fmap|].
    intros i id Hi. apply (Hall3 i (hashOf id)). by rewrite list_lookup_fmap, Hi. }
  split.
  - intros g [Hin|[Hin|[Hin|Hin]%elem_of_app]%elem_of_cons]%elem_of_cons; [done..| |].
    { by destruct (Hevs _ Hin) as [[? ?]|[(?&?&?)|[?|?]]]. }
    assert (g = 500000) as -> by (by destruct (Hshape _ Hin) as [?|[[= ->]|?]]).
    destruct (Hbatch Hin) as (Hsend & Hauto & Hcount).
    destruct (Hdone _ Hsend) as (Hall1 & _ & Hall3).
    split; [done|]. split; [done|]. split; [done|]. split; [done|].
    intros i id Hi. by destruct (Hall3 i id Hi).
  - intros u ->.
    destruct Hmid as [(_ & _ & ? & [=])|(r1' & Hsend & _ & Hreturned)].
    destruct (Hreturned u eq_refl) as [u1 ->].
    destruct (Hdone _ Hsend) as (Hall1 & Hall2 & Hall3).
    split; [done|]. split; [done|]. split; [done|]. split.
    + intros i id Hi. destruct (Hall3 i id Hi) as (? & g & ? & Hin). split; [done|].
      exists g. split; [done|]. do 2 apply list_elem_of_further.
      apply elem_of_app. by left.
    + intros Hauto c Hc Hpos. do 2 apply list_elem_of_further.
      apply elem_of_app. right. by eapply Hret.
Qed.

(** The ways through [main()]: it stops before the [try] block with
    nothing done, or runs it and logs what it throws. *)
Lemma main_cases env answers w :
  (main hashOf env answers w = ([], wallet w)
   ∧ ((∃ e, wallet w = Throws e) ∨ getEnabledChains env = []
      ∨ proceed answers = false))
  ∨ (wallet w = Returns tt ∧ getEnabledChains env ≠ [] ∧ proceed answers = true
     ∧ ∃ evs r, transact hashOf env answers w = (evs, r)
         ∧ main hashOf env answers w
           = (evs ++ match r with
                     | Throws error => [LogError (message error)]
                     | Returns _ => []
                     end, Returns tt)).
Proof.
  unfold main, bind. destruct (wallet w) as [[]|e]; [|left; eauto].
  case_decide as Hchains; [left; auto|].
  destruct (proceed answers); cbn [negb]; [|left; auto].
  right. split; [done|]. split; [done|]. split; [done|].
  destruct (transact hashOf env answers w) as [evs [[]|e]];
    eexists _, _; (split; [done|]); by rewrite ?app_nil_r.
Qed.

(** X22. The script sends the invoices in the order they were entered:
    the hashes passed to [newInvoice] are a prefix of the hashes of the
    entered ids, every pause is one second and there are no more pauses
    than sends.  When it did something and logged no error, it sent every
    hash, with the gas estimated for it, every transaction was mined, and
    it paused once between two invoices. *)
Theorem invoices_sent_in_entry_order env answers w evs r :
  main hashOf env answers w = (evs, r) →
  sentHashes evs `prefix_of` (hashOf <$> invoiceIds answers)
  ∧ (sleeps evs ≤ length (sentHashes evs))%nat
  ∧ (∀ ms, Sleep ms ∈ evs → ms = 1000)
  ∧ ((∀ msg, LogError msg ∉ evs) → evs ≠ [] →
     sentHashes evs = hashOf <$> invoiceIds answers
     ∧ sleeps evs = pred (length (invoiceIds answers))
     ∧ ∀ i id, invoiceIds answers !! i = Some id →
         invoiceTx w i = Mined
         ∧ ∃ g, estimatedGas w i = Returns g ∧ NewInvoice (hashOf id) g ∈ evs).
Proof.
  intros Hmain.
  destruct (main_cases env answers w)
    as [[Hm _]|(_ & _ & _ & evs' & r' & Hrun & Hm)];
    rewrite Hm in Hmain; injection Hmain as <- <-.
  { split; [apply prefix_nil|]. split; [done|].
    split; [intros ms Hin; members Hin|done]. }
  destruct (transact_spec _ _ _ _ _ Hrun) as (Hquiet & Hsleep & Hprefix & Hcount & _ & Hret).
  destruct r' as [u|e].
  - rewrite app_nil_r. split; [done|]. split; [done|]. split; [done|].
    intros _ _. destruct (Hret u eq_refl) as (_ & ? & ? & ? & _). done.
  - rewrite sentHashes_app, sleeps_app, app_nil_r. cbn. rewrite Nat.add_0_r.
    split; [done|]. split; [done|]. split.
    + intros ms [Hin|Hin]%elem_of_app; [by apply Hsleep|members Hin].
    + intros Hno. destruct (Hno (message e)). apply elem_of_app. right. member.
Qed.

(** X23. The script sends [batchInvoices] only when the user confirmed
    and asked for it, every invoice was sent and mined, and the contract
    then reported a positive pending count; the gas limit is 500000. *)
Theorem batch_only_when_asked_and_pending env answers w evs r g :
  main hashOf env answers w = (evs, r) →
  BatchInvoices g ∈ evs →
  g = 500000
  ∧ proceed answers = true
  ∧ autoBatch answers = true
  ∧ (∃ c, pendingCount w 1 = Returns c ∧ 0 < c)
  ∧ sentHashes evs = hashOf <$> invoiceIds answers
  ∧ ∀ i id, invoiceIds answers !! i = Some id → invoiceTx w i = Mined.
Proof.
  intros Hmain Hin.
  destruct (main_cases env answers w)
    as [[Hm _]|(_ & _ & Hproceed & evs' & r' & Hrun & Hm)];
    rewrite Hm in Hmain; injection Hmain as <- <-; [members Hin|].
  destruct (transact_spec _ _ _ _ _ Hrun) as (_ & _ & _ & _ & Hbatch & _).
  apply elem_of_app in Hin as [Hin|Hin]; [|destruct r'; members Hin].
  destruct (Hbatch g Hin) as (? & ? & ? & Hsent & ?).
  rewrite sentHashes_app, Hsent.
  split; [done|]. split; [done|]. split; [done|]. split; [done|].
  split; [|done]. destruct r'; by rewrite app_nil_r.
Qed.

(** X24. Once the wallet is built, [main()] never rejects: whatever the
    chain answers, a failure is logged, as the last thing the script does,
    and the promise resolves.  Nothing is done without the user's
    confirmation; and for a chain chosen among the enabled ones whose
    contract address is configured, the script does connect, to the RPC
    endpoint and the address the environment gives for that chain. *)
Theorem send_failures_are_logged_not_thrown env answers w :
  wallet w = Returns tt →
  ∃ evs, main hashOf env answers w = (evs, Returns tt)
    ∧ (proceed answers = false → evs = [])
    ∧ (∀ msg, LogError msg ∈ evs → last evs = Some (LogError msg))
    ∧ (chain answers ∈ getEnabledChains env → proceed answers = true →
       truthy (env !! ChainListener.contractEnvKey (chain answers)) = true →
       head evs = Some (Connect (tpl (env !! ChainListener.rpcEnvKey (chain answers)))
                          (tpl (env !! ChainListener.contractEnvKey (chain answers))))).
Proof.
  intros Hwallet.
  destruct (main_cases env answers w)
    as [[Hm Hwhy]|(_ & _ & Hproceed & evs' & r' & Hrun & Hm)]; rewrite Hm.
  { rewrite Hwallet. eexists. split; [done|]. split; [done|].
    split; [intros msg Hin; members Hin|]. intros Hchain Hproceed _.
    destruct Hwhy as [[e He]|[Hnone|Hno]]; [congruence| |congruence].
    rewrite Hnone in Hchain. members Hchain. }
  eexists. split; [done|]. split; [congruence|].
  destruct (transact_spec _ _ _ _ _ Hrun) as (Hquiet & _ & _ & _ & _ & Hret).
  split.
  - intros msg [Hin|Hin]%elem_of_app; [by apply Hquiet in Hin|].
    destruct r' as [u|e]; members Hin. injection Hin as ->. apply last_snoc.
  - intros Hchain _ Haddress.
    apply transact_cases in Hrun
      as [(_ & _ & [Hrpc|Hno])|(mid & tail & _ & _ & -> & _)]; [|congruence|done].
    destruct (enabled_rpc env _ Hchain) as (prefix & Hprefix & Hrpc' & Htruthy).
    unfold ChainListener.rpcEnvKey in Hrpc. rewrite Hprefix in Hrpc. cbn in Hrpc.
    congruence.
Qed.

End SendFacts.

Lemma invoices_sent_in_entry_order_witness :
  SendInvoices.sentHashes
    (SendInvoices.main Fixture.id Fixture.env Fixture.answers Fixture.ledger).1
    `prefix_of` (Fixture.id <$> SendInvoices.invoiceIds Fixture.answers)
  ∧ (SendInvoices.sleeps
       (SendInvoices.main Fixture.id Fixture.env Fixture.answers Fixture.ledger).1
     ≤ length (SendInvoices.sentHashes
                 (SendInvoices.main Fixture.id Fixture.env Fixture.answers
                    Fixture.ledger).1))%nat
  ∧ (∀ ms, SendInvoices.Sleep ms
           ∈ (SendInvoices.main Fixture.id Fixture.env Fixture.answers Fixture.ledger).1 →
           ms = 1000)
  ∧ ((∀ msg, SendInvoices.LogError msg
             ∉ (SendInvoices.main Fixture.id Fixture.env Fixture.answers Fixture.ledger).1) →
     (SendInvoices.main Fixture.id Fixture.env Fixture.answers Fixture.ledger).1 ≠ [] →
     SendInvoices.sentHashes
       (SendInvoices.main Fixture.id Fixture.env Fixture.answers Fixture.ledger).1
     = Fixture.id <$> SendInvoices.invoiceIds Fixture.answers
     ∧ SendInvoices.sleeps
         (SendInvoices.main Fixture.id Fixture.env Fixture.answers Fixture.ledger).1
       = pred (length (SendInvoices.invoiceIds Fixture.answers))
     ∧ ∀ i id, SendInvoices.invoiceIds Fixture.answers !! i = Some id →
         SendInvoices.invoiceTx Fixture.ledger i = SendInvoices.Mined
         ∧ ∃ g, SendInvoices.estimatedGas Fixture.ledger i = Returns g
                ∧ SendInvoices.NewInvoice (Fixture.id id) g
                  ∈ (SendInvoices.main Fixture.id Fixture.env Fixture.answers
                       Fixture.ledger).1).
Proof.
  apply (invoices_sent_in_entry_order Fixture.id Fixture.env Fixture.answers
           Fixture.ledger _
           (SendInvoices.main Fixture.id Fixture.env Fixture.answers Fixture.ledger).2).
  apply surjective_pairing.
Defined.

Lemma batch_only_when_asked_and_pending_witness :
  500000 = 500000
  ∧ SendInvoices.proceed Fixture.answers = true
  ∧ SendInvoices.autoBatch Fixture.answers = true
  ∧ (∃ c, SendInvoices.pendingCount Fixture.ledger 1 = Returns c ∧ 0 < c)
  ∧ SendInvoices.sentHashes
      (SendInvoices.main Fixture.id Fixture.env Fixture.answers Fixture.ledger).1
    = Fixture.id <$> SendInvoices.invoiceIds Fixture.answers
  ∧ ∀ i id, SendInvoices.invoiceIds Fixture.answers !! i = Some id →
            SendInvoices.invoiceTx Fixture.ledger i = SendInvoices.Mined.
Proof.
  apply (batch_only_when_asked_and_pending Fixture.id Fixture.env Fixture.answers
           Fixture.ledger _
           (SendInvoices.main Fixture.id Fixture.env Fixture.answers Fixture.ledger).2).
  - apply surjective_pairing.
  - vm_compute. member.
Defined.

Lemma send_failures_are_logged_not_thrown_witness :
  ∃ evs, SendInvoices.main Fixture.id Fixture.env Fixture.answers Fixture.ledger
         = (evs, Returns tt)
    ∧ (SendInvoices.proceed Fixture.answers = false → evs = [])
    ∧ (∀ msg, SendInvoices.LogError msg ∈ evs → last evs = Some (SendInvoices.LogError msg))
    ∧ (SendInvoices.chain Fixture.answers ∈ getEnabledChains Fixture.env →
       SendInvoices.proceed Fixture.answers = true →
       truthy (Fixture.env !! ChainListener.contractEnvKey (SendInvoices.chain Fixture.answers))
       = true →
       head evs
       = Some (SendInvoices.Connect
                 (tpl (Fixture.env !! ChainListener.rpcEnvKey (SendInvoices.chain Fixture.answers)))
                 (tpl (Fixture.env
                         !! ChainListener.contractEnvKey (SendInvoices.chain Fixture.answers))))).
Proof.
  apply (send_failures_are_logged_not_thrown Fixture.id Fixture.env Fixture.answers
           Fixture.ledger).
  reflexivity.
Defined.
